(** * Sharpify: request orchestration around the sharp image engine

    A shallow embedding of the orchestration layer of the Sharpify
    TypeScript library: the cache-key builder, the in-memory
    [ImageCache], the derivation of the engine pipeline from an options
    object, the watermark position calculator, the batch entry points
    and the metadata probe.

    The repository carries several revisions of the [Sharpify] class.
    Each one is embedded in a module of its own:
    - [ImageProcessor]: src/ImageProcessor.ts;
    - [Padded]:         the revision whose watermark takes [padding] and
                        [background];
    - [Queued]:         the revision with [validateInput], [getCacheKey],
                        [safeExecute] and the [processQueue] scheduler;
    - [Aspect]:         the revision with [applyProcessingOptions] and
                        the [aspectRatio] option.

    Conventions.  JavaScript numbers that occur in options, sizes and
    timestamps are embedded as integers ([Z]); quotients that the code
    forms with [/] are embedded as rationals ([Q]).  Strings are strings
    of 8-bit characters. *)

From Stdlib Require Import List String Ascii Bool ZArith NArith QArith Lia.
From Stdlib Require Import Qround DecimalString DecimalZ Permutation Sorted.
From Stdlib Require Import Lqa.
From Stdlib Require Strings.Byte.
Import ListNotations.

Set Warnings "-register-all".

Local Open Scope string_scope.
Local Open Scope Z_scope.

(** ** JavaScript values *)

(** The values that reach [JSON.stringify] and the property reads of
    [process].  A number is an integer.  An object is the list of its
    own properties in insertion order, which is the order
    [JSON.stringify] follows for keys that are not array indices (the
    option names are not; [plain] below singles these objects out). *)
Inductive jsval : Type :=
| JUndefined
| JNull
| JBool (b : bool)
| JNum (n : Z)
| JStr (s : string)
| JArr (xs : list jsval)
| JObj (fields : list (string * jsval)).

Definition jsobject : Type := list (string * jsval).

(** [o.k]: the value of property [k], [undefined] when absent. *)
Fixpoint get_prop (o : jsobject) (k : string) : jsval :=
  match o with
  | [] => JUndefined
  | (k', v) :: o' => if String.eqb k' k then v else get_prop o' k
  end.

(** JavaScript truthiness, as used by [if (x)], [x || y] and [!x]. *)
Definition truthy (v : jsval) : bool :=
  match v with
  | JUndefined => false
  | JNull => false
  | JBool b => b
  | JNum n => negb (n =? 0)
  | JStr s => negb (String.eqb s EmptyString)
  | JArr _ => true
  | JObj _ => true
  end.

(** [typeof v === 'number'] *)
Definition is_number (v : jsval) : bool :=
  match v with JNum _ => true | _ => false end.

(** [a || b] *)
Definition js_or (a b : jsval) : jsval := if truthy a then a else b.

(** ** JSON.stringify *)

Definition dquote : ascii := "034"%char.
Definition backslash : ascii := "092"%char.

Definition hex_digit (n : N) : ascii :=
  nth (N.to_nat n)
      ["0"; "1"; "2"; "3"; "4"; "5"; "6"; "7";
       "8"; "9"; "a"; "b"; "c"; "d"; "e"; "f"]%char "0"%char.

(** QuoteJSONString, one code unit. *)
Definition escape_char (c : ascii) : string :=
  let n := N_of_ascii c in
  if (n =? 34)%N then String backslash (String dquote EmptyString)
  else if (n =? 92)%N then String backslash (String backslash EmptyString)
  else if (n =? 8)%N then String backslash "b"
  else if (n =? 9)%N then String backslash "t"
  else if (n =? 10)%N then String backslash "n"
  else if (n =? 12)%N then String backslash "f"
  else if (n =? 13)%N then String backslash "r"
  else if (n <? 32)%N then
    String backslash
      (String "u" (String "0" (String "0"
        (String (hex_digit (n / 16)) (String (hex_digit (n mod 16)) EmptyString)))))
  else String c EmptyString.

Fixpoint escape (s : string) : string :=
  match s with
  | EmptyString => EmptyString
  | String c s' => escape_char c ++ escape s'
  end.

Definition quote (s : string) : string :=
  String dquote (escape s ++ String dquote EmptyString).
Arguments quote : simpl never.

(** Number::toString on an integer. *)
Definition show_Z (n : Z) : string := NilEmpty.string_of_int (Z.to_int n).

(** SerializeJSONProperty: [None] stands for the result [undefined]. *)
Fixpoint serialize (v : jsval) : option string :=
  match v with
  | JUndefined => None
  | JNull => Some "null"
  | JBool true => Some "true"
  | JBool false => Some "false"
  | JNum n => Some (show_Z n)
  | JStr s => Some (quote s)
  | JArr xs =>
      Some ("[" ++ String.concat ","
                     (map (fun x => match serialize x with
                                    | Some s => s
                                    | None => "null"
                                    end) xs) ++ "]")
  | JObj fs =>
      Some ("{" ++ String.concat ","
                     ((fix members (l : list (string * jsval)) : list string :=
                         match l with
                         | [] => []
                         | (k, x) :: l' =>
                             match serialize x with
                             | Some s => (quote k ++ ":" ++ s) :: members l'
                             | None => members l'
                             end
                         end) fs) ++ "}")
  end.

(** The members that SerializeJSONObject writes: properties whose value
    serializes to [undefined] are left out. *)
Fixpoint members (l : jsobject) : list string :=
  match l with
  | [] => []
  | (k, x) :: l' =>
      match serialize x with
      | Some s => (quote k ++ ":" ++ s) :: members l'
      | None => members l'
      end
  end.

(** [JSON.stringify(v)] inside a template literal or a string
    concatenation. *)
Definition JSON_stringify (v : jsval) : string :=
  match serialize v with
  | Some s => s
  | None => "undefined"
  end.

(** ** Buffers *)

Definition Buffer : Type := list Byte.byte.

Definition base64_alphabet : list ascii :=
  list_ascii_of_string
    "ABCDEFGHIJKLMNOPQRSTUVWXYZabcdefghijklmnopqrstuvwxyz0123456789+/".

Definition b64_char (n : N) : ascii := nth (N.to_nat n) base64_alphabet "="%char.

(** [buf.toString('base64')] *)
Fixpoint to_base64 (b : Buffer) : string :=
  match b with
  | [] => EmptyString
  | [x] =>
      let n := (Byte.to_N x * 65536)%N in
      String (b64_char (n / 262144))
        (String (b64_char ((n / 4096) mod 64)) "==")
  | [x; y] =>
      let n := (Byte.to_N x * 65536 + Byte.to_N y * 256)%N in
      String (b64_char (n / 262144))
        (String (b64_char ((n / 4096) mod 64))
          (String (b64_char ((n / 64) mod 64)) "="))
  | x :: y :: z :: b' =>
      let n := (Byte.to_N x * 65536 + Byte.to_N y * 256 + Byte.to_N z)%N in
      String (b64_char (n / 262144))
        (String (b64_char ((n / 4096) mod 64))
          (String (b64_char ((n / 64) mod 64))
            (String (b64_char (n mod 64)) (to_base64 b'))))
  end.

(** [Buffer.prototype.toJSON] *)
Definition Buffer_toJSON (b : Buffer) : jsval :=
  JObj [("type", JStr "Buffer");
        ("data", JArr (map (fun x => JNum (Z.of_N (Byte.to_N x))) b))].

(** The inputs [process] accepts: a buffer or a path string. *)
Inductive Input : Type :=
| InBuffer (b : Buffer)
| InString (s : string).

(** ** Results and errors *)

Record ImageMetadata : Type := {
  hasAlpha : bool;
  isAnimated : bool;
  pages : option Z;
  compression : option string;
  colorSpace : option string
}.

Record ProcessedImage : Type := {
  img_data : Buffer;
  img_format : string;
  img_width : Z;
  img_height : Z;
  img_size : Z;
  img_metadata : ImageMetadata
}.

(** Thrown values: a plain [Error] or the library's
    [ImageProcessingError(message, originalError, operation)]. *)
Inductive JsError : Type :=
| PlainError (message : string)
| ImageProcessingError (message : string) (originalError : option JsError)
                       (operation : option string).

(** A settled promise. *)
Inductive Outcome (A : Type) : Type :=
| Fulfilled (v : A)
| Rejected (e : JsError).
Arguments Fulfilled {A} v.
Arguments Rejected {A} e.

(** ** cache.ts: ImageCache *)

Record CacheEntry : Type := {
  timestamp : Z;
  result : ProcessedImage
}.

(** A JavaScript [Map<string, CacheEntry>]: entries in insertion order,
    keys pairwise distinct. *)
Definition JsMap : Type := list (string * CacheEntry).

Fixpoint map_get (k : string) (m : JsMap) : option CacheEntry :=
  match m with
  | [] => None
  | (k', e) :: m' => if String.eqb k' k then Some e else map_get k m'
  end.

(** [Map.prototype.set]: an existing key keeps its place, a new key goes
    to the end. *)
Fixpoint map_set (k : string) (e : CacheEntry) (m : JsMap) : JsMap :=
  match m with
  | [] => [(k, e)]
  | (k', e') :: m' =>
      if String.eqb k' k then (k', e) :: m' else (k', e') :: map_set k e m'
  end.

Fixpoint map_delete (k : string) (m : JsMap) : JsMap :=
  match m with
  | [] => []
  | (k', e') :: m' =>
      if String.eqb k' k then m' else (k', e') :: map_delete k m'
  end.

Definition map_size (m : JsMap) : Z := Z.of_nat (List.length m).

Record ImageCache : Type := {
  cache : JsMap;
  maxSize : Z;
  maxAge : Z
}.

(** [new ImageCache(maxSize = 100, maxAge = 3600000)] *)
Definition new_ImageCache (size age : option Z) : ImageCache :=
  {| cache := [];
     maxSize := match size with Some n => n | None => 100 end;
     maxAge := match age with Some n => n | None => 3600000 end |}.

Definition with_cache (c : ImageCache) (m : JsMap) : ImageCache :=
  {| cache := m; maxSize := maxSize c; maxAge := maxAge c |}.

(** The scan of [removeOldestEntry]: [(oldestKey, oldestTime)] after the
    [for .. of] loop, started from [(undefined, Date.now())]. *)
Fixpoint oldest_scan (m : JsMap) (oldestKey : option string) (oldestTime : Z)
  : option string * Z :=
  match m with
  | [] => (oldestKey, oldestTime)
  | (key, entry) :: m' =>
      if timestamp entry <? oldestTime
      then oldest_scan m' (Some key) (timestamp entry)
      else oldest_scan m' oldestKey oldestTime
  end.

(** [removeOldestEntry()], with [now] the value [Date.now()] returns.
    The final test [if (oldestKey)] is a truthiness test on a string. *)
Definition removeOldestEntry (now : Z) (c : ImageCache) : ImageCache :=
  match fst (oldest_scan (cache c) None now) with
  | Some key =>
      if truthy (JStr key) then with_cache c (map_delete key (cache c)) else c
  | None => c
  end.

(** [set(key, value)]: [t_scan] is the clock read by [removeOldestEntry]
    (when it runs), [t_stamp] the clock read for the new entry. *)
Definition set (t_scan t_stamp : Z) (key : string) (value : ProcessedImage)
           (c : ImageCache) : ImageCache :=
  let c1 := if maxSize c <=? map_size (cache c)
            then removeOldestEntry t_scan c else c in
  with_cache c1 (map_set key {| timestamp := t_stamp; result := value |} (cache c1)).

(** [get(key)], with [now] the value [Date.now()] returns. *)
Definition get (now : Z) (key : string) (c : ImageCache)
  : option ProcessedImage * ImageCache :=
  match map_get key (cache c) with
  | None => (None, c)
  | Some entry =>
      if maxAge c <? now - timestamp entry
      then (None, with_cache c (map_delete key (cache c)))
      else (Some (result entry), c)
  end.

Definition clear (c : ImageCache) : ImageCache := with_cache c [].

(** ** The engine interface *)

(** The calls [process] makes on a sharp pipeline, in call order. *)
Inductive Step : Type :=
| Resize (width height : jsval)
| ResizeFit (width height fit position background : jsval)
| Extract (left top width height : jsval)
| Blur (sigma : jsval)
| Sharpen
| Grayscale
| Tint (color : jsval)
| Modulate (brightness saturation : jsval)
| Linear (a b : Z)
| Rotate (angle : jsval)
| Flip
| Flop
| Watermark (text : jsval) (settings : jsval)
| CircleMask
| ToFormat (format : jsval) (quality : jsval).

(** The step kinds the specification names. *)
Inductive StepKind : Type :=
| KResize | KCrop | KBlur | KSharpen | KGrayscale | KTint | KModulate
| KLinear | KRotate | KFlip | KFlop | KOverlay | KMask | KEncode.

Definition kind (s : Step) : StepKind :=
  match s with
  | Resize _ _ => KResize
  | ResizeFit _ _ _ _ _ => KResize
  | Extract _ _ _ _ => KCrop
  | Blur _ => KBlur
  | Sharpen => KSharpen
  | Grayscale => KGrayscale
  | Tint _ => KTint
  | Modulate _ _ => KModulate
  | Linear _ _ => KLinear
  | Rotate _ => KRotate
  | Flip => KFlip
  | Flop => KFlop
  | Watermark _ _ => KOverlay
  | CircleMask => KMask
  | ToFormat _ _ => KEncode
  end.

Definition kind_eqb (a b : StepKind) : bool :=
  match a, b with
  | KResize, KResize | KCrop, KCrop | KBlur, KBlur | KSharpen, KSharpen
  | KGrayscale, KGrayscale | KTint, KTint | KModulate, KModulate
  | KLinear, KLinear | KRotate, KRotate | KFlip, KFlip | KFlop, KFlop
  | KOverlay, KOverlay | KMask, KMask | KEncode, KEncode => true
  | _, _ => false
  end.

(** The order of the specification: resize, crop, blur, sharpen,
    grayscale, tint, modulation, linear contrast, rotate, flip, flop,
    overlay, encode. *)
Definition spec_order : list StepKind :=
  [KResize; KCrop; KBlur; KSharpen; KGrayscale; KTint; KModulate; KLinear;
   KRotate; KFlip; KFlop; KOverlay; KEncode].

Definition is_pixel_filter (k : StepKind) : bool :=
  match k with KBlur | KSharpen | KGrayscale | KTint => true | _ => false end.

Definition is_orientation (k : StepKind) : bool :=
  match k with KRotate | KFlip | KFlop => true | _ => false end.

(** The engine, as the orchestration layer sees it: a pipeline built on
    an input and run to a buffer either yields an image or throws. *)
Definition Engine : Type := Input -> list Step -> Outcome ProcessedImage.

(** What one call of [process] leaves behind: the cache and the
    pipelines handed to the engine. *)
Record World : Type := {
  imageCache : ImageCache;
  engine_log : list (Input * list Step)
}.

Definition when (b : bool) (s : Step) : list Step := if b then [s] else [].

(** [v.k] on a value that may or may not be an object. *)
Definition prop (v : jsval) (k : string) : jsval :=
  match v with
  | JObj fs => get_prop fs k
  | _ => JUndefined
  end.

(** [pipeline.linear(c, -(c - 1) * 128)] for a numeric contrast. *)
Definition linear_step (contrast : jsval) : list Step :=
  match contrast with
  | JNum c => [Linear c (- (c - 1) * 128)]
  | _ => []
  end.

(** ** Strings: [includes] and [trim] *)

(** [s.includes(sub)] *)
Definition includes (s sub : string) : bool :=
  match String.index 0 sub s with
  | Some _ => true
  | None => false
  end.

(** WhiteSpace and LineTerminator code units below 256. *)
Definition is_space (c : ascii) : bool :=
  let n := N_of_ascii c in
  ((9 <=? n) && (n <=? 13) || (n =? 32) || (n =? 160))%N.

Fixpoint trimStart (s : string) : string :=
  match s with
  | EmptyString => EmptyString
  | String c s' => if is_space c then trimStart s' else s
  end.

Fixpoint rev_string (s : string) : string :=
  match s with
  | EmptyString => EmptyString
  | String c s' => rev_string s' ++ String c EmptyString
  end.

(** [s.trim()] *)
Definition trim (s : string) : string :=
  rev_string (trimStart (rev_string (trimStart s))).

(** ** Watermark positions *)

(** The union type [WatermarkPosition] of types.ts. *)
Inductive WatermarkPosition : Type :=
| TopLeft | TopRight | BottomLeft | BottomRight | Center.

Definition position_string (p : WatermarkPosition) : string :=
  match p with
  | TopLeft => "top-left"
  | TopRight => "top-right"
  | BottomLeft => "bottom-left"
  | BottomRight => "bottom-right"
  | Center => "center"
  end.

(** ** Promises *)

(** A started call of [process]: its arguments and the promise it
    returned, named by a handle. *)
Record Call : Type := {
  call_input : Input;
  call_options : jsobject;
  call_handle : nat
}.

Definition Settlement : Type := (nat * Outcome ProcessedImage)%type.

Fixpoint index_of (h : nat) (hs : list nat) : option nat :=
  match hs with
  | [] => None
  | h' :: hs' =>
      if Nat.eqb h' h then Some O
      else match index_of h hs' with
           | Some i => Some (S i)
           | None => None
           end
  end.

Fixpoint update_nth {A : Type} (i : nat) (a : A) (l : list A) : list A :=
  match l, i with
  | [], _ => []
  | _ :: l', O => a :: l'
  | b :: l', S i' => b :: update_nth i' a l'
  end.

Fixpoint collect {A : Type} (l : list (option A)) : option (list A) :=
  match l with
  | [] => Some []
  | None :: _ => None
  | Some a :: l' =>
      match collect l' with
      | Some r => Some (a :: r)
      | None => None
      end
  end.

(** The record [Promise.all] keeps: the [values] list, the count of
    elements still to be fulfilled, and the settlement of the promise it
    returned (at most one, the first). *)
Record AllState : Type := {
  values : list (option ProcessedImage);
  remaining : nat;
  all_settled : option (Outcome (list ProcessedImage))
}.

Definition all_init (n : nat) : AllState :=
  {| values := repeat None n;
     remaining := n;
     all_settled := match n with O => Some (Fulfilled []) | S _ => None end |}.

(** One element promise settles.  A fulfilment stores the value at the
    element's index and fulfils the combined promise when it was the
    last; a rejection rejects the combined promise. *)
Definition all_step (hs : list nat) (st : AllState) (ev : Settlement) : AllState :=
  match index_of (fst ev) hs with
  | None => st
  | Some i =>
      match snd ev with
      | Fulfilled v =>
          let vs := update_nth i (Some v) (values st) in
          let r := Nat.pred (remaining st) in
          {| values := vs;
             remaining := r;
             all_settled :=
               match all_settled st with
               | Some o => Some o
               | None =>
                   match r with
                   | O => match collect vs with
                          | Some l => Some (Fulfilled l)
                          | None => None
                          end
                   | S _ => None
                   end
               end |}
      | Rejected e =>
          {| values := values st;
             remaining := remaining st;
             all_settled :=
               match all_settled st with
               | Some o => Some o
               | None => Some (Rejected e)
               end |}
      end
  end.

(** [Promise.all(ps)] where [hs] are the handles of [ps], in array
    order, after the settlements [evs], in the order they happened.
    [None]: still pending. *)
Definition Promise_all (hs : list nat) (evs : list Settlement)
  : option (Outcome (list ProcessedImage)) :=
  all_settled (fold_left (all_step hs) evs (all_init (List.length hs))).

(** [inputs.map(input => f(input, options))]: one call per input, in
    array order, with handles [base], [base + 1], ... *)
Fixpoint calls_from (base : nat) (inputs : list Input) (options : jsobject)
  : list Call :=
  match inputs with
  | [] => []
  | i :: inputs' =>
      {| call_input := i; call_options := options; call_handle := base |}
        :: calls_from (S base) inputs' options
  end.

Fixpoint remove_call (h : nat) (l : list Call) : option (Call * list Call) :=
  match l with
  | [] => None
  | c :: l' =>
      if Nat.eqb (call_handle c) h then Some (c, l')
      else match remove_call h l' with
           | Some (c', r) => Some (c', c :: r)
           | None => None
           end
  end.

(** ** Metadata probe *)

(** The fields of sharp's [Metadata] that [getStats] reads. *)
Record Metadata : Type := {
  md_size : option Z;
  md_format : option string;
  md_width : option Z;
  md_height : option Z;
  md_hasAlpha : option bool;
  md_space : option string;
  md_channels : option Z;
  md_compression : option string
}.

Record ImageStats : Type := {
  stats_size : Z;
  stats_format : string;
  stats_width : Z;
  stats_height : Z;
  stats_aspectRatio : Q;
  stats_hasAlpha : bool;
  stats_colorSpace : string;
  stats_channels : Z;
  stats_compression : option string
}.

(** [x || d] on an optional number, string, boolean. *)
Definition num_or (x : option Z) (d : Z) : Z :=
  match x with
  | Some n => if n =? 0 then d else n
  | None => d
  end.

Definition str_or (x : option string) (d : string) : string :=
  match x with
  | Some s => if String.eqb s EmptyString then d else s
  | None => d
  end.

Definition bool_or (x : option bool) (d : bool) : bool :=
  match x with
  | Some true => true
  | _ => d
  end.

(** The object [getStats] returns (ImageProcessor.ts and
    processors/analyze.ts build the same one). *)
Definition stats_of (metadata : Metadata) : ImageStats :=
  {| stats_size := num_or (md_size metadata) 0;
     stats_format := str_or (md_format metadata) "unknown";
     stats_width := num_or (md_width metadata) 0;
     stats_height := num_or (md_height metadata) 0;
     stats_aspectRatio :=
       (inject_Z (num_or (md_width metadata) 0)
        / inject_Z (num_or (md_height metadata) 1))%Q;
     stats_hasAlpha := bool_or (md_hasAlpha metadata) false;
     stats_colorSpace := str_or (md_space metadata) "unknown";
     stats_channels := num_or (md_channels metadata) 0;
     stats_compression := md_compression metadata |}.

(** processors/analyze.ts: [ImageAnalyzer.getStats].  [probe] is the
    settlement of [sharp(input).metadata()]. *)
Definition ImageAnalyzer_getStats (probe : Outcome Metadata) : Outcome ImageStats :=
  match probe with
  | Fulfilled metadata => Fulfilled (stats_of metadata)
  | Rejected e => Rejected e
  end.

(** [`rgb(${r}, ${g}, ${b})`] *)
Definition rgb_string (r g b : Z) : string :=
  "rgb(" ++ show_Z r ++ ", " ++ show_Z g ++ ", " ++ show_Z b ++ ")".

(** processors/analyze.ts: [ImageAnalyzer.getDominantColor]. *)
Definition ImageAnalyzer_getDominantColor (probe : Outcome (Z * Z * Z))
  : Outcome string :=
  match probe with
  | Fulfilled (r, g, b) => Fulfilled (rgb_string r g b)
  | Rejected e => Rejected e
  end.

(** ** src/ImageProcessor.ts *)

Module ImageProcessor.

(** [JSON.stringify({ input, options })] *)
Definition cacheKey (input : Buffer) (options : jsobject) : string :=
  JSON_stringify (JObj [("input", Buffer_toJSON input); ("options", JObj options)]).

(** The pipeline [process] builds between [sharp(input)] and the final
    [toBuffer]. *)
Definition steps (options : jsobject) : list Step :=
  let o := get_prop options in
  when (truthy (o "width") || truthy (o "height"))
       (Resize (o "width") (o "height"))
  ++ when (truthy (o "crop"))
       (Extract (prop (o "crop") "left") (prop (o "crop") "top")
                (prop (o "crop") "width") (prop (o "crop") "height"))
  ++ when (truthy (o "blur")) (Blur (o "blur"))
  ++ when (truthy (o "sharpen")) Sharpen
  ++ when (truthy (o "grayscale")) Grayscale
  ++ when (truthy (o "tint")) (Tint (o "tint"))
  ++ when (is_number (o "brightness") || is_number (o "saturation"))
       (Modulate (if is_number (o "brightness") then o "brightness" else JUndefined)
                 (if is_number (o "saturation") then o "saturation" else JUndefined))
  ++ (if is_number (o "contrast") then linear_step (o "contrast") else [])
  ++ when (truthy (o "rotate")) (Rotate (o "rotate"))
  ++ when (truthy (o "flip")) Flip
  ++ when (truthy (o "flop")) Flop
  ++ when (truthy (o "watermark"))
       (Watermark (prop (o "watermark") "text") (o "watermark"))
  ++ when (truthy (o "format"))
       (ToFormat (o "format") (js_or (o "quality") (JNum 80))).

Definition wrap {A : Type} (message operation : string) (r : Outcome A) : Outcome A :=
  match r with
  | Fulfilled v => Fulfilled v
  | Rejected e => Rejected (ImageProcessingError message (Some e) (Some operation))
  end.

(** [process(input, options)].  [t_get], [t_scan], [t_stamp] are the
    values of [Date.now()] read by [imageCache.get], by
    [removeOldestEntry] and by [imageCache.set]. *)
Definition process (engine : Engine) (t_get t_scan t_stamp : Z)
           (input : Buffer) (options : jsobject) (w : World)
  : Outcome ProcessedImage * World :=
  let cacheKey := cacheKey input options in
  let (cachedImage, c1) := get t_get cacheKey (imageCache w) in
  match cachedImage with
  | Some r => (Fulfilled r, {| imageCache := c1; engine_log := engine_log w |})
  | None =>
      let pipeline := steps options in
      let log := (engine_log w ++ [(InBuffer input, pipeline)])%list in
      match engine (InBuffer input) pipeline with
      | Fulfilled r =>
          (Fulfilled r,
           {| imageCache := set t_scan t_stamp cacheKey r c1; engine_log := log |})
      | Rejected e =>
          (wrap "Failed to process image" "process" (Rejected e),
           {| imageCache := c1; engine_log := log |})
      end
  end.

Definition getStats (probe : Outcome Metadata) : Outcome ImageStats :=
  wrap "Failed to retrieve image metadata" "getStats" (ImageAnalyzer_getStats probe).

Definition getWatermarkPosition
           (imageWidth imageHeight textWidth fontSize : Q)
           (position : string) (padding : Q) : Q * Q :=
  let effectivePadding := (padding + fontSize / 4)%Q in
  let y := if includes position "top" then (fontSize + effectivePadding)%Q
           else if includes position "bottom" then (imageHeight - effectivePadding)%Q
           else (imageHeight / 2)%Q in
  let x := if includes position "left" then (textWidth / 2 + effectivePadding)%Q
           else if includes position "right"
                then (imageWidth - textWidth / 2 - effectivePadding)%Q
           else (imageWidth / 2)%Q in
  (x, y).

(** The [text-anchor] the generated SVG carries. *)
Definition textAnchor (position : string) : string := "middle".

(** The calls of [process] that have been made and have not settled,
    and the settlements so far. *)
Record Pending : Type := {
  inflight : list Call;
  settled : list Settlement
}.

(** [inputs.map(input => this.process(input, options))]: every call is
    made before [Promise.all] is reached. *)
Definition batchProcess (base : nat) (inputs : list Buffer) (options : jsobject)
           (p : Pending) : Pending :=
  {| inflight := (inflight p ++ calls_from base (map InBuffer inputs) options)%list;
     settled := settled p |}.

(** The call with handle [h] settles with [o]. *)
Definition finish (p : Pending) (ev : Settlement) : Pending :=
  match remove_call (fst ev) (inflight p) with
  | Some (_, rest) => {| inflight := rest; settled := (settled p ++ [ev])%list |}
  | None => p
  end.

(** [getDominantColor(input)].  [probe] is the settlement of
    [sharp(input).stats()], reduced to its [dominant] colour. *)
Definition getDominantColor (probe : Outcome (Z * Z * Z)) : Outcome string :=
  wrap "Failed to get dominant color" "getDominantColor"
       (ImageAnalyzer_getDominantColor probe).

(** The text width [generateWatermarkSVG] passes on,
    [text.length * size / 2], and the position it gets back for the
    text, with its padding of 10. *)
Definition watermarkTextWidth (text : string) (size : Q) : Q :=
  (inject_Z (Z.of_nat (String.length text)) * size / 2)%Q.

Definition generateWatermarkSVG_xy (width height : Q) (text : string) (size : Q)
           (position : string) : Q * Q :=
  getWatermarkPosition width height (watermarkTextWidth text size) size
                       position (10 # 1).

End ImageProcessor.

(** ** The revision with [padding] and [background] watermarks *)

Module Padded.

Definition getWatermarkPosition
           (imageWidth imageHeight textWidth fontSize : Q)
           (position : string) (padding : Q) : Q * Q :=
  let y := if includes position "top" then (padding + fontSize)%Q
           else if includes position "bottom" then (imageHeight - padding)%Q
           else (imageHeight / 2)%Q in
  let x := if includes position "left" then padding
           else if includes position "right" then (imageWidth - padding)%Q
           else (imageWidth / 2)%Q in
  (x, y).

(** [textAnchor] of [generateWatermarkSVG]. *)
Definition textAnchor (position : string) : string :=
  if includes position "right" then "end"
  else if includes position "center" then "middle"
  else "start".

(** [estimatedTextWidth] of [generateWatermarkSVG]. *)
Definition estimatedTextWidth (text : string) (size : Q) : Q :=
  (inject_Z (Z.of_nat (String.length text)) * (size * (6 # 10)))%Q.

(** The background rectangle of [generateWatermarkSVG]: its [x], [y],
    [width] and [height], for the text position [(x, y)]. *)
Definition backgroundRect (x y estimatedTextWidth size padding : Q)
           (textAnchor : string) : Q * Q * Q * Q :=
  ((x - (if String.eqb textAnchor "end" then estimatedTextWidth
         else if String.eqb textAnchor "middle" then estimatedTextWidth / 2
         else 0)
      - padding / 2)%Q,
   (y - size - padding / 2)%Q,
   (estimatedTextWidth + padding)%Q,
   (size + padding)%Q).

End Padded.

(** ** The revision with [applyProcessingOptions] and [aspectRatio] *)

Module Aspect.

(** [Math.round(width / aspectRatio)], for a width [w] and a ratio [a]
    that are integers.  The code divides in double precision and
    rounds the double.  The quotient of two integers, when it is not a
    half-integer itself, lies at least [1 / (2 * a)] below the next
    half-integer, and the division is off by at most
    [|w| / (a * 2 ^ 53)]; so for [|w|] and [a] below [2 ^ 32] the
    rounded double is the rounded quotient, which is what is computed
    here. *)
Definition derived_height (width aspectRatio : jsval) : jsval :=
  match width, aspectRatio with
  | JNum w, JNum a => JNum (Qfloor (inject_Z w / inject_Z a + (1 # 2)))
  | _, _ => JUndefined
  end.

Definition applyProcessingOptions (options : jsobject) : list Step :=
  let o := get_prop options in
  (if truthy (o "aspectRatio") && truthy (o "width")
   then [Resize (o "width") (derived_height (o "width") (o "aspectRatio"))]
   else when (truthy (o "width") || truthy (o "height"))
             (Resize (o "width") (o "height")))
  ++ when (truthy (o "crop"))
       (Extract (prop (o "crop") "left") (prop (o "crop") "top")
                (prop (o "crop") "width") (prop (o "crop") "height"))
  ++ when (truthy (o "blur")) (Blur (o "blur"))
  ++ when (truthy (o "sharpen")) Sharpen
  ++ when (truthy (o "grayscale")) Grayscale
  ++ when (truthy (o "tint")) (Tint (o "tint"))
  ++ when (is_number (o "brightness") || is_number (o "saturation"))
       (Modulate (if is_number (o "brightness") then o "brightness" else JUndefined)
                 (if is_number (o "saturation") then o "saturation" else JUndefined))
  ++ (if is_number (o "contrast") then linear_step (o "contrast") else [])
  ++ when (truthy (o "rotate")) (Rotate (o "rotate"))
  ++ when (truthy (o "flip")) Flip
  ++ when (truthy (o "flop")) Flop.

(** The pipeline of this revision's [process]. *)
Definition steps (options : jsobject) : list Step :=
  let o := get_prop options in
  applyProcessingOptions options
  ++ when (truthy (o "watermark"))
       (Watermark (prop (o "watermark") "text") (o "watermark"))
  ++ when (truthy (o "format")) (ToFormat (o "format") (o "quality")).

End Aspect.

(** ** The revision with [validateInput], [getCacheKey] and the queue *)

Module Queued.

(** [validateInput(input)]: the error it throws, if any. *)
Definition validateInput (input : Input) : option JsError :=
  match input with
  | InBuffer b =>
      if Nat.eqb (List.length b) 0
      then Some (ImageProcessingError "Empty buffer provided" None None)
      else None
  | InString s =>
      if negb (truthy (JStr (trim s)))
      then Some (ImageProcessingError "Empty string provided" None None)
      else None
  end.

Definition getCacheKey (input : Input) (options : jsobject) : string :=
  let inputHash := match input with
                   | InString s => s
                   | InBuffer b => String.substring 0 32 (to_base64 b)
                   end in
  inputHash ++ "-" ++ JSON_stringify (JObj options).

(** [safeExecute(operation, func)], applied to the settlement of
    [func()]. *)
Definition safeExecute {A : Type} (operation : string) (r : Outcome A) : Outcome A :=
  match r with
  | Fulfilled v => Fulfilled v
  | Rejected e =>
      Rejected (ImageProcessingError ("Failed to " ++ operation) (Some e) (Some operation))
  end.

Definition steps (options : jsobject) : list Step :=
  let o := get_prop options in
  when (truthy (o "width") || truthy (o "height"))
       (ResizeFit (o "width") (o "height") (o "fit") (o "position") (o "background"))
  ++ when (truthy (o "blur")) (Blur (o "blur"))
  ++ when (truthy (o "sharpen")) Sharpen
  ++ when (truthy (o "grayscale")) Grayscale
  ++ when (truthy (o "rotate")) (Rotate (o "rotate"))
  ++ when (truthy (o "flip")) Flip
  ++ when (truthy (o "flop")) Flop
  ++ when (truthy (o "tint")) (Tint (o "tint"))
  ++ when (truthy (o "brightness") || truthy (o "saturation"))
       (Modulate (o "brightness") (o "saturation"))
  ++ (if truthy (o "contrast") then linear_step (o "contrast") else [])
  ++ when (truthy (o "watermark"))
       (Watermark (prop (o "watermark") "text") (o "watermark"))
  ++ when (truthy (o "radius")) CircleMask
  ++ when (truthy (o "format")) (ToFormat (o "format") (o "quality")).

(** [process(input, options)], with the clock reads of [cache.get],
    [removeOldestEntry] and [cache.set]. *)
Definition process (engine : Engine) (t_get t_scan t_stamp : Z)
           (input : Input) (options : jsobject) (w : World)
  : Outcome ProcessedImage * World :=
  match validateInput input with
  | Some err => (safeExecute "process image" (Rejected err), w)
  | None =>
      let cacheKey := getCacheKey input options in
      let (cached, c1) := get t_get cacheKey (imageCache w) in
      match cached with
      | Some r => (Fulfilled r, {| imageCache := c1; engine_log := engine_log w |})
      | None =>
          let pipeline := steps options in
          let log := (engine_log w ++ [(input, pipeline)])%list in
          match engine input pipeline with
          | Fulfilled r =>
              (Fulfilled r,
               {| imageCache := set t_scan t_stamp cacheKey r c1; engine_log := log |})
          | Rejected e =>
              (safeExecute "process image" (Rejected e),
               {| imageCache := c1; engine_log := log |})
          end
      end
  end.

(** The static fields [queue] and [isProcessing], the calls of
    [process] awaited by an activation of [processQueue], and the
    completion handles resolved or rejected so far. *)
Record Scheduler : Type := {
  queue : list Call;
  isProcessing : bool;
  inflight : list Call;
  settled : list Settlement
}.

Definition idle : Scheduler :=
  {| queue := []; isProcessing := false; inflight := []; settled := [] |}.

(** [processQueue()] up to its [await]: returns at once when an
    activation is awaiting or the queue is empty, otherwise raises
    [isProcessing], shifts the head of the queue and calls [process]
    on it. *)
Definition processQueue (s : Scheduler) : Scheduler :=
  if isProcessing s then s
  else match queue s with
       | [] => s
       | item :: rest =>
           {| queue := rest;
              isProcessing := true;
              inflight := (inflight s ++ [item])%list;
              settled := settled s |}
       end.

(** [queueProcess(input, options)]: push, then [processQueue()]. *)
Definition queueProcess (s : Scheduler) (item : Call) : Scheduler :=
  processQueue
    {| queue := (queue s ++ [item])%list;
       isProcessing := isProcessing s;
       inflight := inflight s;
       settled := settled s |}.

(** [processQueue()] from its [await] on: the awaited call with handle
    [fst ev] settled with [snd ev]; the item's handle is resolved or
    rejected with it, [isProcessing] is lowered and [processQueue()]
    runs again. *)
Definition finish (s : Scheduler) (ev : Settlement) : Scheduler :=
  match remove_call (fst ev) (inflight s) with
  | None => s
  | Some (_, rest) =>
      processQueue
        {| queue := queue s;
           isProcessing := false;
           inflight := rest;
           settled := (settled s ++ [ev])%list |}
  end.

(** [inputs.map(input => this.queueProcess(input, options))] *)
Definition batchProcess (base : nat) (inputs : list Input) (options : jsobject)
           (s : Scheduler) : Scheduler :=
  fold_left queueProcess (calls_from base inputs options) s.

(** What can happen to the scheduler: a call of [queueProcess], or the
    settlement of an awaited [process]. *)
Inductive Event : Type :=
| Enqueue (item : Call)
| Settle (ev : Settlement).

Definition step (s : Scheduler) (e : Event) : Scheduler :=
  match e with
  | Enqueue item => queueProcess s item
  | Settle ev => finish s ev
  end.

Definition run (trace : list Event) : Scheduler := fold_left step trace idle.

(** The items a trace enqueues, in call order. *)
Fixpoint enqueued (trace : list Event) : list Call :=
  match trace with
  | [] => []
  | Enqueue item :: t => item :: enqueued t
  | Settle _ :: t => enqueued t
  end.

(** [convert(input, format, quality = 80)] *)
Definition convert (engine : Engine) (t_get t_scan t_stamp : Z)
           (input : Input) (format : jsval) (quality : option Z) (w : World)
  : Outcome ProcessedImage * World :=
  let quality := match quality with Some q => q | None => 80 end in
  match validateInput input with
  | Some err => (safeExecute "convert image" (Rejected err), w)
  | None =>
      let (r, w') := process engine t_get t_scan t_stamp input
                             [("format", format); ("quality", JNum quality)] w in
      (safeExecute "convert image" r, w')
  end.

End Queued.

(** ** processors/effects.ts *)

(** [ImageEffects.adjust(input, brightness, saturation, contrast)]: the
    pipeline it builds. *)
Definition ImageEffects_adjust (brightness saturation contrast : jsval)
  : list Step :=
  (when (is_number brightness || is_number saturation)
        (Modulate brightness saturation)
   ++ (if is_number contrast then linear_step contrast else []))%list.

(** ** processors/watermark.ts *)

Module ImageWatermark.

(** [textWidth] of [generateTextSVG] *)
Definition textWidth (text : string) (size : Q) : Q :=
  (size * inject_Z (Z.of_nat (String.length text)) / 2)%Q.

Definition getXPosition (position : string) (width textWidth : Q) : Q :=
  if includes position "left" then 10 # 1
  else if includes position "right" then (width - textWidth - (10 # 1))%Q
  else ((width - textWidth) / 2)%Q.

Definition getYPosition (position : string) (height fontSize : Q) : Q :=
  if includes position "top" then (fontSize + (10 # 1))%Q
  else if includes position "bottom" then (height - (10 # 1))%Q
  else (height / 2)%Q.

End ImageWatermark.

(** ** avatar.ts *)

Module Avatar.

(** What [createAvatar] asks of the engine: a resize to a square, a
    [dest-in] composite of a rounded rectangle, and a PNG encode. *)
Record Pipeline : Type := {
  resize_width : Z;
  resize_height : Z;
  mask_width : Z;
  mask_height : Z;
  mask_rx : Q;
  mask_ry : Q;
  png_quality : Z;
  png_compressionLevel : Z
}.

Definition AvatarEngine : Type := Buffer -> Pipeline -> Outcome ProcessedImage.

(** [options.size || 100] *)
Definition size_of (options : jsobject) : Z :=
  match js_or (get_prop options "size") (JNum 100) with
  | JNum n => n
  | _ => 100
  end.

Definition pipeline_of (options : jsobject) : Pipeline :=
  let size := size_of options in
  {| resize_width := size;
     resize_height := size;
     mask_width := size;
     mask_height := size;
     mask_rx := (inject_Z size / 2)%Q;
     mask_ry := (inject_Z size / 2)%Q;
     png_quality := 100;
     png_compressionLevel := 9 |}.

(** [createAvatar(input, options)]: whatever is thrown inside is
    replaced by a new [Error]. *)
Definition createAvatar (engine : AvatarEngine) (input : Buffer)
           (options : jsobject) : Outcome ProcessedImage :=
  match engine input (pipeline_of options) with
  | Fulfilled r => Fulfilled r
  | Rejected _ => Rejected (PlainError "Failed to create avatar")
  end.

(** [Sharpify.createAvatar] of the revision with
    [applyProcessingOptions]. *)
Definition Sharpify_createAvatar (engine : AvatarEngine) (input : Buffer)
           (options : jsobject) : Outcome ProcessedImage :=
  ImageProcessor.wrap "Failed to create avatar" "createAvatar"
                      (createAvatar engine input options).

End Avatar.

(** ** Reading back what [quote] wrote *)

Definition unhex (c : ascii) : N :=
  let n := N_of_ascii c in
  if (n <? 58)%N then (n - 48)%N else (n - 87)%N.

(** The inverse of [escape_char] on the front of a string: one
    character of the quoted text and what follows its escape.  A quote
    mark is not the start of any escape. *)
Definition unescape_char (s : string) : option (ascii * string) :=
  match s with
  | EmptyString => None
  | String c r =>
      if Ascii.eqb c dquote then None
      else if Ascii.eqb c backslash then
        match r with
        | EmptyString => None
        | String d r' =>
            if Ascii.eqb d dquote then Some (dquote, r')
            else if Ascii.eqb d backslash then Some (backslash, r')
            else if Ascii.eqb d "b" then Some (ascii_of_N 8, r')
            else if Ascii.eqb d "t" then Some (ascii_of_N 9, r')
            else if Ascii.eqb d "n" then Some (ascii_of_N 10, r')
            else if Ascii.eqb d "f" then Some (ascii_of_N 12, r')
            else if Ascii.eqb d "r" then Some (ascii_of_N 13, r')
            else match r' with
                 | String _ (String _ (String h (String l r''))) =>
                     Some (ascii_of_N (16 * unhex h + unhex l), r'')
                 | _ => None
                 end
        end
      else Some (c, r)
  end.

(** The values [JSON.stringify] writes as one token. *)
Definition scalar (v : jsval) : bool :=
  match v with
  | JNull | JBool _ | JNum _ | JStr _ => true
  | _ => false
  end.

(** ** Vocabulary of the statements *)

(** A string of white space only. *)
Fixpoint blank (s : string) : bool :=
  match s with
  | EmptyString => true
  | String c s' => is_space c && blank s'
  end.

Definition mem_nat (i : nat) (l : list nat) : bool := existsb (Nat.eqb i) l.

(** The settlement [ev] fulfils the element it names with the value
    [vs] has at that index. *)
Definition fulfils (vs : list ProcessedImage) (ev : Settlement) : Prop :=
  exists v, snd ev = Fulfilled v /\ nth_error vs (fst ev) = Some v.

(** The record of [Promise.all] once the elements [done] have been
    fulfilled with their values from [vs]. *)
Definition all_progress (vs : list ProcessedImage) (done : list nat)
           (st : AllState) : Prop :=
  (forall i, nth_error (values st) i
             = option_map (fun v => if mem_nat i done then Some v else None)
                          (nth_error vs i))
  /\ remaining st = (List.length vs - List.length done)%nat
  /\ (List.length done < List.length vs -> all_settled st = None)%nat
  /\ (List.length done = List.length vs -> all_settled st = Some (Fulfilled vs)).

(** No call pending, nothing settled. *)
Definition nothing_pending : ImageProcessor.Pending :=
  {| ImageProcessor.inflight := []; ImageProcessor.settled := [] |}.

(** The buffer a call of ImageProcessor.ts carries; its [batchProcess]
    takes buffers only, so that the second case does not arise. *)
Definition call_buffer (c : Call) : Buffer :=
  match call_input c with
  | InBuffer b => b
  | InString _ => []
  end.

(** What [batchProcess] of ImageProcessor.ts gets from one of its
    calls, made in the world [w] with the clock readings
    [clock (call_handle c)]: the call settles with what [process]
    yields there, and of [process] only the cache lookup at its head
    runs before the next call is made, the engine's work and
    [cache.set] coming after the first [await]. *)
Definition parallel_call (engine : Engine) (clock : nat -> Z * Z * Z)
           (c : Call) (w : World) : Outcome ProcessedImage * World :=
  let '(t_get, t_scan, t_stamp) := clock (call_handle c) in
  (fst (ImageProcessor.process engine t_get t_scan t_stamp (call_buffer c)
                               (call_options c) w),
   {| imageCache :=
        snd (get t_get (ImageProcessor.cacheKey (call_buffer c) (call_options c))
                 (imageCache w));
      engine_log := engine_log w |}).

(** What the queue gets from one of its calls: [process] runs to its
    end before the next call is started. *)
Definition queued_call (engine : Engine) (clock : nat -> Z * Z * Z)
           (c : Call) (w : World) : Outcome ProcessedImage * World :=
  let '(t_get, t_scan, t_stamp) := clock (call_handle c) in
  Queued.process engine t_get t_scan t_stamp (call_input c) (call_options c) w.

(** The settlements of calls made one after the other from the world
    [w], and the world they leave; [run] is one of the two above. *)
Fixpoint settlements (run : Call -> World -> Outcome ProcessedImage * World)
         (cs : list Call) (w : World) : list Settlement :=
  match cs with
  | [] => []
  | c :: cs' => (call_handle c, fst (run c w)) :: settlements run cs' (snd (run c w))
  end.

Definition world_after (run : Call -> World -> Outcome ProcessedImage * World)
           (cs : list Call) (w : World) : World :=
  fold_left (fun w c => snd (run c w)) cs w.

(** The scheduler is either processing exactly one item or idle with an
    empty queue. *)
Definition one_at_a_time (s : Queued.Scheduler) : Prop :=
  (Queued.isProcessing s = true /\ exists c, Queued.inflight s = [c])
  \/ (Queued.isProcessing s = false /\ Queued.inflight s = []
      /\ Queued.queue s = []).

(** The place of a step kind in the order of the specification (the
    circular mask, which the specification puts with the overlay, just
    after it). *)
Definition rank (k : StepKind) : nat :=
  match k with
  | KResize => 0 | KCrop => 1 | KBlur => 2 | KSharpen => 3 | KGrayscale => 4
  | KTint => 5 | KModulate => 6 | KLinear => 7 | KRotate => 8 | KFlip => 9
  | KFlop => 10 | KOverlay => 11 | KMask => 12 | KEncode => 13
  end.

Definition before (a b : StepKind) : Prop := (rank a < rank b)%nat.

(** The options that switch a step on in ImageProcessor.ts. *)
Definition enabled (options : jsobject) (k : StepKind) : bool :=
  let o := get_prop options in
  match k with
  | KResize => truthy (o "width") || truthy (o "height")
  | KCrop => truthy (o "crop")
  | KBlur => truthy (o "blur")
  | KSharpen => truthy (o "sharpen")
  | KGrayscale => truthy (o "grayscale")
  | KTint => truthy (o "tint")
  | KModulate => is_number (o "brightness") || is_number (o "saturation")
  | KLinear => is_number (o "contrast")
  | KRotate => truthy (o "rotate")
  | KFlip => truthy (o "flip")
  | KFlop => truthy (o "flop")
  | KOverlay => truthy (o "watermark")
  | KMask => false
  | KEncode => truthy (o "format")
  end.

(** The error at the bottom of a chain of [originalError]s. *)
Fixpoint root_cause (e : JsError) : JsError :=
  match e with
  | ImageProcessingError _ (Some e') _ => root_cause e'
  | _ => e
  end.

(** The operation an error is tagged with. *)
Definition operation_of (e : JsError) : option string :=
  match e with
  | ImageProcessingError _ _ op => op
  | PlainError _ => None
  end.

(** A character that cannot occur in the decimal text of an integer. *)
Definition is_digit (c : ascii) : bool :=
  let n := N_of_ascii c in ((48 <=? n) && (n <=? 57))%N.

Definition delimiter (c : ascii) : bool :=
  negb (is_digit c) && negb (Ascii.eqb c "-").

(** A run of [set]s, each at its own clock value. *)
Definition set_all (ops : list (Z * string * ProcessedImage)) (c : ImageCache)
  : ImageCache :=
  fold_left (fun c op => set (fst (fst op)) (fst (fst op)) (snd (fst op)) (snd op) c)
            ops c.

(** The horizontal extent of an SVG text of width [w] drawn at [x] with
    the given [text-anchor]. *)
Definition text_extent (anchor : string) (x w : Q) : Q * Q :=
  if String.eqb anchor "end" then ((x - w)%Q, x)
  else if String.eqb anchor "middle" then ((x - w / 2)%Q, (x + w / 2)%Q)
  else (x, (x + w)%Q).

(** A value of an optional numeric argument: a number or [undefined]. *)
Definition optional_number (v : jsval) : bool :=
  match v with
  | JNum _ | JUndefined => true
  | _ => false
  end.

(** Two option bags agree on every key but [k]. *)
Definition agree_except (k : string) (o1 o2 : jsobject) : Prop :=
  forall k', k' <> k -> get_prop o1 k' = get_prop o2 k'.

(** The settlement is a fulfilment. *)
Definition is_fulfilled {A : Type} (o : Outcome A) : bool :=
  match o with
  | Fulfilled _ => true
  | Rejected _ => false
  end.

Definition fulfilment (ev : Settlement) : bool := is_fulfilled (snd ev).

(** The order in which the queued [process] applies its steps, and the
    options that switch each of them on. *)
Definition queued_order : list StepKind :=
  [KResize; KBlur; KSharpen; KGrayscale; KRotate; KFlip; KFlop; KTint;
   KModulate; KLinear; KOverlay; KMask; KEncode].

Definition queued_rank (k : StepKind) : nat :=
  match k with
  | KResize => 0 | KBlur => 1 | KSharpen => 2 | KGrayscale => 3 | KRotate => 4
  | KFlip => 5 | KFlop => 6 | KTint => 7 | KModulate => 8 | KLinear => 9
  | KOverlay => 10 | KMask => 11 | KEncode => 12 | KCrop => 13
  end.

Definition queued_before (a b : StepKind) : Prop :=
  (queued_rank a < queued_rank b)%nat.

Definition queued_enabled (options : jsobject) (k : StepKind) : bool :=
  let o := get_prop options in
  match k with
  | KResize => truthy (o "width") || truthy (o "height")
  | KCrop => false
  | KBlur => truthy (o "blur")
  | KSharpen => truthy (o "sharpen")
  | KGrayscale => truthy (o "grayscale")
  | KRotate => truthy (o "rotate")
  | KFlip => truthy (o "flip")
  | KFlop => truthy (o "flop")
  | KTint => truthy (o "tint")
  | KModulate => truthy (o "brightness") || truthy (o "saturation")
  | KLinear => truthy (o "contrast") && is_number (o "contrast")
  | KOverlay => truthy (o "watermark")
  | KMask => truthy (o "radius")
  | KEncode => truthy (o "format")
  end.

(** The values on which [serialize] writes what [JSON.stringify]
    writes.  JavaScript enumerates the properties of an object in
    insertion order except for the keys that are array indices, which
    come first in numeric order: a key made of digits only is left
    out.  A number is an integer of the safe range, which
    [Number::toString] writes in decimal; NaN and the infinities, which
    [JSON.stringify] writes as [null], and the fractions are not
    values of [jsval].  The keys of an object are pairwise distinct. *)
Fixpoint digits_only (s : string) : bool :=
  match s with
  | EmptyString => true
  | String c s' => is_digit c && digits_only s'
  end.

Definition insertion_ordered (k : string) : bool :=
  match k with
  | EmptyString => true
  | String _ _ => negb (digits_only k)
  end.

Definition safe_integer (n : Z) : bool := Z.abs n <=? 9007199254740991.

Fixpoint distinct (ks : list string) : bool :=
  match ks with
  | [] => true
  | k :: ks' => negb (existsb (String.eqb k) ks') && distinct ks'
  end.

Fixpoint plain (v : jsval) : bool :=
  match v with
  | JNum n => safe_integer n
  | JArr xs => forallb plain xs
  | JObj fs =>
      distinct (map fst fs)
      && forallb insertion_ordered (map fst fs)
      && (fix all (l : list (string * jsval)) : bool :=
            match l with
            | [] => true
            | (_, x) :: l' => plain x && all l'
            end) fs
  | _ => true
  end.

(** ** Sample data *)

Definition one_byte : Buffer := [Byte.x4d].
Definition two_bytes : Buffer := [Byte.x4d; Byte.x61].
Definition three_bytes : Buffer := [Byte.x4d; Byte.x61; Byte.x6e].

Definition png_image (w h : Z) : ProcessedImage :=
  {| img_data := [Byte.x89; Byte.x50; Byte.x4e; Byte.x47];
     img_format := "png";
     img_width := w;
     img_height := h;
     img_size := 4;
     img_metadata := {| hasAlpha := true; isAnimated := false; pages := None;
                        compression := None; colorSpace := Some "srgb" |} |}.

(** The two option bags of the specification's example,
    [{width: 800, format: 'webp'}] and [{format: 'webp', width: 800}],
    and further bags. *)
Definition width_then_format : jsobject :=
  [("width", JNum 800); ("format", JStr "webp")].

Definition format_then_width : jsobject :=
  [("format", JStr "webp"); ("width", JNum 800)].

Definition rotate_and_tint : jsobject :=
  [("rotate", JNum 90); ("tint", JStr "red")].

Definition blur_tint_rotate_png : jsobject :=
  [("format", JStr "png"); ("rotate", JNum 90); ("tint", JStr "red");
   ("blur", JNum 2)].

Definition webp_only : jsobject := [("format", JStr "webp")].

Definition webp_quality (q : Z) : jsobject :=
  [("format", JStr "webp"); ("quality", JNum q)].

(** The first 24 bytes of a PNG file of 100 by 100 pixels: signature,
    length and type of the header chunk, width, height. *)
Definition png_100x100_head : Buffer :=
  [Byte.x89; Byte.x50; Byte.x4e; Byte.x47; Byte.x0d; Byte.x0a; Byte.x1a; Byte.x0a;
   Byte.x00; Byte.x00; Byte.x00; Byte.x0d; Byte.x49; Byte.x48; Byte.x44; Byte.x52;
   Byte.x00; Byte.x00; Byte.x00; Byte.x64; Byte.x00; Byte.x00; Byte.x00; Byte.x64].

(** Two calls of [process], as [batchProcess] makes them. *)
Definition call_a : Call :=
  {| call_input := InBuffer one_byte; call_options := []; call_handle := 0 |}.
Definition call_b : Call :=
  {| call_input := InBuffer two_bytes; call_options := []; call_handle := 1 |}.

(** An engine that rejects whatever it is given, and a world in which
    nothing has happened yet. *)
Definition rejecting_engine : Engine :=
  fun _ _ => Rejected (PlainError "Input Buffer is empty").

Definition fresh_world : World :=
  {| imageCache := new_ImageCache None None; engine_log := [] |}.

(** An engine whose image is as wide and as high as the input buffer is
    long, and one that besides cannot read buffers of two bytes. *)
Definition sizing_engine : Engine :=
  fun input _ =>
    match input with
    | InBuffer b =>
        Fulfilled (png_image (Z.of_nat (List.length b)) (Z.of_nat (List.length b)))
    | InString _ => Rejected (PlainError "Input file is missing")
    end.

Definition picky_engine : Engine :=
  fun input pipeline =>
    match input with
    | InBuffer [_; _] =>
        Rejected (PlainError "Input buffer contains unsupported image format")
    | _ => sizing_engine input pipeline
    end.

Definition at_noon : nat -> Z * Z * Z := fun _ => (43200000, 43200000, 43200000).

(** Metadata with no field at all, and metadata with a width and no
    height. *)
Definition no_metadata : Metadata :=
  {| md_size := None; md_format := None; md_width := None; md_height := None;
     md_hasAlpha := None; md_space := None; md_channels := None;
     md_compression := None |}.

Definition width_without_height : Metadata :=
  {| md_size := Some 1024; md_format := Some "png"; md_width := Some 800;
     md_height := None; md_hasAlpha := Some true; md_space := Some "srgb";
     md_channels := Some 4; md_compression := None |}.

(** ** Facts about strings *)

Lemma str_app_assoc (a b c : string) : (a ++ b) ++ c = a ++ (b ++ c).
Proof.
  induction a as [|x a IH]; simpl; [reflexivity | now rewrite IH].
Qed.

Lemma str_app_nil_r (a : string) : a ++ EmptyString = a.
Proof.
  induction a as [|x a IH]; simpl; [reflexivity | now rewrite IH].
Qed.

Lemma str_app_inv_head (a b c : string) : a ++ b = a ++ c -> b = c.
Proof.
  induction a as [|x a IH]; simpl; intros H; [exact H|].
  injection H as H. now apply IH.
Qed.

Lemma list_ascii_app (a b : string) :
  list_ascii_of_string (a ++ b)
  = (list_ascii_of_string a ++ list_ascii_of_string b)%list.
Proof.
  induction a as [|x a IH]; simpl; [reflexivity | now rewrite IH].
Qed.

Lemma list_ascii_inj (a b : string) :
  list_ascii_of_string a = list_ascii_of_string b -> a = b.
Proof.
  intros H.
  rewrite <- (string_of_list_ascii_of_string a),
          <- (string_of_list_ascii_of_string b).
  now rewrite H.
Qed.

Lemma str_app_inv_tail (a b c : string) : a ++ c = b ++ c -> a = b.
Proof.
  intros H. apply list_ascii_inj.
  apply (f_equal list_ascii_of_string) in H.
  rewrite !list_ascii_app in H.
  now apply app_inv_tail in H.
Qed.

(** ** Facts about [JSON.stringify] *)

Lemma unescape_escape_char (c : ascii) (r : string) :
  unescape_char (escape_char c ++ r) = Some (c, r).
Proof.
  destruct c as [[] [] [] [] [] [] [] []]; reflexivity.
Qed.

Lemma escape_closed_inj (s1 s2 r1 r2 : string) :
  escape s1 ++ String dquote r1 = escape s2 ++ String dquote r2 ->
  s1 = s2 /\ r1 = r2.
Proof.
  revert s2. induction s1 as [|c1 s1 IH]; intros [|c2 s2] H; simpl in H.
  - injection H as H. now split.
  - apply (f_equal unescape_char) in H.
    rewrite str_app_assoc, unescape_escape_char in H. discriminate H.
  - apply (f_equal unescape_char) in H.
    rewrite str_app_assoc, unescape_escape_char in H. discriminate H.
  - rewrite !str_app_assoc in H.
    apply (f_equal unescape_char) in H.
    rewrite !unescape_escape_char in H.
    injection H as Hc Hr. subst c2.
    destruct (IH _ Hr) as [-> ->]. now split.
Qed.

(** No quoted string is a proper prefix of another: what follows the
    closing mark is determined too. *)
Lemma quote_prefix_free (s1 s2 r1 r2 : string) :
  quote s1 ++ r1 = quote s2 ++ r2 -> s1 = s2 /\ r1 = r2.
Proof.
  unfold quote. simpl. intros H. injection H as H.
  rewrite !str_app_assoc in H. simpl in H.
  now apply escape_closed_inj in H.
Qed.

Lemma quote_inj (s1 s2 : string) : quote s1 = quote s2 -> s1 = s2.
Proof.
  intros H.
  assert (H' : quote s1 ++ EmptyString = quote s2 ++ EmptyString)
    by now rewrite H.
  now apply quote_prefix_free in H'.
Qed.

Lemma show_Z_inj (n m : Z) : show_Z n = show_Z m -> n = m.
Proof.
  unfold show_Z. intros H.
  apply (f_equal NilEmpty.int_of_string) in H.
  rewrite !NilEmpty.isi in H. injection H as H.
  now apply DecimalZ.to_int_inj.
Qed.

Lemma show_Z_not_quote (n : Z) (s : string) : show_Z n <> quote s.
Proof.
  unfold show_Z. intros H.
  apply (f_equal NilEmpty.int_of_string) in H.
  rewrite NilEmpty.isi in H. unfold quote in H. simpl in H.
  destruct (NilEmpty.uint_of_string _); discriminate H.
Qed.

Lemma show_Z_not_word (n : Z) (w : string) :
  NilEmpty.int_of_string w = None -> show_Z n <> w.
Proof.
  unfold show_Z. intros Hw H.
  apply (f_equal NilEmpty.int_of_string) in H.
  rewrite NilEmpty.isi, Hw in H. discriminate H.
Qed.

Lemma show_Z_not_keyword (n : Z) :
  show_Z n <> "null" /\ show_Z n <> "true" /\ show_Z n <> "false".
Proof.
  repeat split; apply show_Z_not_word; reflexivity.
Qed.

Lemma serialize_scalar_inj (v1 v2 : jsval) :
  scalar v1 = true -> scalar v2 = true ->
  serialize v1 = serialize v2 -> v1 = v2.
Proof.
  destruct v1 as [| |[]|n1|s1| |], v2 as [| |[]|n2|s2| |];
    simpl; try discriminate; intros _ _ H; try reflexivity;
    injection H as H.
  all: try (destruct (show_Z_not_keyword n1) as (? & ? & ?); congruence).
  all: try (destruct (show_Z_not_keyword n2) as (? & ? & ?); congruence).
  all: try (unfold quote in H; discriminate H).
  - apply show_Z_inj in H. now subst.
  - exfalso. now apply show_Z_not_quote in H.
  - exfalso. symmetry in H. now apply show_Z_not_quote in H.
  - apply escape_closed_inj in H. destruct H as [-> _]. reflexivity.
Qed.

Lemma serialize_object (fs : jsobject) :
  serialize (JObj fs) = Some ("{" ++ String.concat "," (members fs) ++ "}").
Proof. reflexivity. Qed.

Lemma JSON_stringify_object (fs : jsobject) :
  JSON_stringify (JObj fs) = "{" ++ String.concat "," (members fs) ++ "}".
Proof.
  unfold JSON_stringify. now rewrite serialize_object.
Qed.

Lemma members_app (l1 l2 : jsobject) :
  members (l1 ++ l2)%list = (members l1 ++ members l2)%list.
Proof.
  induction l1 as [|[k x] l1 IH]; simpl; [reflexivity|].
  destruct (serialize x); simpl; now rewrite IH.
Qed.

(** A comma-separated list split at one of its elements: what comes
    before the element depends on the elements before it only, what
    comes after on those after it. *)
Lemma concat_split (a : list string) (x : string) (b : list string) :
  String.concat "," (a ++ x :: b)%list
  = String.concat EmptyString (map (fun s => s ++ ",") a) ++ x
    ++ match b with [] => EmptyString | _ :: _ => "," ++ String.concat "," b end.
Proof.
  induction a as [|y a IH].
  - simpl. destruct b; simpl; [now rewrite str_app_nil_r | reflexivity].
  - destruct a as [|z a].
    + simpl in *. rewrite IH. now rewrite !str_app_assoc.
    + cbn [app] in *.
      change (String.concat "," (y :: z :: (a ++ x :: b)%list))
        with (y ++ "," ++ String.concat "," (z :: (a ++ x :: b)%list)).
      rewrite IH. cbn [map].
      change (String.concat EmptyString
                ((y ++ ",") :: (z ++ ",") :: map (fun s => s ++ ",") a))
        with ((y ++ ",") ++ EmptyString
              ++ String.concat EmptyString ((z ++ ",") :: map (fun s => s ++ ",") a)).
      cbn [map]. rewrite !str_app_assoc. reflexivity.
Qed.

Lemma scalar_serialize (v : jsval) :
  scalar v = true -> exists s, serialize v = Some s.
Proof.
  destruct v as [| |[]| | | |]; simpl; try discriminate; eauto.
Qed.

Lemma defined_serialize (v : jsval) :
  v <> JUndefined -> exists s, serialize v = Some s.
Proof.
  destruct v as [| |[]| | | |]; simpl; try congruence; eauto.
Qed.

(** The text of an object, split at one of its written properties. *)
Lemma stringify_field (pre post : jsobject) (k : string) (v : jsval) (s : string) :
  serialize v = Some s ->
  JSON_stringify (JObj (pre ++ (k, v) :: post)%list)
  = ("{" ++ String.concat EmptyString (map (fun m => m ++ ",") (members pre)))
    ++ (quote k ++ ":" ++ s)
    ++ (match members post with
        | [] => EmptyString
        | _ :: _ => "," ++ String.concat "," (members post)
        end ++ "}").
Proof.
  intros Hs. rewrite JSON_stringify_object, members_app. cbn [members].
  rewrite Hs, concat_split. rewrite !str_app_assoc. reflexivity.
Qed.

(** Inside any fixed context, the text of the options tells apart two
    values of one field. *)
Lemma stringify_value_differs (P S : string) (pre post : jsobject)
      (k : string) (v v' : jsval) :
  scalar v = true -> scalar v' = true -> v <> v' ->
  P ++ JSON_stringify (JObj (pre ++ (k, v) :: post)%list) ++ S
  <> P ++ JSON_stringify (JObj (pre ++ (k, v') :: post)%list) ++ S.
Proof.
  intros Hv Hv' Hne H.
  destruct (scalar_serialize v Hv) as [s Hs].
  destruct (scalar_serialize v' Hv') as [s' Hs'].
  apply str_app_inv_head, str_app_inv_tail in H.
  rewrite (stringify_field _ _ _ _ _ Hs), (stringify_field _ _ _ _ _ Hs') in H.
  apply str_app_inv_head in H.
  rewrite !str_app_assoc in H.
  apply str_app_inv_head in H. simpl in H. injection H as H.
  apply str_app_inv_tail in H.
  apply Hne, serialize_scalar_inj; congruence.
Qed.

(** ... and the order of two neighbouring fields. *)
Lemma stringify_order_differs (P S : string) (pre post : jsobject)
      (k k' : string) (v v' : jsval) :
  k <> k' -> v <> JUndefined -> v' <> JUndefined ->
  P ++ JSON_stringify (JObj (pre ++ (k, v) :: (k', v') :: post)%list) ++ S
  <> P ++ JSON_stringify (JObj (pre ++ (k', v') :: (k, v) :: post)%list) ++ S.
Proof.
  intros Hk Hv Hv' H.
  destruct (defined_serialize v Hv) as [s Hs].
  destruct (defined_serialize v' Hv') as [s' Hs'].
  apply str_app_inv_head, str_app_inv_tail in H.
  rewrite (stringify_field _ _ _ _ _ Hs), (stringify_field _ _ _ _ _ Hs') in H.
  apply str_app_inv_head in H.
  rewrite !str_app_assoc in H.
  apply quote_prefix_free in H. now destruct H.
Qed.

Lemma ImageProcessor_cacheKey_split (input : Buffer) :
  exists P S, forall o,
    ImageProcessor.cacheKey input o = P ++ JSON_stringify (JObj o) ++ S.
Proof.
  exists (("{" ++ String.concat EmptyString
                   (map (fun m => m ++ ",") (members [("input", Buffer_toJSON input)])))
          ++ quote "options" ++ ":"), "}".
  intros o. unfold ImageProcessor.cacheKey.
  change (JObj [("input", Buffer_toJSON input); ("options", JObj o)])
    with (JObj ([("input", Buffer_toJSON input)] ++ ("options", JObj o) :: [])%list).
  rewrite (stringify_field [("input", Buffer_toJSON input)] [] "options"
             (JObj o) (JSON_stringify (JObj o))) by reflexivity.
  cbn [members]. rewrite !str_app_assoc. reflexivity.
Qed.

Lemma Queued_getCacheKey_split (input : Input) :
  exists P S, forall o,
    Queued.getCacheKey input o = P ++ JSON_stringify (JObj o) ++ S.
Proof.
  exists (match input with
          | InString s => s
          | InBuffer b => String.substring 0 32 (to_base64 b)
          end ++ "-"), EmptyString.
  intros o. unfold Queued.getCacheKey.
  now rewrite str_app_assoc, str_app_nil_r.
Qed.

Lemma distinct_neighbours (pre post : list string) (k k' : string) :
  distinct (pre ++ k :: k' :: post) = true -> k <> k'.
Proof.
  induction pre as [|x pre IH]; simpl.
  - intros H Heq. subst k'. rewrite String.eqb_refl in H. discriminate H.
  - intros H. apply andb_prop in H as [_ H]. now apply IH.
Qed.

Lemma plain_neighbours (pre post : jsobject) (k k' : string) (v v' : jsval) :
  plain (JObj (pre ++ (k, v) :: (k', v') :: post)) = true -> k <> k'.
Proof.
  intros H. cbn [plain] in H.
  apply andb_prop in H as [H _]. apply andb_prop in H as [H _].
  rewrite map_app in H. now apply distinct_neighbours in H.
Qed.

(** C1, as amended.  The cache key writes the option fields in
    insertion order and is therefore sensitive to it.  For option bags
    that are [plain] (distinct field names none of which is an array
    index, integers of the safe range): exchanging two neighbouring
    fields whose values are not [undefined] changes the key of
    [getCacheKey] and the key [process] of ImageProcessor.ts builds;
    and two option bags that differ in the value of one field (an
    integer, a string, a boolean or null) have different keys. *)
Theorem cache_key_separates (input : Input) (buf : Buffer)
        (pre post : jsobject) (k k' : string) (v v' : jsval) :
  (plain (JObj (pre ++ (k, v) :: (k', v') :: post)) = true ->
   v <> JUndefined -> v' <> JUndefined ->
   Queued.getCacheKey input (pre ++ (k, v) :: (k', v') :: post)%list
   <> Queued.getCacheKey input (pre ++ (k', v') :: (k, v) :: post)%list
   /\ ImageProcessor.cacheKey buf (pre ++ (k, v) :: (k', v') :: post)%list
      <> ImageProcessor.cacheKey buf (pre ++ (k', v') :: (k, v) :: post)%list)
  /\
  (plain (JObj (pre ++ (k, v) :: post)) = true ->
   plain (JObj (pre ++ (k, v') :: post)) = true ->
   scalar v = true -> scalar v' = true -> v <> v' ->
   Queued.getCacheKey input (pre ++ (k, v) :: post)%list
   <> Queued.getCacheKey input (pre ++ (k, v') :: post)%list
   /\ ImageProcessor.cacheKey buf (pre ++ (k, v) :: post)%list
      <> ImageProcessor.cacheKey buf (pre ++ (k, v') :: post)%list).
Proof.
  destruct (ImageProcessor_cacheKey_split buf) as (P & S & HPS).
  destruct (Queued_getCacheKey_split input) as (P' & S' & HPS').
  rewrite !HPS, !HPS'. split.
  - intros Hplain Hv Hv'. apply plain_neighbours in Hplain.
    split; now apply stringify_order_differs.
  - intros _ _ Hv Hv' Hne. split; now apply stringify_value_differs.
Qed.

Lemma cache_key_separates_witness :
  Queued.getCacheKey (InBuffer one_byte) width_then_format
  <> Queued.getCacheKey (InBuffer one_byte) format_then_width
  /\ ImageProcessor.cacheKey one_byte [("width", JNum 800)]
     <> ImageProcessor.cacheKey one_byte [("width", JNum 801)].
Proof.
  split.
  - apply (cache_key_separates (InBuffer one_byte) one_byte [] []
             "width" "format" (JNum 800) (JStr "webp"));
      [ reflexivity | intros H; discriminate H | intros H; discriminate H ].
  - apply (cache_key_separates (InBuffer one_byte) one_byte [] []
             "width" "width" (JNum 800) (JNum 801));
      [ reflexivity | reflexivity | reflexivity | reflexivity
      | intros H; discriminate H ].
Defined.

(** C1, as stated, fails: the two bags of the specification's example
    hold the same fields with the same values, and both key builders
    give them different keys. *)
Lemma cache_key_order_counterexample :
  Permutation width_then_format format_then_width
  /\ Queued.getCacheKey (InBuffer one_byte) width_then_format
     <> Queued.getCacheKey (InBuffer one_byte) format_then_width
  /\ Queued.getCacheKey (InString "photo.png") width_then_format
     <> Queued.getCacheKey (InString "photo.png") format_then_width
  /\ ImageProcessor.cacheKey one_byte width_then_format
     <> ImageProcessor.cacheKey one_byte format_then_width.
Proof.
  split; [apply perm_swap|].
  repeat split; apply String.eqb_neq; vm_compute; reflexivity.
Qed.

(** ** Facts about the cache *)

Lemma map_get_set_same (k : string) (e : CacheEntry) (m : JsMap) :
  map_get k (map_set k e m) = Some e.
Proof.
  induction m as [|[k' e'] m IH]; simpl.
  - now rewrite String.eqb_refl.
  - destruct (String.eqb k' k) eqn:E; simpl; rewrite E; [reflexivity | exact IH].
Qed.

Lemma map_get_set_other (k k' : string) (e : CacheEntry) (m : JsMap) :
  k' <> k -> map_get k (map_set k' e m) = map_get k m.
Proof.
  intros Hne. induction m as [|[k0 e0] m IH]; simpl.
  - apply String.eqb_neq in Hne. now rewrite Hne.
  - destruct (String.eqb k0 k') eqn:E; simpl.
    + apply String.eqb_eq in E. subst k0.
      apply String.eqb_neq in Hne. now rewrite Hne.
    + now rewrite IH.
Qed.

Lemma map_get_none_not_in (k : string) (m : JsMap) :
  map_get k m = None <-> ~ In k (map fst m).
Proof.
  induction m as [|[k' e'] m IH]; simpl.
  - tauto.
  - destruct (String.eqb_spec k' k) as [->|Hne].
    + split; [discriminate | intros H; exfalso; apply H; now left].
    + rewrite IH. tauto.
Qed.

Lemma map_get_delete_same (k : string) (m : JsMap) :
  NoDup (map fst m) -> map_get k (map_delete k m) = None.
Proof.
  induction m as [|[k' e'] m IH]; simpl; intros Hnd; [reflexivity|].
  inversion Hnd as [|? ? Hnotin Hnd']; subst.
  destruct (String.eqb_spec k' k) as [->|Hne].
  - now apply map_get_none_not_in.
  - simpl. destruct (String.eqb_spec k' k); [contradiction | now apply IH].
Qed.

Lemma map_get_delete_other (k k' : string) (m : JsMap) :
  k' <> k -> map_get k (map_delete k' m) = map_get k m.
Proof.
  intros Hne. induction m as [|[k0 e0] m IH]; simpl; [reflexivity|].
  destruct (String.eqb_spec k0 k') as [->|Hne'].
  - destruct (String.eqb_spec k' k); [contradiction | reflexivity].
  - simpl. now rewrite IH.
Qed.

Lemma map_delete_keys_incl (k x : string) (m : JsMap) :
  In x (map fst (map_delete k m)) -> In x (map fst m).
Proof.
  induction m as [|[k0 e0] m IH]; simpl; [tauto|].
  destruct (String.eqb k0 k); simpl; tauto.
Qed.

Lemma map_delete_NoDup (k : string) (m : JsMap) :
  NoDup (map fst m) -> NoDup (map fst (map_delete k m)).
Proof.
  induction m as [|[k0 e0] m IH]; simpl; intros Hnd; [constructor|].
  inversion Hnd as [|? ? Hnotin Hnd']; subst.
  destruct (String.eqb k0 k); [exact Hnd'|].
  simpl. constructor; [|now apply IH].
  intros Hin. apply Hnotin. eapply map_delete_keys_incl, Hin.
Qed.

Lemma map_set_keys (k x : string) (e : CacheEntry) (m : JsMap) :
  In x (map fst (map_set k e m)) -> x = k \/ In x (map fst m).
Proof.
  induction m as [|[k0 e0] m IH]; simpl.
  - intros [<-|[]]. now left.
  - destruct (String.eqb k0 k); simpl; intros [<-|Hin]; auto.
    destruct (IH Hin); auto.
Qed.

Lemma map_set_NoDup (k : string) (e : CacheEntry) (m : JsMap) :
  NoDup (map fst m) -> NoDup (map fst (map_set k e m)).
Proof.
  induction m as [|[k0 e0] m IH]; simpl; intros Hnd.
  - constructor; [intros [] | constructor].
  - inversion Hnd as [|? ? Hnotin Hnd']; subst.
    destruct (String.eqb_spec k0 k) as [->|Hne]; simpl.
    + now constructor.
    + constructor; [|now apply IH].
      intros Hin. apply map_set_keys in Hin. destruct Hin; auto.
Qed.

Lemma removeOldestEntry_NoDup (now : Z) (c : ImageCache) :
  NoDup (map fst (cache c)) -> NoDup (map fst (cache (removeOldestEntry now c))).
Proof.
  intros Hnd. unfold removeOldestEntry.
  destruct (fst (oldest_scan (cache c) None now)) as [key|]; [|exact Hnd].
  destruct (truthy (JStr key)); [|exact Hnd].
  simpl. now apply map_delete_NoDup.
Qed.

(** [set] keeps the keys of the map pairwise distinct. *)
Lemma set_NoDup (t_scan t_stamp : Z) (key : string) (value : ProcessedImage)
      (c : ImageCache) :
  NoDup (map fst (cache c)) -> NoDup (map fst (cache (set t_scan t_stamp key value c))).
Proof.
  intros Hnd. unfold set. simpl. apply map_set_NoDup.
  destruct (maxSize c <=? map_size (cache c)); [|exact Hnd].
  now apply removeOldestEntry_NoDup.
Qed.

Lemma removeOldestEntry_maxAge (now : Z) (c : ImageCache) :
  maxAge (removeOldestEntry now c) = maxAge c.
Proof.
  unfold removeOldestEntry.
  destruct (fst (oldest_scan (cache c) None now)) as [key|]; [|reflexivity].
  now destruct (truthy (JStr key)).
Qed.

Lemma set_maxAge (t_scan t_stamp : Z) (key : string) (value : ProcessedImage)
      (c : ImageCache) :
  maxAge (set t_scan t_stamp key value c) = maxAge c.
Proof.
  unfold set. simpl.
  destruct (maxSize c <=? map_size (cache c)); [|reflexivity].
  apply removeOldestEntry_maxAge.
Qed.

Lemma get_entry (now : Z) (key : string) (c : ImageCache) (e : CacheEntry) :
  map_get key (cache c) = Some e ->
  get now key c
  = if maxAge c <? now - timestamp e
    then (None, with_cache c (map_delete key (cache c)))
    else (Some (result e), c).
Proof.
  intros H. unfold get. now rewrite H.
Qed.

(** The TTL rule for any entry of the store, however it got there. *)
Lemma get_entry_ttl (c : ImageCache) (key : string) (e : CacheEntry) (now : Z) :
  NoDup (map fst (cache c)) ->
  map_get key (cache c) = Some e ->
  (maxAge c < now - timestamp e ->
   fst (get now key c) = None
   /\ map_get key (cache (snd (get now key c))) = None)
  /\ (now - timestamp e <= maxAge c -> get now key c = (Some (result e), c))
  /\ (forall other, other <> key ->
      map_get key (cache (snd (get now other c))) = Some e).
Proof.
  intros Hnd Hget. split; [|split].
  - intros Hlate. rewrite (get_entry _ _ _ _ Hget).
    apply Z.ltb_lt in Hlate. rewrite Hlate. simpl.
    split; [reflexivity | now apply map_get_delete_same].
  - intros Hearly. rewrite (get_entry _ _ _ _ Hget).
    apply Z.ltb_ge in Hearly. now rewrite Hearly.
  - intros other Hne. unfold get.
    destruct (map_get other (cache c)) as [e'|]; [|exact Hget].
    destruct (maxAge c <? now - timestamp e'); [|exact Hget].
    simpl. now rewrite map_get_delete_other.
Qed.

(** C3.  An entry stored by [set] at time [t0] in a cache with TTL
    [maxAge]: the store holds it with timestamp [t0]; a [get] of its
    key at any time [now] with [now - t0 > maxAge] misses and deletes
    the entry; a [get] at a time with [now - t0 <= maxAge] returns the
    stored result and leaves the cache as it was.  Expiry is lazy: a
    [get] of any other key, at whatever time, leaves the entry in the
    store. *)
Theorem get_ttl_expiry (c : ImageCache) (key : string) (value : ProcessedImage)
        (t_scan t0 now : Z) :
  NoDup (map fst (cache c)) ->
  let c' := set t_scan t0 key value c in
  map_get key (cache c') = Some {| timestamp := t0; result := value |}
  /\ (maxAge c < now - t0 ->
      fst (get now key c') = None
      /\ map_get key (cache (snd (get now key c'))) = None)
  /\ (now - t0 <= maxAge c -> get now key c' = (Some value, c'))
  /\ (forall other, other <> key ->
      map_get key (cache (snd (get now other c')))
      = Some {| timestamp := t0; result := value |}).
Proof.
  intros Hnd c'.
  assert (Hget : map_get key (cache c')
                 = Some {| timestamp := t0; result := value |})
    by (unfold c', set; simpl; apply map_get_set_same).
  assert (Hage : maxAge c' = maxAge c) by apply set_maxAge.
  assert (Hnd' : NoDup (map fst (cache c'))) by now apply set_NoDup.
  destruct (get_entry_ttl c' key _ now Hnd' Hget) as (Hlate & Hearly & Hlazy).
  rewrite Hage in Hlate, Hearly. simpl in Hlate, Hearly.
  repeat split; auto; now apply Hlate.
Qed.

Lemma get_ttl_expiry_witness :
  fst (get 3601001 "k"
         (set 1000 1000 "k" (png_image 10 10) (new_ImageCache None None)))
  = None
  /\ get 3601000 "k"
         (set 1000 1000 "k" (png_image 10 10) (new_ImageCache None None))
     = (Some (png_image 10 10),
        set 1000 1000 "k" (png_image 10 10) (new_ImageCache None None)).
Proof.
  split.
  - apply (get_ttl_expiry (new_ImageCache None None) "k" (png_image 10 10)
             1000 1000 3601001 (NoDup_nil string)).
    simpl. lia.
  - apply (get_ttl_expiry (new_ImageCache None None) "k" (png_image 10 10)
             1000 1000 3601000 (NoDup_nil string)).
    simpl. lia.
Defined.

(** The scan of [removeOldestEntry] returns a lower bound of the
    timestamps that is at most the starting time; its key is the
    starting key when no entry is older than the starting time, and
    otherwise the key of an entry that carries the bound. *)
Lemma oldest_scan_spec (m : JsMap) (k0 : option string) (t0 : Z) :
  let r := oldest_scan m k0 t0 in
  snd r <= t0
  /\ (forall k e, In (k, e) m -> snd r <= timestamp e)
  /\ ((r = (k0, t0) /\ forall k e, In (k, e) m -> t0 <= timestamp e)
      \/ (exists k e, In (k, e) m /\ fst r = Some k /\ snd r = timestamp e
                      /\ timestamp e < t0)).
Proof.
  revert k0 t0. induction m as [|[k1 e1] m IH]; intros k0 t0; simpl.
  - split; [lia|]. split; [tauto|]. left. split; [reflexivity | tauto].
  - destruct (Z.ltb_spec (timestamp e1) t0) as [Hlt|Hge].
    + destruct (IH (Some k1) (timestamp e1)) as (Hle & Hall & Hcase).
      split; [lia|]. split.
      * intros k e [Heq|Hin]; [injection Heq as <- <-; exact Hle | eauto].
      * right. destruct Hcase as [[Hr Hmin]|(k & e & Hin & Hk & Ht & Hlt')].
        -- exists k1, e1. rewrite Hr. simpl. auto.
        -- exists k, e. repeat split; auto. lia.
    + destruct (IH k0 t0) as (Hle & Hall & Hcase).
      split; [lia|]. split.
      * intros k e [Heq|Hin]; [injection Heq as <- <-; lia | eauto].
      * destruct Hcase as [[Hr Hmin]|(k & e & Hin & Hk & Ht & Hlt')].
        -- left. split; [exact Hr|].
           intros k e [Heq|Hin]; [injection Heq as <- <-; exact Hge | eauto].
        -- right. exists k, e. repeat split; auto.
Qed.

Lemma map_get_in (k : string) (e : CacheEntry) (m : JsMap) :
  NoDup (map fst m) -> In (k, e) m -> map_get k m = Some e.
Proof.
  induction m as [|[k' e'] m IH]; simpl; intros Hnd; [tauto|].
  inversion Hnd as [|? ? Hnotin Hnd']; subst.
  intros [Heq|Hin].
  - injection Heq as -> ->. now rewrite String.eqb_refl.
  - destruct (String.eqb_spec k' k) as [->|Hne]; [|now apply IH].
    exfalso. apply Hnotin. now apply (in_map fst) in Hin.
Qed.

Lemma map_delete_length (k : string) (m : JsMap) :
  In k (map fst m) -> S (List.length (map_delete k m)) = List.length m.
Proof.
  induction m as [|[k' e'] m IH]; simpl; [tauto|].
  destruct (String.eqb_spec k' k) as [->|Hne]; [reflexivity|].
  intros [Heq|Hin]; [contradiction|]. simpl. now rewrite IH.
Qed.

Lemma map_set_length_new (k : string) (e : CacheEntry) (m : JsMap) :
  map_get k m = None -> List.length (map_set k e m) = S (List.length m).
Proof.
  induction m as [|[k' e'] m IH]; simpl; [reflexivity|].
  destruct (String.eqb k' k); [discriminate|].
  intros H. simpl. now rewrite IH.
Qed.

(** What C2 describes does happen once the clock has moved past some
    stored timestamp: a [set] of a new key into a full cache removes the
    entry with the smallest timestamp and leaves the size unchanged. *)
Lemma set_evicts_oldest_after_tick (t_scan t_stamp : Z) (key : string)
      (value : ProcessedImage) (c : ImageCache) :
  NoDup (map fst (cache c)) ->
  (forall k, In k (map fst (cache c)) -> k <> EmptyString) ->
  (exists k e, In (k, e) (cache c) /\ timestamp e < t_scan) ->
  maxSize c <= map_size (cache c) ->
  map_get key (cache c) = None ->
  exists k e,
    map_get k (cache c) = Some e
    /\ (forall k' e', In (k', e') (cache c) -> timestamp e <= timestamp e')
    /\ map_get k (cache (set t_scan t_stamp key value c)) = None
    /\ map_size (cache (set t_scan t_stamp key value c)) = map_size (cache c).
Proof.
  intros Hnd Hkeys (k1 & e1 & Hin1 & Hold) Hfull Hnew.
  destruct (oldest_scan_spec (cache c) None t_scan) as (_ & Hmin & Hcase).
  destruct Hcase as [[_ Hall]|(k & e & Hin & Hk & Ht & _)].
  - specialize (Hall _ _ Hin1). lia.
  - exists k, e.
    assert (Hkin : In k (map fst (cache c))) by now apply (in_map fst) in Hin.
    assert (Hne : key <> k).
    { intros ->. apply map_get_none_not_in in Hnew. contradiction. }
    assert (Hrm : removeOldestEntry t_scan c
                  = with_cache c (map_delete k (cache c))).
    { unfold removeOldestEntry. rewrite Hk. simpl.
      destruct (String.eqb_spec k EmptyString) as [->|_]; [|reflexivity].
      exfalso. now apply (Hkeys EmptyString). }
    split; [now apply map_get_in|].
    split; [intros k' e' Hin'; rewrite <- Ht; eauto|].
    unfold set. apply Z.leb_le in Hfull. rewrite Hfull, Hrm. simpl. split.
    + rewrite map_get_set_other by exact Hne.
      now apply map_get_delete_same.
    + unfold map_size. rewrite map_set_length_new.
      * now rewrite map_delete_length.
      * rewrite map_get_delete_other by congruence. exact Hnew.
Qed.

(** ... and does not happen before: while no stored timestamp is
    older than the clock, [removeOldestEntry] removes nothing and a
    [set] of a new key makes the cache grow, whatever [maxSize] is. *)
Lemma removeOldestEntry_within_tick (now : Z) (c : ImageCache) :
  (forall k e, In (k, e) (cache c) -> now <= timestamp e) ->
  removeOldestEntry now c = c.
Proof.
  intros Hall. unfold removeOldestEntry.
  destruct (oldest_scan_spec (cache c) None now) as (_ & _ & Hcase).
  destruct Hcase as [[Hr _]|(k & e & Hin & _ & _ & Hlt)].
  - now rewrite Hr.
  - specialize (Hall _ _ Hin). lia.
Qed.

Lemma set_grows_within_tick (t_scan t_stamp : Z) (key : string)
      (value : ProcessedImage) (c : ImageCache) :
  (forall k e, In (k, e) (cache c) -> t_scan <= timestamp e) ->
  map_get key (cache c) = None ->
  map_size (cache (set t_scan t_stamp key value c)) = map_size (cache c) + 1.
Proof.
  intros Hall Hnew. unfold set.
  rewrite (removeOldestEntry_within_tick t_scan c Hall).
  destruct (maxSize c <=? map_size (cache c)); simpl; unfold map_size;
    rewrite map_set_length_new by exact Hnew; lia.
Qed.

(** C2 does not hold of the code.  Two [set]s of distinct keys within
    one millisecond into a cache of capacity 1: the scan starts from
    [Date.now()] and compares with a strict [<], the entry stamped in
    the same millisecond is not selected, nothing is removed, and the
    cache ends with two entries, the older one among them. *)
Theorem set_same_millisecond_exceeds_capacity :
  map_size (cache (set 1000 1000 "b" (png_image 2 2)
                     (set 1000 1000 "a" (png_image 1 1)
                        (new_ImageCache (Some 1) None)))) = 2
  /\ map_get "a" (cache (set 1000 1000 "b" (png_image 2 2)
                           (set 1000 1000 "a" (png_image 1 1)
                              (new_ImageCache (Some 1) None))))
     = Some {| timestamp := 1000; result := png_image 1 1 |}
  /\ removeOldestEntry 1000
       (set 1000 1000 "a" (png_image 1 1) (new_ImageCache (Some 1) None))
     = set 1000 1000 "a" (png_image 1 1) (new_ImageCache (Some 1) None).
Proof.
  repeat split.
Qed.

(** ** Facts about [Promise.all] *)

Lemma update_nth_nth_error {A : Type} (i j : nat) (a : A) (l : list A) :
  nth_error (update_nth i a l) j
  = if Nat.eqb j i then option_map (fun _ => a) (nth_error l j)
    else nth_error l j.
Proof.
  revert i j. induction l as [|b l IH]; intros i j.
  - destruct i, j; simpl; try reflexivity. now destruct (Nat.eqb j i).
  - destruct i as [|i], j as [|j]; simpl; try reflexivity. apply IH.
Qed.

Lemma collect_map_Some {A : Type} (l : list A) : collect (map Some l) = Some l.
Proof.
  induction l as [|a l IH]; simpl; [reflexivity | now rewrite IH].
Qed.

Lemma index_of_seq (base n i : nat) :
  (i < n)%nat -> index_of (base + i) (seq base n) = Some i.
Proof.
  revert base i. induction n as [|n IH]; intros base i Hi; [lia|].
  simpl. destruct i as [|i].
  - now rewrite Nat.add_0_r, Nat.eqb_refl.
  - destruct (Nat.eqb_spec base (base + S i)) as [E|_]; [lia|].
    replace (base + S i)%nat with (S base + i)%nat by lia.
    rewrite IH by lia. reflexivity.
Qed.

Lemma calls_from_handles (base : nat) (inputs : list Input) (options : jsobject) :
  map call_handle (calls_from base inputs options) = seq base (List.length inputs).
Proof.
  revert base. induction inputs as [|i inputs IH]; intros base; simpl;
    [reflexivity | now rewrite IH].
Qed.

Lemma mem_nat_In (i : nat) (l : list nat) : mem_nat i l = true <-> In i l.
Proof.
  unfold mem_nat. rewrite existsb_exists. split.
  - intros (x & Hin & E). apply Nat.eqb_eq in E. now subst.
  - intros Hin. exists i. now rewrite Nat.eqb_refl.
Qed.

Lemma all_init_progress (vs : list ProcessedImage) :
  all_progress vs [] (all_init (List.length vs)).
Proof.
  unfold all_progress, all_init. simpl. repeat split.
  - intros i. destruct (nth_error vs i) eqn:E; simpl.
    + apply nth_error_repeat. apply nth_error_Some. congruence.
    + apply nth_error_None. rewrite repeat_length.
      now apply nth_error_None.
  - lia.
  - intros H. destruct (List.length vs); [lia | reflexivity].
  - intros H. destruct vs; [reflexivity | discriminate].
Qed.

(** One more element fulfils. *)
Lemma all_step_progress (vs : list ProcessedImage) (done : list nat)
      (st : AllState) (ev : Settlement) :
  all_progress vs done st ->
  fulfils vs ev ->
  ~ In (fst ev) done -> NoDup done ->
  (forall j, In j done -> j < List.length vs)%nat ->
  all_progress vs (fst ev :: done)
               (all_step (seq 0 (List.length vs)) st ev).
Proof.
  intros (Hval & Hrem & Hpend & _) (v & Hev & Hnth) Hnew Hnd Hlt.
  destruct ev as [i o]. simpl in *. subst o.
  assert (Hi : (i < List.length vs)%nat) by (apply nth_error_Some; congruence).
  assert (Hlen : (List.length done < List.length vs)%nat).
  { assert (H : (List.length (i :: done) <= List.length (seq 0 (List.length vs)))%nat).
    { apply NoDup_incl_length; [now constructor|].
      intros j [<-|Hj]; apply in_seq; [lia | specialize (Hlt _ Hj); lia]. }
    rewrite length_seq in H. simpl in H. lia. }
  assert (Hvals : forall j,
             nth_error (update_nth i (Some v) (values st)) j
             = option_map (fun w => if mem_nat j (i :: done) then Some w else None)
                          (nth_error vs j)).
  { intros j. rewrite update_nth_nth_error, Hval. unfold mem_nat. simpl.
    destruct (Nat.eqb_spec j i) as [->|Hne].
    - rewrite Hnth. reflexivity.
    - reflexivity. }
  pose proof (index_of_seq 0 (List.length vs) i Hi) as Hidx.
  rewrite Nat.add_0_l in Hidx.
  unfold all_step. cbn [fst snd]. rewrite Hidx.
  unfold all_progress. simpl. rewrite (Hpend Hlen), Hrem.
  split; [exact Hvals|]. split; [lia|]. split.
  - intros H. destruct (Nat.pred (List.length vs - List.length done)) eqn:E;
      [lia | reflexivity].
  - intros H.
    replace (Nat.pred (List.length vs - List.length done)) with O by lia.
    assert (Hall : update_nth i (Some v) (values st) = map Some vs).
    { apply nth_error_ext. intros j. rewrite Hvals, nth_error_map.
      destruct (nth_error vs j) eqn:Ej; cbn [option_map]; [|reflexivity].
      assert (Hj : In j (i :: done)).
      { apply (@NoDup_length_incl nat (i :: done) (seq 0 (List.length vs))).
        - now constructor.
        - rewrite length_seq. simpl. lia.
        - intros x [<-|Hx]; apply in_seq; [lia | specialize (Hlt _ Hx); lia].
        - apply in_seq. split; [lia|]. simpl.
          apply nth_error_Some. congruence. }
      apply mem_nat_In in Hj. now rewrite Hj. }
    now rewrite Hall, collect_map_Some.
Qed.

Lemma all_fold_progress (vs : list ProcessedImage) (evs : list Settlement) :
  forall (done : list nat) (st : AllState),
    all_progress vs done st ->
    (forall ev, In ev evs -> fulfils vs ev) ->
    NoDup (map fst evs ++ done) ->
    (forall j, In j done -> j < List.length vs)%nat ->
    all_progress vs (rev (map fst evs) ++ done)
                 (fold_left (all_step (seq 0 (List.length vs))) evs st).
Proof.
  induction evs as [|ev evs IH]; intros done st Hst Hful Hnd Hlt; [exact Hst|].
  simpl in *. rewrite <- app_assoc. simpl.
  inversion Hnd as [|? ? Hnotin Hnd']; subst.
  apply IH.
  - apply all_step_progress; auto.
    + intros Hin. apply Hnotin, in_or_app. now right.
    + now apply NoDup_app_remove_l in Hnd'.
  - auto.
  - apply (Permutation_NoDup (Permutation_middle _ _ _)). now constructor.
  - intros j [<-|Hj]; [|auto].
    destruct (Hful ev (or_introl eq_refl)) as (v & _ & Hv).
    apply nth_error_Some. congruence.
Qed.

Lemma in_combine_fulfils (vs : list ProcessedImage) (base : nat) (ev : Settlement) :
  In ev (combine (seq base (List.length vs)) (map Fulfilled vs)) ->
  exists v, snd ev = Fulfilled v
            /\ nth_error vs (fst ev - base) = Some v /\ (base <= fst ev)%nat.
Proof.
  revert base. induction vs as [|v vs IH]; intros base; simpl; [tauto|].
  intros [<-|Hin].
  - exists v. simpl. now rewrite Nat.sub_diag.
  - destruct (IH _ Hin) as (w & Hw & Hnth & Hle). exists w.
    split; [exact Hw|]. split; [|lia].
    replace (fst ev - base)%nat with (S (fst ev - S base)) by lia. exact Hnth.
Qed.

Lemma map_fst_combine_seq (vs : list ProcessedImage) (base : nat) :
  map fst (combine (seq base (List.length vs)) (map Fulfilled vs))
  = seq base (List.length vs).
Proof.
  revert base. induction vs as [|v vs IH]; intros base; simpl;
    [reflexivity | now rewrite IH].
Qed.

(** [Promise.all] over [n] promises that fulfil with [vs], in whatever
    order they fulfil, fulfils with [vs]. *)
Lemma Promise_all_fulfilled (vs : list ProcessedImage) (evs : list Settlement) :
  Permutation evs (combine (seq 0 (List.length vs)) (map Fulfilled vs)) ->
  Promise_all (seq 0 (List.length vs)) evs = Some (Fulfilled vs).
Proof.
  intros Hperm. unfold Promise_all. rewrite length_seq.
  assert (Hfst : Permutation (map fst evs) (seq 0 (List.length vs))).
  { rewrite <- (map_fst_combine_seq vs 0). now apply Permutation_map. }
  destruct (all_fold_progress vs evs [] (all_init (List.length vs)))
    as (_ & _ & _ & Hdone).
  - apply all_init_progress.
  - intros ev Hin. apply (Permutation_in _ Hperm) in Hin.
    destruct (in_combine_fulfils _ _ _ Hin) as (v & Hv & Hnth & _).
    exists v. now rewrite Nat.sub_0_r in Hnth.
  - rewrite app_nil_r. apply (Permutation_NoDup (Permutation_sym Hfst)).
    apply seq_NoDup.
  - intros j [].
  - apply Hdone. rewrite app_nil_r, length_rev.
    rewrite (Permutation_length Hfst). apply length_seq.
Qed.

Lemma all_settled_stable (hs : list nat) (evs : list Settlement) :
  forall (st : AllState) (o : Outcome (list ProcessedImage)),
    all_settled st = Some o ->
    all_settled (fold_left (all_step hs) evs st) = Some o.
Proof.
  induction evs as [|ev evs IH]; intros st o Hst; [exact Hst|].
  simpl. apply IH. unfold all_step.
  destruct (index_of (fst ev) hs); [|exact Hst].
  destruct (snd ev); simpl; now rewrite Hst.
Qed.

(** When an element rejects before the others have all fulfilled,
    [Promise.all] rejects with that error and no array is returned. *)
Lemma Promise_all_rejected_first (hs : list nat) (h : nat) (e : JsError)
      (evs : list Settlement) :
  In h hs ->
  Promise_all hs ((h, Rejected e) :: evs) = Some (Rejected e).
Proof.
  intros Hin. unfold Promise_all. simpl.
  apply all_settled_stable. unfold all_step. simpl.
  assert (Hidx : exists i, index_of h hs = Some i).
  { induction hs as [|h' hs IH]; [destruct Hin|]. simpl.
    destruct (Nat.eqb_spec h' h) as [_|Hne]; [eauto|].
    destruct Hin as [E|Hin]; [contradiction|].
    destruct (IH Hin) as [i Hi]. rewrite Hi. eauto. }
  destruct Hidx as [i Hi]. rewrite Hi. simpl.
  destruct hs; [destruct Hin | reflexivity].
Qed.

(** ** Facts about the batch entry points *)

Lemma remove_call_in (h : nat) (l : list Call) :
  In h (map call_handle l) ->
  exists c rest,
    remove_call h l = Some (c, rest)
    /\ call_handle c = h
    /\ S (List.length rest) = List.length l
    /\ forall h', h' <> h -> In h' (map call_handle l) ->
                  In h' (map call_handle rest).
Proof.
  induction l as [|c l IH]; simpl; [tauto|].
  destruct (Nat.eqb_spec (call_handle c) h) as [E|Hne].
  - intros _. exists c, l. repeat split; auto.
    intros h' Hne [E'|Hin]; [congruence | exact Hin].
  - intros [E|Hin]; [contradiction|].
    destruct (IH Hin) as (c' & rest & Hrm & Hc & Hlen & Hrest).
    exists c', (c :: rest). rewrite Hrm. simpl. repeat split; auto.
    intros h' Hne' [E'|Hin']; [now left | right; auto].
Qed.

(** In ImageProcessor.ts every settlement of a pending call is taken,
    in the order it happens. *)
Lemma ImageProcessor_finish_all (evs : list Settlement) :
  forall p : ImageProcessor.Pending,
    NoDup (map fst evs) ->
    (forall ev, In ev evs ->
                In (fst ev) (map call_handle (ImageProcessor.inflight p))) ->
    ImageProcessor.settled (fold_left ImageProcessor.finish evs p)
    = (ImageProcessor.settled p ++ evs)%list
    /\ List.length (ImageProcessor.inflight (fold_left ImageProcessor.finish evs p))
       = (List.length (ImageProcessor.inflight p) - List.length evs)%nat.
Proof.
  induction evs as [|ev evs IH]; intros p Hnd Hin; simpl.
  - rewrite app_nil_r. split; [reflexivity | lia].
  - inversion Hnd as [|? ? Hnotin Hnd']; subst.
    destruct (remove_call_in (fst ev) (ImageProcessor.inflight p))
      as (c & rest & Hrm & _ & Hlen & Hrest); [apply Hin; now left|].
    unfold ImageProcessor.finish at 2 4. rewrite Hrm.
    destruct (IH {| ImageProcessor.inflight := rest;
                    ImageProcessor.settled := (ImageProcessor.settled p ++ [ev])%list |}
                 Hnd') as [Hs Hl].
    + intros ev' Hin'. simpl. apply Hrest; [|apply Hin; now right].
      intros E. apply Hnotin. rewrite <- E. now apply in_map.
    + rewrite Hs, Hl. simpl. rewrite <- app_assoc. split; [reflexivity | lia].
Qed.

Lemma Queued_enqueue_busy (cs : list Call) :
  forall s : Queued.Scheduler,
    Queued.isProcessing s = true ->
    fold_left Queued.queueProcess cs s
    = {| Queued.queue := (Queued.queue s ++ cs)%list;
         Queued.isProcessing := true;
         Queued.inflight := Queued.inflight s;
         Queued.settled := Queued.settled s |}.
Proof.
  induction cs as [|c cs IH]; intros s Hbusy; simpl.
  - rewrite app_nil_r. destruct s. simpl in *. now subst.
  - unfold Queued.queueProcess at 2, Queued.processQueue. simpl.
    rewrite Hbusy. rewrite IH by reflexivity. simpl.
    now rewrite <- app_assoc.
Qed.

(** After the synchronous part of the queued [batchProcess] the first
    item is being processed and the others wait in call order. *)
Lemma Queued_batchProcess_idle (base : nat) (inputs : list Input) (options : jsobject) :
  Queued.batchProcess base inputs options Queued.idle
  = match calls_from base inputs options with
    | [] => Queued.idle
    | c :: cs => {| Queued.queue := cs;
                    Queued.isProcessing := true;
                    Queued.inflight := [c];
                    Queued.settled := [] |}
    end.
Proof.
  unfold Queued.batchProcess.
  destruct (calls_from base inputs options) as [|c cs]; [reflexivity|].
  simpl. now rewrite Queued_enqueue_busy.
Qed.

(** The queued items then complete one after the other. *)
Lemma Queued_drain (cs : list Call) :
  forall (c : Call) (done evs : list Settlement),
    map fst evs = map call_handle (c :: cs) ->
    fold_left Queued.finish evs
      {| Queued.queue := cs; Queued.isProcessing := true;
         Queued.inflight := [c]; Queued.settled := done |}
    = {| Queued.queue := []; Queued.isProcessing := false;
         Queued.inflight := []; Queued.settled := (done ++ evs)%list |}.
Proof.
  induction cs as [|c' cs IH]; intros c done evs Hevs;
    destruct evs as [|ev evs]; try discriminate; simpl in Hevs;
    injection Hevs as Hh Hrest.
  - destruct evs; [|discriminate]. simpl.
    unfold Queued.finish. simpl. rewrite Hh, Nat.eqb_refl. reflexivity.
  - simpl. unfold Queued.finish at 2. simpl. rewrite Hh, Nat.eqb_refl.
    unfold Queued.processQueue. simpl.
    rewrite (IH c' (done ++ [ev])%list evs) by exact Hrest.
    now rewrite <- app_assoc.
Qed.

Lemma calls_from_nth (base : nat) (inputs : list Input) (options : jsobject) (i : nat) :
  nth_error (calls_from base inputs options) i
  = option_map (fun x => {| call_input := x; call_options := options;
                            call_handle := base + i |})
               (nth_error inputs i).
Proof.
  revert base i. induction inputs as [|x inputs IH]; intros base [|i]; simpl;
    try reflexivity.
  - now rewrite Nat.add_0_r.
  - rewrite IH. now rewrite Nat.add_succ_r.
Qed.

Lemma settlements_handles (run : Call -> World -> Outcome ProcessedImage * World)
      (cs : list Call) :
  forall w, map fst (settlements run cs w) = map call_handle cs.
Proof.
  induction cs as [|c cs IH]; intros w; simpl; [reflexivity | now rewrite IH].
Qed.

Lemma settlements_nth (run : Call -> World -> Outcome ProcessedImage * World)
      (cs : list Call) :
  forall w i,
    nth_error (settlements run cs w) i
    = option_map (fun c => (call_handle c,
                            fst (run c (world_after run (firstn i cs) w))))
                 (nth_error cs i).
Proof.
  induction cs as [|c cs IH]; intros w [|i]; simpl; try reflexivity.
  now rewrite IH.
Qed.

Lemma combine_fst_snd {A B : Type} (l : list (A * B)) :
  combine (map fst l) (map snd l) = l.
Proof.
  induction l as [|[a b] l IH]; simpl; [reflexivity | now rewrite IH].
Qed.

(** When every call fulfils, the settlements are the fulfilments of
    the handles in call order. *)
Lemma settlements_fulfilled (run : Call -> World -> Outcome ProcessedImage * World)
      (inputs : list Input) (options : jsobject) (w : World)
      (vs : list ProcessedImage) :
  let calls := calls_from 0 inputs options in
  map snd (settlements run calls w) = map Fulfilled vs ->
  List.length vs = List.length inputs
  /\ settlements run calls w
     = combine (seq 0 (List.length vs)) (map Fulfilled vs)
  /\ map call_handle calls = seq 0 (List.length vs)
  /\ (forall i x, nth_error inputs i = Some x ->
        exists v, nth_error vs i = Some v
                  /\ fst (run {| call_input := x; call_options := options;
                                 call_handle := i |}
                              (world_after run (firstn i calls) w))
                     = Fulfilled v).
Proof.
  intros calls Hsnd.
  assert (Hlen : List.length vs = List.length inputs).
  { apply (f_equal (@List.length _)) in Hsnd.
    rewrite !length_map in Hsnd.
    rewrite <- (length_map fst), settlements_handles in Hsnd.
    unfold calls in Hsnd. rewrite calls_from_handles, length_seq in Hsnd.
    now symmetry. }
  assert (Hh : map call_handle calls = seq 0 (List.length vs))
    by (unfold calls; now rewrite calls_from_handles, Hlen).
  split; [exact Hlen|]. split; [|split; [exact Hh|]].
  - rewrite <- (combine_fst_snd (settlements run calls w)).
    now rewrite settlements_handles, Hsnd, Hh.
  - intros i x Hx.
    pose proof (settlements_nth run calls w i) as Hnth.
    assert (Hc : nth_error calls i
                 = Some {| call_input := x; call_options := options;
                           call_handle := i |})
      by (unfold calls; rewrite calls_from_nth, Hx; reflexivity).
    rewrite Hc in Hnth. cbn [option_map call_handle] in Hnth.
    pose proof (nth_error_map snd i (settlements run calls w)) as Hmap.
    unfold Settlement in *.
    rewrite Hnth, Hsnd, nth_error_map in Hmap. cbn [option_map snd] in Hmap.
    destruct (nth_error vs i) as [v|]; [|discriminate Hmap].
    exists v. split; [reflexivity|]. simpl in Hmap. congruence.
Qed.

(** C4, as amended.  [batchProcess(inputs, options)] makes one call of
    [process] per input, in array order, each on its input with the
    given options, and returns [Promise.all] of them.  Whenever every
    call fulfils, the batch fulfils with an array as long as [inputs]
    whose element [i] is what [process] yields for [inputs[i]] and
    [options] in the world in which that call is made.  In
    ImageProcessor.ts this holds whatever the order [evs] in which the
    calls settle; in the queued revision the calls settle in queue
    order, each in the world the one before it left. *)
Theorem batchProcess_preserves_order (engine : Engine) (clock : nat -> Z * Z * Z)
        (w : World) (options : jsobject) :
  (forall (inputs : list Buffer) (vs : list ProcessedImage) (evs : list Settlement),
      let p0 := ImageProcessor.batchProcess 0 inputs options nothing_pending in
      let calls := ImageProcessor.inflight p0 in
      let run := parallel_call engine clock in
      map snd (settlements run calls w) = map Fulfilled vs ->
      Permutation evs (settlements run calls w) ->
      (forall i, nth_error calls i
                 = option_map (fun b => {| call_input := InBuffer b;
                                           call_options := options;
                                           call_handle := i |})
                              (nth_error inputs i))
      /\ Promise_all (map call_handle calls)
           (ImageProcessor.settled (fold_left ImageProcessor.finish evs p0))
         = Some (Fulfilled vs)
      /\ List.length vs = List.length inputs
      /\ (forall i b, nth_error inputs i = Some b ->
            exists v,
              nth_error vs i = Some v
              /\ let '(t_get, t_scan, t_stamp) := clock i in
                 fst (ImageProcessor.process engine t_get t_scan t_stamp b options
                        (world_after run (firstn i calls) w))
                 = Fulfilled v))
  /\ (forall (inputs : list Input) (vs : list ProcessedImage),
        let s0 := Queued.batchProcess 0 inputs options Queued.idle in
        let calls := (Queued.inflight s0 ++ Queued.queue s0)%list in
        let run := queued_call engine clock in
        let evs := settlements run calls w in
        map snd evs = map Fulfilled vs ->
        (forall i, nth_error calls i
                   = option_map (fun x => {| call_input := x;
                                             call_options := options;
                                             call_handle := i |})
                                (nth_error inputs i))
        /\ Promise_all (map call_handle calls)
             (Queued.settled (fold_left Queued.finish evs s0))
           = Some (Fulfilled vs)
        /\ List.length vs = List.length inputs
        /\ (forall i x, nth_error inputs i = Some x ->
              exists v,
                nth_error vs i = Some v
                /\ let '(t_get, t_scan, t_stamp) := clock i in
                   fst (Queued.process engine t_get t_scan t_stamp x options
                          (world_after run (firstn i calls) w))
                   = Fulfilled v)).
Proof.
  split.
  - intros inputs vs evs p0 calls run Hsnd Hperm.
    assert (Hcalls : calls = calls_from 0 (map InBuffer inputs) options)
      by reflexivity.
    rewrite Hcalls in *.
    destruct (settlements_fulfilled run (map InBuffer inputs) options w vs Hsnd)
      as (Hlen & Hevs & Hh & Hnth).
    rewrite length_map in Hlen. rewrite Hevs in Hperm.
    split; [|split; [|split; [exact Hlen|]]].
    + intros i. rewrite calls_from_nth, nth_error_map.
      now destruct (nth_error inputs i).
    + rewrite Hh.
      destruct (ImageProcessor_finish_all evs p0) as [Hs _].
      * apply (Permutation_NoDup (l := seq 0 (List.length vs))); [|apply seq_NoDup].
        rewrite <- (map_fst_combine_seq vs 0).
        apply Permutation_map, Permutation_sym, Hperm.
      * intros ev Hin. change (ImageProcessor.inflight p0) with calls.
        rewrite Hcalls, Hh, <- (map_fst_combine_seq vs 0).
        apply in_map, (Permutation_in _ Hperm), Hin.
      * rewrite Hs. simpl. now apply Promise_all_fulfilled.
    + intros i b Hb.
      destruct (Hnth i (InBuffer b)) as (v & Hv & Hrun).
      { rewrite nth_error_map, Hb. reflexivity. }
      exists v. split; [exact Hv|].
      unfold run in Hrun. unfold parallel_call at 1 in Hrun.
      cbn [call_handle call_buffer call_input call_options] in Hrun.
      destruct (clock i) as [[t_get t_scan] t_stamp]. exact Hrun.
  - intros inputs vs s0 calls run evs Hsnd.
    assert (Hs0 : s0 = match calls_from 0 inputs options with
                       | [] => Queued.idle
                       | c :: cs => {| Queued.queue := cs;
                                       Queued.isProcessing := true;
                                       Queued.inflight := [c];
                                       Queued.settled := [] |}
                       end)
      by apply Queued_batchProcess_idle.
    assert (Hcalls : calls = calls_from 0 inputs options).
    { unfold calls. rewrite Hs0.
      destruct (calls_from 0 inputs options); reflexivity. }
    unfold evs in *. rewrite Hcalls in *.
    destruct (settlements_fulfilled run inputs options w vs Hsnd)
      as (Hlen & Hevs & Hh & Hnth).
    split; [|split; [|split; [exact Hlen|]]].
    + intros i. rewrite calls_from_nth. now destruct (nth_error inputs i).
    + rewrite Hh, Hs0, Hevs.
      destruct (calls_from 0 inputs options) as [|c cs] eqn:Ecalls.
      * destruct vs; [reflexivity | discriminate Hh].
      * rewrite Queued_drain.
        -- simpl. now apply Promise_all_fulfilled.
        -- rewrite map_fst_combine_seq. now rewrite <- Hh.
    + intros i x Hx.
      destruct (Hnth i x Hx) as (v & Hv & Hrun).
      exists v. split; [exact Hv|].
      unfold run in Hrun. unfold queued_call at 1 in Hrun.
      cbn [call_handle call_input call_options] in Hrun.
      destruct (clock i) as [[t_get t_scan] t_stamp]. exact Hrun.
Qed.

Lemma batchProcess_preserves_order_witness :
  Promise_all [0%nat; 1%nat; 2%nat]
    (ImageProcessor.settled
       (fold_left ImageProcessor.finish
          [(0%nat, Fulfilled (png_image 1 1)); (2%nat, Fulfilled (png_image 3 3));
           (1%nat, Fulfilled (png_image 2 2))]
          (ImageProcessor.batchProcess 0 [one_byte; two_bytes; three_bytes] []
             nothing_pending)))
  = Some (Fulfilled [png_image 1 1; png_image 2 2; png_image 3 3]).
Proof.
  destruct (batchProcess_preserves_order sizing_engine at_noon fresh_world [])
    as [Hparallel _].
  apply (Hparallel [one_byte; two_bytes; three_bytes]
           [png_image 1 1; png_image 2 2; png_image 3 3]
           [(0%nat, Fulfilled (png_image 1 1)); (2%nat, Fulfilled (png_image 3 3));
            (1%nat, Fulfilled (png_image 2 2))]).
  - reflexivity.
  - simpl. apply perm_skip, perm_swap.
Defined.

(** C4, as stated, fails.  In ImageProcessor.ts a batch one of whose
    items the engine cannot read returns no array: it rejects with
    that item's error.  In the queued revision the second of two
    buffers that share their first 24 bytes is answered from the cache
    with the image of the first, not with the image the engine makes of
    it. *)
Lemma batchProcess_order_counterexample :
  (let p0 := ImageProcessor.batchProcess 0 [one_byte; two_bytes; three_bytes] []
                                         nothing_pending in
   let evs := settlements (parallel_call picky_engine at_noon)
                          (ImageProcessor.inflight p0) fresh_world in
   Promise_all (map call_handle (ImageProcessor.inflight p0))
     (ImageProcessor.settled (fold_left ImageProcessor.finish evs p0))
   = Some (Rejected
             (ImageProcessingError "Failed to process image"
                (Some (PlainError "Input buffer contains unsupported image format"))
                (Some "process"))))
  /\ (let inputs := [InBuffer (png_100x100_head ++ one_byte)%list;
                     InBuffer (png_100x100_head ++ two_bytes)%list] in
      let s0 := Queued.batchProcess 0 inputs [] Queued.idle in
      let calls := (Queued.inflight s0 ++ Queued.queue s0)%list in
      let evs := settlements (queued_call sizing_engine at_noon) calls fresh_world in
      Promise_all (map call_handle calls)
        (Queued.settled (fold_left Queued.finish evs s0))
      = Some (Fulfilled [png_image 25 25; png_image 25 25])
      /\ sizing_engine (InBuffer (png_100x100_head ++ two_bytes)%list)
                       (Queued.steps [])
         = Fulfilled (png_image 26 26)).
Proof.
  split; [|split]; vm_compute; reflexivity.
Qed.

(** ** Facts about the queue *)

Lemma step_one_at_a_time (s : Queued.Scheduler) (e : Queued.Event) :
  one_at_a_time s -> one_at_a_time (Queued.step s e).
Proof.
  intros [[Hbusy [c Hc]]|(Hidle & Hin & Hq)]; destruct e as [item|[h o]]; simpl.
  - left. unfold Queued.queueProcess, Queued.processQueue. simpl.
    rewrite Hbusy. simpl. eauto.
  - unfold Queued.finish. rewrite Hc. simpl.
    destruct (Nat.eqb (call_handle c) h).
    + unfold Queued.processQueue. simpl.
      destruct (Queued.queue s) as [|q qs]; [right | left]; simpl; eauto.
    + left. split; [exact Hbusy | exists c; exact Hc].
  - left. unfold Queued.queueProcess, Queued.processQueue. simpl.
    rewrite Hidle, Hq, Hin. simpl. eauto.
  - unfold Queued.finish. rewrite Hin. simpl. right. auto.
Qed.

Lemma run_from_one_at_a_time (trace : list Queued.Event) :
  forall s, one_at_a_time s -> one_at_a_time (fold_left Queued.step trace s).
Proof.
  induction trace as [|e trace IH]; intros s Hs; [exact Hs|].
  simpl. apply IH. now apply step_one_at_a_time.
Qed.

(** The items that have completed, the item in flight and the items
    waiting are, in this order, the items enqueued so far. *)
Lemma step_fifo (s : Queued.Scheduler) (e : Queued.Event) (done : list Call) :
  one_at_a_time s ->
  map call_handle done = map fst (Queued.settled s) ->
  exists done',
    map call_handle done' = map fst (Queued.settled (Queued.step s e))
    /\ (done' ++ Queued.inflight (Queued.step s e)
          ++ Queued.queue (Queued.step s e))%list
       = ((done ++ Queued.inflight s ++ Queued.queue s)
            ++ Queued.enqueued [e])%list.
Proof.
  intros [[Hbusy [c Hc]]|(Hidle & Hin & Hq)] Hdone;
    destruct e as [item|[h o]]; simpl.
  - exists done. unfold Queued.queueProcess, Queued.processQueue. simpl.
    rewrite Hbusy. simpl. split; [exact Hdone|].
    rewrite Hc. now rewrite <- !app_assoc.
  - unfold Queued.finish. rewrite Hc. simpl.
    destruct (Nat.eqb_spec (call_handle c) h) as [E|_].
    + exists (done ++ [c])%list. unfold Queued.processQueue. simpl.
      destruct (Queued.queue s) as [|q qs]; simpl;
        rewrite !map_app, Hdone; simpl; rewrite E;
        (split; [reflexivity|]); rewrite ?app_nil_r, <- ?app_assoc; reflexivity.
    + exists done. split; [exact Hdone|]. now rewrite Hc, app_nil_r.
  - exists done. unfold Queued.queueProcess, Queued.processQueue. simpl.
    rewrite Hidle, Hq, Hin. simpl. split; [exact Hdone|].
    now rewrite app_nil_r.
  - exists done. unfold Queued.finish. rewrite Hin. simpl.
    split; [exact Hdone|]. rewrite Hin, Hq. simpl. now rewrite !app_nil_r.
Qed.

Lemma enqueued_app (t1 t2 : list Queued.Event) :
  Queued.enqueued (t1 ++ t2) = (Queued.enqueued t1 ++ Queued.enqueued t2)%list.
Proof.
  induction t1 as [|[item|ev] t1 IH]; simpl; [reflexivity | now rewrite IH | exact IH].
Qed.

Lemma run_from_fifo (trace : list Queued.Event) :
  forall (s : Queued.Scheduler) (done : list Call),
    one_at_a_time s ->
    map call_handle done = map fst (Queued.settled s) ->
    exists done',
      map call_handle done'
      = map fst (Queued.settled (fold_left Queued.step trace s))
      /\ (done' ++ Queued.inflight (fold_left Queued.step trace s)
            ++ Queued.queue (fold_left Queued.step trace s))%list
         = ((done ++ Queued.inflight s ++ Queued.queue s)
              ++ Queued.enqueued trace)%list.
Proof.
  induction trace as [|e trace IH]; intros s done Hs Hdone.
  - exists done. simpl. now rewrite app_nil_r.
  - destruct (step_fifo s e done Hs Hdone) as (d1 & Hd1 & Heq1).
    destruct (IH (Queued.step s e) d1 (step_one_at_a_time s e Hs) Hd1)
      as (d2 & Hd2 & Heq2).
    exists d2. simpl fold_left. split; [exact Hd2|].
    rewrite Heq2, Heq1.
    change (e :: trace) with ([e] ++ trace)%list.
    now rewrite enqueued_app, <- !app_assoc.
Qed.

(** C5, for the queued revision.  Whatever calls of [queueProcess] and
    settlements of [process] have happened: at most one item is in
    flight, and an item waits in the queue only while one is in flight;
    the items completed, the item in flight and the items waiting are,
    in this order, the items in the order they were enqueued; and when
    the item in flight settles, fulfilled or rejected, its handle is
    settled with that outcome and the head of the queue, if any, is the
    one item in flight next. *)
Theorem processQueue_one_at_a_time (trace : list Queued.Event) :
  let s := Queued.run trace in
  (List.length (Queued.inflight s) <= 1)%nat
  /\ (Queued.inflight s = [] -> Queued.queue s = [])
  /\ (exists done,
        map call_handle done = map fst (Queued.settled s)
        /\ (done ++ Queued.inflight s ++ Queued.queue s)%list
           = Queued.enqueued trace)
  /\ (forall c o,
        Queued.inflight s = [c] ->
        let s' := Queued.step s (Queued.Settle (call_handle c, o)) in
        Queued.settled s' = (Queued.settled s ++ [(call_handle c, o)])%list
        /\ Queued.inflight s' = firstn 1 (Queued.queue s)
        /\ Queued.queue s' = skipn 1 (Queued.queue s)).
Proof.
  intros s.
  assert (Hidle : one_at_a_time Queued.idle) by (right; auto).
  assert (Hs : one_at_a_time s) by now apply run_from_one_at_a_time.
  split; [|split; [|split]].
  - destruct Hs as [[_ [c Hc]]|(_ & Hin & _)]; [rewrite Hc | rewrite Hin];
      simpl; lia.
  - destruct Hs as [[_ [c Hc]]|(_ & _ & Hq)]; [rewrite Hc; discriminate | auto].
  - destruct (run_from_fifo trace Queued.idle [] Hidle eq_refl) as (done & H1 & H2).
    exists done. split; [exact H1 | exact H2].
  - intros c o Hc s'. unfold s'. simpl. unfold Queued.finish. rewrite Hc. simpl.
    rewrite Nat.eqb_refl. unfold Queued.processQueue. simpl.
    destruct (Queued.queue s) as [|q qs]; simpl; auto.
Qed.

Lemma processQueue_one_at_a_time_witness :
  Queued.inflight
    (Queued.step (Queued.run [Queued.Enqueue call_a; Queued.Enqueue call_b])
                 (Queued.Settle (0%nat, Rejected (PlainError "Input file is missing"))))
  = [call_b].
Proof.
  destruct (processQueue_one_at_a_time
              [Queued.Enqueue call_a; Queued.Enqueue call_b])
    as (_ & _ & _ & Hnext).
  destruct (Hnext call_a (Rejected (PlainError "Input file is missing")) eq_refl)
    as (_ & Hflight & _).
  exact Hflight.
Defined.

(** C5, as stated, fails for [batchProcess] of ImageProcessor.ts: it
    calls [process] on every input before it awaits anything, so two
    inputs give two calls in flight and none settled. *)
Lemma batchProcess_parallel_counterexample :
  ImageProcessor.inflight
    (ImageProcessor.batchProcess 0 [one_byte; two_bytes] [] nothing_pending)
  = [call_a; call_b]
  /\ ImageProcessor.settled
       (ImageProcessor.batchProcess 0 [one_byte; two_bytes] [] nothing_pending)
     = []
  /\ ~ (List.length
          (ImageProcessor.inflight
             (ImageProcessor.batchProcess 0 [one_byte; two_bytes] [] nothing_pending))
        <= 1)%nat.
Proof.
  repeat split. simpl. lia.
Qed.

(** ** Facts about the pipeline *)

Lemma filter_cons_app {A : Type} (f : A -> bool) (a : A) (l : list A) :
  filter f (a :: l) = ((if f a then [a] else []) ++ filter f l)%list.
Proof.
  simpl. now destruct (f a).
Qed.

Lemma map_when (b : bool) (s : Step) :
  map kind (when b s) = if b then [kind s] else [].
Proof.
  now destruct b.
Qed.

Lemma StronglySorted_filter {A : Type} (R : A -> A -> Prop) (f : A -> bool)
      (l : list A) :
  StronglySorted R l -> StronglySorted R (filter f l).
Proof.
  induction 1 as [|a l Hl IH Hall]; simpl; [constructor|].
  destruct (f a); [|exact IH].
  constructor; [exact IH|].
  rewrite Forall_forall in *. intros x Hx.
  apply filter_In in Hx. now apply Hall.
Qed.

Lemma StronglySorted_apart {A : Type} (R : A -> A -> Prop)
      (pre mid post : list A) (a b : A) :
  StronglySorted R (pre ++ a :: mid ++ b :: post) -> R a b.
Proof.
  induction pre as [|x pre IH]; simpl; intros H.
  - apply StronglySorted_inv in H. destruct H as [_ Hall].
    rewrite Forall_forall in Hall. apply Hall.
    apply in_or_app. right. now left.
  - apply StronglySorted_inv in H. now apply IH.
Qed.

Lemma spec_order_sorted : StronglySorted before spec_order.
Proof.
  unfold spec_order, before.
  repeat (constructor; [|repeat constructor; simpl; lia]). constructor.
Qed.

(** The step kinds of ImageProcessor.ts are the enabled ones, in the
    order of the specification. *)
Lemma ImageProcessor_steps_kinds (options : jsobject) :
  map kind (ImageProcessor.steps options) = filter (enabled options) spec_order.
Proof.
  unfold ImageProcessor.steps, spec_order.
  rewrite !map_app, !map_when, !filter_cons_app. simpl filter.
  rewrite app_nil_r. unfold enabled. simpl kind.
  repeat f_equal.
  unfold linear_step.
  destruct (get_prop options "contrast"); reflexivity.
Qed.

Lemma ImageProcessor_steps_sorted (options : jsobject) :
  StronglySorted before (map kind (ImageProcessor.steps options)).
Proof.
  rewrite ImageProcessor_steps_kinds.
  apply StronglySorted_filter, spec_order_sorted.
Qed.

Lemma rank_max (k : StepKind) : (rank k <= 13)%nat.
Proof.
  destruct k; simpl; lia.
Qed.

(** Of any two steps of the pipeline, the earlier comes earlier in the
    order of the specification. *)
Lemma process_step_order_aux (options : jsobject) (pre : list Step) (a : Step)
      (mid : list Step) (b : Step) (post : list Step) :
  ImageProcessor.steps options = (pre ++ a :: mid ++ b :: post)%list ->
  before (kind a) (kind b).
Proof.
  intros Heq.
  pose proof (ImageProcessor_steps_sorted options) as Hs.
  rewrite Heq, map_app in Hs. simpl in Hs. rewrite map_app in Hs. simpl in Hs.
  now apply StronglySorted_apart in Hs.
Qed.

(** C6, for [process] of ImageProcessor.ts.  The steps of the pipeline
    are the enabled ones in the order resize, crop, blur, sharpen,
    grayscale, tint, modulation, linear contrast, rotate, flip, flop,
    overlay, encode: of any two steps the earlier one comes earlier in
    that order; no orientation step (rotate, flip, flop) is followed by
    a pixel filter (blur, sharpen, grayscale, tint); nothing follows
    the encode step. *)
Theorem process_step_order (options : jsobject) :
  map kind (ImageProcessor.steps options) = filter (enabled options) spec_order
  /\ (forall pre a mid b post,
        ImageProcessor.steps options = (pre ++ a :: mid ++ b :: post)%list ->
        before (kind a) (kind b))
  /\ (forall pre a mid b post,
        ImageProcessor.steps options = (pre ++ a :: mid ++ b :: post)%list ->
        is_orientation (kind a) = true -> is_pixel_filter (kind b) = true ->
        False)
  /\ (forall pre a post,
        ImageProcessor.steps options = (pre ++ a :: post)%list ->
        kind a = KEncode -> post = []).
Proof.
  assert (Hpair : forall pre a mid b post,
             ImageProcessor.steps options = (pre ++ a :: mid ++ b :: post)%list ->
             before (kind a) (kind b)).
  { intros pre a mid b post Heq.
    now apply (process_step_order_aux options pre a mid b post). }
  split; [apply ImageProcessor_steps_kinds|]. split; [exact Hpair|]. split.
  - intros pre a mid b post Heq Ha Hb.
    specialize (Hpair _ _ _ _ _ Heq). unfold before in Hpair.
    destruct (kind a), (kind b); simpl in *; try discriminate; lia.
  - intros pre a post Heq Ha. destruct post as [|b post]; [reflexivity|].
    specialize (Hpair pre a [] b post Heq). unfold before in Hpair.
    rewrite Ha in Hpair. pose proof (rank_max (kind b)). simpl in Hpair. lia.
Qed.

Lemma process_step_order_witness : before KTint KRotate /\ before KBlur KTint.
Proof.
  destruct (process_step_order blur_tint_rotate_png) as (_ & Hpair & _).
  split.
  - apply (Hpair [Blur (JNum 2)] (Tint (JStr "red")) []
                 (Rotate (JNum 90)) [ToFormat (JStr "png") (JNum 80)]).
    reflexivity.
  - apply (Hpair [] (Blur (JNum 2)) [] (Tint (JStr "red"))
                 [Rotate (JNum 90); ToFormat (JStr "png") (JNum 80)]).
    reflexivity.
Defined.

(** C6, as stated, fails for [process] of the queued revision: with
    [rotate] and [tint] both set it rotates first and tints
    afterwards. *)
Lemma queued_step_order_counterexample :
  Queued.steps rotate_and_tint = [Rotate (JNum 90); Tint (JStr "red")]
  /\ is_orientation (kind (Rotate (JNum 90))) = true
  /\ is_pixel_filter (kind (Tint (JStr "red"))) = true
  /\ map kind (Queued.steps rotate_and_tint)
     <> filter (enabled rotate_and_tint) spec_order.
Proof.
  repeat split. discriminate.
Qed.

(** C9, for [process] of ImageProcessor.ts.  When [options.format] is
    set the pipeline ends with the one encode step, called with
    [options.quality || 80]: quality 80 when [quality] is unspecified,
    the given quality when it is a non-zero number.  When no format is
    requested the pipeline holds no encode step. *)
Theorem encode_quality_default (options : jsobject) :
  let o := get_prop options in
  (truthy (o "format") = true ->
   exists pre,
     ImageProcessor.steps options
     = (pre ++ [ToFormat (o "format") (js_or (o "quality") (JNum 80))])%list
     /\ (forall s, In s pre -> kind s <> KEncode)
     /\ (o "quality" = JUndefined -> js_or (o "quality") (JNum 80) = JNum 80)
     /\ (forall q, o "quality" = JNum q -> q <> 0 ->
                   js_or (o "quality") (JNum 80) = JNum q))
  /\ (truthy (o "format") = false ->
      forall s, In s (ImageProcessor.steps options) -> kind s <> KEncode).
Proof.
  intros o.
  assert (Hkinds := ImageProcessor_steps_kinds options).
  assert (Hpre : forall pre last,
             ImageProcessor.steps options = (pre ++ [last])%list ->
             kind last = KEncode ->
             forall s, In s pre -> kind s <> KEncode).
  { intros pre last Heq Hlast s Hin Hs.
    apply in_split in Hin. destruct Hin as (l1 & l2 & ->).
    assert (H : before (kind s) (kind last)).
    { apply (process_step_order_aux options l1 s l2 last []).
      rewrite Heq, <- app_assoc. reflexivity. }
    unfold before in H. rewrite Hs, Hlast in H. lia. }
  split.
  - intros Hf.
    assert (Hsteps : exists pre,
               ImageProcessor.steps options
               = (pre ++ [ToFormat (o "format") (js_or (o "quality") (JNum 80))])%list).
    { unfold ImageProcessor.steps. fold o. rewrite Hf. cbn [when].
      rewrite !app_assoc. eexists. reflexivity. }
    destruct Hsteps as [pre Hsteps]. exists pre.
    split; [exact Hsteps|]. split; [now apply (Hpre pre _ Hsteps)|]. split.
    + intros ->. reflexivity.
    + intros q -> Hq. unfold js_or. simpl.
      destruct (Z.eqb_spec q 0); [contradiction | reflexivity].
  - intros Hf s Hin Hs.
    apply (in_map kind) in Hin. rewrite Hkinds, Hs in Hin.
    apply filter_In in Hin. destruct Hin as [_ Hen].
    unfold enabled in Hen. fold o in Hen. congruence.
Qed.

Lemma encode_quality_default_witness :
  (exists pre,
     ImageProcessor.steps webp_only
     = (pre ++ [ToFormat (JStr "webp") (JNum 80)])%list)
  /\ (forall s, In s (ImageProcessor.steps rotate_and_tint) -> kind s <> KEncode).
Proof.
  split.
  - destruct (encode_quality_default webp_only) as [H _].
    destruct (H eq_refl) as (pre & Hpre & _). exists pre. exact Hpre.
  - destruct (encode_quality_default rotate_and_tint) as [_ H].
    exact (H eq_refl).
Defined.

(** C9, as stated, fails: the revision with [applyProcessingOptions]
    and the queued revision pass [options.quality] on as it is, so with
    a format and no quality the encode step is called with [undefined],
    not with 80; and in ImageProcessor.ts a given quality of 0 is
    replaced by 80. *)
Lemma encode_quality_counterexample :
  Aspect.steps webp_only = [ToFormat (JStr "webp") JUndefined]
  /\ Queued.steps webp_only = [ToFormat (JStr "webp") JUndefined]
  /\ ImageProcessor.steps (webp_quality 0) = [ToFormat (JStr "webp") (JNum 80)].
Proof.
  repeat split.
Qed.

(** ** Facts about the watermark position *)

(** C7, for the revision whose watermark takes [padding].  For every
    image size, text size, padding and position of the type
    [WatermarkPosition]: [y] is [padding + fontSize] when the position
    contains "top", [imageHeight - padding] when it contains "bottom",
    [imageHeight / 2] otherwise; [x] is [padding] and the text anchor
    is start when it contains "left", [imageWidth - padding] and end
    when it contains "right", [imageWidth / 2] and middle otherwise.
    The three examples of the specification follow. *)
Theorem getWatermarkPosition_placement
        (imageWidth imageHeight textWidth fontSize padding : Q)
        (p : WatermarkPosition) :
  let position := position_string p in
  let xy := Padded.getWatermarkPosition imageWidth imageHeight textWidth
                                        fontSize position padding in
  snd xy = (if includes position "top" then padding + fontSize
            else if includes position "bottom" then imageHeight - padding
            else imageHeight / 2)%Q
  /\ (fst xy, Padded.textAnchor position)
     = (if includes position "left" then (padding, "start")
        else if includes position "right" then ((imageWidth - padding)%Q, "end")
        else ((imageWidth / 2)%Q, "middle"))
  /\ (match p with
      | TopLeft => xy = (padding, (padding + fontSize)%Q)
      | TopRight => xy = ((imageWidth - padding)%Q, (padding + fontSize)%Q)
      | BottomLeft => xy = (padding, (imageHeight - padding)%Q)
      | BottomRight => xy = ((imageWidth - padding)%Q, (imageHeight - padding)%Q)
      | Center => xy = ((imageWidth / 2)%Q, (imageHeight / 2)%Q)
      end)
  /\ (let place := Padded.getWatermarkPosition
                     (200 # 1) (200 # 1) (40 # 1) (24 # 1) in
      (fst (place "bottom-right" (10 # 1)) == 190 # 1
       /\ snd (place "bottom-right" (10 # 1)) == 190 # 1
       /\ Padded.textAnchor "bottom-right" = "end")
      /\ (fst (place "top-left" (10 # 1)) == 10 # 1
          /\ snd (place "top-left" (10 # 1)) == 34 # 1
          /\ Padded.textAnchor "top-left" = "start")
      /\ (fst (place "center" (10 # 1)) == 100 # 1
          /\ snd (place "center" (10 # 1)) == 100 # 1
          /\ Padded.textAnchor "center" = "middle"))%Q.
Proof.
  intros position xy. split; [|split; [|split]].
  - reflexivity.
  - unfold position, xy. destruct p; reflexivity.
  - unfold position, xy. destruct p; reflexivity.
  - repeat split; reflexivity.
Qed.

(** C7, as stated, fails for [getWatermarkPosition] of
    ImageProcessor.ts, which pads by [padding + fontSize / 4], offsets
    [x] by half the text width and always anchors the text in the
    middle: the first example of the specification comes out at
    (164, 184), not at (190, 190). *)
Lemma getWatermarkPosition_counterexample :
  (fst (ImageProcessor.getWatermarkPosition
          (200 # 1) (200 # 1) (40 # 1) (24 # 1) "bottom-right" (10 # 1))
   == 164 # 1)%Q
  /\ (snd (ImageProcessor.getWatermarkPosition
             (200 # 1) (200 # 1) (40 # 1) (24 # 1) "bottom-right" (10 # 1))
      == 184 # 1)%Q
  /\ ~ (fst (ImageProcessor.getWatermarkPosition
               (200 # 1) (200 # 1) (40 # 1) (24 # 1) "bottom-right" (10 # 1))
        == 190 # 1)%Q
  /\ ImageProcessor.textAnchor "bottom-right" <> "end".
Proof.
  repeat split; try reflexivity; intros H; discriminate H.
Qed.

(** ** Facts about input validation *)

Lemma trimStart_blank (s : string) : blank s = true -> trimStart s = EmptyString.
Proof.
  induction s as [|c s IH]; simpl; [reflexivity|].
  destruct (is_space c); simpl; [exact IH | discriminate].
Qed.

Lemma trim_blank (s : string) : blank s = true -> trim s = EmptyString.
Proof.
  intros H. unfold trim. now rewrite (trimStart_blank s H).
Qed.

(** C8, for the queued revision.  [process] called with an empty
    buffer, or with a string of white space only, rejects with the
    error "Failed to process image" whose operation is "process image"
    and whose cause is the validation error ("Empty buffer provided",
    "Empty string provided"); this holds whatever the engine is, and
    the cache and the list of pipelines handed to the engine are left
    as they were: the engine is not invoked. *)
Theorem process_validates_input (engine : Engine) (t_get t_scan t_stamp : Z)
        (options : jsobject) (w : World) :
  Queued.process engine t_get t_scan t_stamp (InBuffer []) options w
  = (Rejected (ImageProcessingError "Failed to process image"
                 (Some (ImageProcessingError "Empty buffer provided" None None))
                 (Some "process image")),
     w)
  /\ (forall s, blank s = true ->
        Queued.process engine t_get t_scan t_stamp (InString s) options w
        = (Rejected (ImageProcessingError "Failed to process image"
                       (Some (ImageProcessingError "Empty string provided" None None))
                       (Some "process image")),
           w)).
Proof.
  split; [reflexivity|].
  intros s Hs. unfold Queued.process, Queued.validateInput.
  now rewrite (trim_blank s Hs).
Qed.

Lemma process_validates_input_witness :
  Queued.process rejecting_engine 0 0 0 (InString "   ") [] fresh_world
  = (Rejected (ImageProcessingError "Failed to process image"
                 (Some (ImageProcessingError "Empty string provided" None None))
                 (Some "process image")),
     fresh_world).
Proof.
  apply (process_validates_input rejecting_engine 0 0 0 [] fresh_world).
  reflexivity.
Defined.

(** C8, as stated, fails in two ways.  In the queued revision the
    rejection carries the operation "process image", not "process".
    [process] of ImageProcessor.ts does carry "process" but has no
    validation step: an empty buffer is handed to the engine, and the
    rejection is the engine's. *)
Lemma process_validation_counterexample :
  fst (Queued.process rejecting_engine 0 0 0 (InBuffer []) [] fresh_world)
  <> Rejected (ImageProcessingError "Failed to process image"
                 (Some (ImageProcessingError "Empty buffer provided" None None))
                 (Some "process"))
  /\ ImageProcessor.process rejecting_engine 0 0 0 [] [] fresh_world
     = (Rejected (ImageProcessingError "Failed to process image"
                    (Some (PlainError "Input Buffer is empty"))
                    (Some "process")),
        {| imageCache := new_ImageCache None None;
           engine_log := [(InBuffer [], [])] |}).
Proof.
  split; [intros H; discriminate H | reflexivity].
Qed.

(** ** Facts about [getStats] *)

Lemma num_or_nonzero (x : option Z) (d : Z) : d <> 0 -> num_or x d <> 0.
Proof.
  intros Hd. unfold num_or. destruct x as [n|]; [|exact Hd].
  destruct (Z.eqb_spec n 0); [exact Hd | assumption].
Qed.

(** C10, as amended.  [getStats] passes every metadata field that is
    present on and replaces every absent one by its default (size 0,
    format 'unknown', width 0, height 0, hasAlpha false, colorSpace
    'unknown', channels 0); the aspect ratio is
    [(width || 0) / (height || 1)], whose divisor is never 0: the width
    divided by the height when the height is present and not 0, and the
    width itself for an image whose height is 0 or missing, so 0 exactly
    when the width is 0 or missing too. *)
Theorem getStats_defaults (metadata : Metadata) :
  let stats := stats_of metadata in
  ImageProcessor.getStats (Fulfilled metadata) = Fulfilled stats
  /\ ImageAnalyzer_getStats (Fulfilled metadata) = Fulfilled stats
  /\ (md_size metadata = None -> stats_size stats = 0)
  /\ (md_format metadata = None -> stats_format stats = "unknown")
  /\ (md_width metadata = None -> stats_width stats = 0)
  /\ (md_height metadata = None -> stats_height stats = 0)
  /\ (md_hasAlpha metadata = None -> stats_hasAlpha stats = false)
  /\ (md_space metadata = None -> stats_colorSpace stats = "unknown")
  /\ (md_channels metadata = None -> stats_channels stats = 0)
  /\ (exists divisor,
        divisor <> 0
        /\ stats_aspectRatio stats
           = (inject_Z (stats_width stats) / inject_Z divisor)%Q
        /\ (stats_height stats <> 0 -> divisor = stats_height stats))
  /\ (md_height metadata = None \/ md_height metadata = Some 0 ->
      (stats_aspectRatio stats == inject_Z (stats_width stats))%Q
      /\ ((stats_aspectRatio stats == 0)%Q <-> stats_width stats = 0))
  /\ (forall n, md_size metadata = Some n -> stats_size stats = n)
  /\ (forall s, md_format metadata = Some s -> s <> EmptyString ->
                stats_format stats = s)
  /\ (forall w, md_width metadata = Some w -> stats_width stats = w)
  /\ (forall h, md_height metadata = Some h -> stats_height stats = h)
  /\ (forall b, md_hasAlpha metadata = Some b -> stats_hasAlpha stats = b)
  /\ (forall s, md_space metadata = Some s -> s <> EmptyString ->
                stats_colorSpace stats = s)
  /\ (forall n, md_channels metadata = Some n -> stats_channels stats = n)
  /\ stats_compression stats = md_compression metadata
  /\ (forall w h, md_width metadata = Some w -> md_height metadata = Some h ->
                  h <> 0 ->
                  (stats_aspectRatio stats == inject_Z w / inject_Z h)%Q)
  /\ (forall w, md_width metadata = Some w ->
                md_height metadata = None \/ md_height metadata = Some 0 ->
                (stats_aspectRatio stats == inject_Z w)%Q)
  /\ (md_width metadata = None -> (stats_aspectRatio stats == 0)%Q)
  /\ (md_height metadata = None \/ md_height metadata = Some 0 ->
      ((stats_aspectRatio stats == 0)%Q
       <-> md_width metadata = None \/ md_width metadata = Some 0)).
Proof.
  intros stats.
  assert (Hnum : forall x n, x = Some n -> num_or x 0 = n).
  { intros x n ->. unfold num_or. destruct (Z.eqb_spec n 0); congruence. }
  assert (Hstr : forall x d s, x = Some s -> s <> EmptyString -> str_or x d = s).
  { intros x d s -> Hs. unfold str_or.
    destruct (String.eqb_spec s EmptyString); [contradiction | reflexivity]. }
  assert (Hone : forall x : Q, (x / inject_Z 1 == x)%Q).
  { intros x. unfold Qdiv. change (/ inject_Z 1)%Q with 1%Q. ring. }
  assert (Hflat : md_height metadata = None \/ md_height metadata = Some 0 ->
                  num_or (md_height metadata) 1 = 1)
    by (intros [-> | ->]; reflexivity).
  assert (Hzero : forall n : Z, (inject_Z n == 0)%Q <-> n = 0).
  { intros n. unfold Qeq. simpl. lia. }
  unfold stats in *. unfold stats_of in *. simpl in *.
  do 9 (split; [first [reflexivity | intros ->; reflexivity]|]).
  split.
  { exists (num_or (md_height metadata) 1). split; [|split].
    - apply num_or_nonzero. discriminate.
    - reflexivity.
    - unfold num_or. destruct (md_height metadata) as [h|]; [|congruence].
      destruct (Z.eqb_spec h 0); congruence. }
  split.
  { intros Hh. rewrite (Hflat Hh), Hone. split; [reflexivity | apply Hzero]. }
  split; [apply Hnum|].
  split; [apply Hstr|].
  split; [apply Hnum|].
  split; [apply Hnum|].
  split; [intros b ->; now destruct b|].
  split; [apply Hstr|].
  split; [apply Hnum|].
  split; [reflexivity|].
  split.
  { intros w h Hw Hh Hnz. rewrite (Hnum _ _ Hw), Hh.
    unfold num_or. destruct (Z.eqb_spec h 0); [contradiction | reflexivity]. }
  split.
  { intros w Hw Hh. rewrite (Hnum _ _ Hw), (Hflat Hh). apply Hone. }
  split.
  { intros Hw. rewrite Hw. simpl. unfold Qdiv. ring. }
  intros Hh. rewrite (Hflat Hh), Hone, Hzero.
  destruct (md_width metadata) as [w|]; simpl.
  - destruct (Z.eqb_spec w 0) as [->|Hne].
    + split; auto.
    + split; [contradiction | intros [H|H]; congruence].
  - split; auto.
Qed.

Lemma getStats_defaults_witness :
  stats_size (stats_of no_metadata) = 0
  /\ stats_width (stats_of width_without_height) = 800
  /\ (stats_aspectRatio (stats_of width_without_height) == 800 # 1)%Q.
Proof.
  split; [|split].
  - destruct (getStats_defaults no_metadata) as (_ & _ & H & _).
    exact (H eq_refl).
  - destruct (getStats_defaults width_without_height)
      as (_ & _ & _ & _ & _ & _ & _ & _ & _ & _ & _ & _ & _ & H & _).
    exact (H 800 eq_refl).
  - destruct (getStats_defaults width_without_height)
      as (_ & _ & _ & _ & _ & _ & _ & _ & _ & _ & _ & _ & _ & _ & _ & _ & _
          & _ & _ & _ & H & _).
    exact (H 800 eq_refl (or_introl eq_refl)).
Defined.

(** C10, as stated, fails in its last part: an image with a width of
    800 and no height has the aspect ratio 800, not 0. *)
Lemma getStats_aspectRatio_counterexample :
  md_height width_without_height = None
  /\ (stats_aspectRatio (stats_of width_without_height) == 800 # 1)%Q
  /\ ~ (stats_aspectRatio (stats_of width_without_height) == 0)%Q.
Proof.
  repeat split. intros H. discriminate H.
Qed.

(** * Further properties of the code *)

(** ** The cache under an advancing clock *)

Lemma map_set_in (k0 : string) (e0 : CacheEntry) (m : JsMap) (x : string * CacheEntry) :
  In x (map_set k0 e0 m) -> x = (k0, e0) \/ In x m.
Proof.
  induction m as [|[k e] m IH]; simpl.
  - intros [<-|[]]. now left.
  - destruct (String.eqb_spec k k0) as [->|Hne]; simpl.
    + intros [<-|Hin]; auto.
    + intros [<-|Hin]; auto. destruct (IH Hin); auto.
Qed.

Lemma map_delete_in (k0 : string) (m : JsMap) (x : string * CacheEntry) :
  In x (map_delete k0 m) -> In x m.
Proof.
  induction m as [|[k e] m IH]; simpl; [tauto|].
  destruct (String.eqb k k0); simpl; tauto.
Qed.

Lemma map_set_length_le (k : string) (e : CacheEntry) (m : JsMap) :
  (List.length (map_set k e m) <= S (List.length m))%nat.
Proof.
  induction m as [|[k' e'] m IH]; simpl; [lia|].
  destruct (String.eqb k' k); simpl; lia.
Qed.

Lemma map_set_length_existing (k : string) (e e0 : CacheEntry) (m : JsMap) :
  map_get k m = Some e0 -> List.length (map_set k e m) = List.length m.
Proof.
  induction m as [|[k' e'] m IH]; simpl; [discriminate|].
  destruct (String.eqb k' k); simpl; [reflexivity|].
  intros H. now rewrite IH.
Qed.

Lemma map_delete_length_le (k : string) (m : JsMap) :
  (List.length (map_delete k m) <= List.length m)%nat.
Proof.
  induction m as [|[k' e'] m IH]; simpl; [lia|].
  destruct (String.eqb k' k); simpl; lia.
Qed.

Lemma removeOldestEntry_in (now : Z) (c : ImageCache) (x : string * CacheEntry) :
  In x (cache (removeOldestEntry now c)) -> In x (cache c).
Proof.
  unfold removeOldestEntry.
  destruct (fst (oldest_scan (cache c) None now)) as [key|]; [|tauto].
  destruct (truthy (JStr key)); [|tauto].
  simpl. apply map_delete_in.
Qed.

Lemma removeOldestEntry_maxSize (now : Z) (c : ImageCache) :
  maxSize (removeOldestEntry now c) = maxSize c.
Proof.
  unfold removeOldestEntry.
  destruct (fst (oldest_scan (cache c) None now)) as [key|]; [|reflexivity].
  now destruct (truthy (JStr key)).
Qed.

Lemma set_maxSize (t_scan t_stamp : Z) (key : string) (value : ProcessedImage)
      (c : ImageCache) :
  maxSize (set t_scan t_stamp key value c) = maxSize c.
Proof.
  unfold set. simpl.
  destruct (maxSize c <=? map_size (cache c)); [|reflexivity].
  apply removeOldestEntry_maxSize.
Qed.

(** Every entry of the cache after a [set] is the new one or was there
    before. *)
Lemma set_in (t_scan t_stamp : Z) (key : string) (value : ProcessedImage)
      (c : ImageCache) (x : string * CacheEntry) :
  In x (cache (set t_scan t_stamp key value c)) ->
  x = (key, {| timestamp := t_stamp; result := value |}) \/ In x (cache c).
Proof.
  unfold set. simpl. intros Hin. apply map_set_in in Hin.
  destruct Hin as [Hin|Hin]; [now left | right].
  destruct (maxSize c <=? map_size (cache c)); [|exact Hin].
  now apply removeOldestEntry_in in Hin.
Qed.

(** With the clock past every stored timestamp, a full cache loses one
    entry to [removeOldestEntry]. *)
Lemma removeOldestEntry_shrinks (now : Z) (c : ImageCache) :
  (forall k, In k (map fst (cache c)) -> k <> EmptyString) ->
  (forall k e, In (k, e) (cache c) -> timestamp e < now) ->
  cache c <> [] ->
  S (List.length (cache (removeOldestEntry now c))) = List.length (cache c).
Proof.
  intros Hkeys Hold Hne.
  destruct (oldest_scan_spec (cache c) None now) as (_ & _ & Hcase).
  destruct Hcase as [[_ Hall]|(k & e & Hin & Hk & _ & _)].
  - destruct (cache c) as [|[k e] m]; [contradiction|].
    specialize (Hall k e (or_introl eq_refl)).
    specialize (Hold k e (or_introl eq_refl)). lia.
  - assert (Hkin : In k (map fst (cache c))) by now apply (in_map fst) in Hin.
    unfold removeOldestEntry. rewrite Hk. simpl.
    destruct (String.eqb_spec k EmptyString) as [->|_].
    + exfalso. now apply (Hkeys EmptyString).
    + simpl. now apply map_delete_length.
Qed.

(** One [set] at a clock value past every stored timestamp keeps the
    cache within its capacity. *)
Lemma set_within_capacity (t : Z) (key : string) (value : ProcessedImage)
      (c : ImageCache) :
  1 <= maxSize c ->
  map_size (cache c) <= maxSize c ->
  (forall k, In k (map fst (cache c)) -> k <> EmptyString) ->
  (forall k e, In (k, e) (cache c) -> timestamp e < t) ->
  map_size (cache (set t t key value c)) <= maxSize c.
Proof.
  intros Hcap Hsize Hkeys Hold. unfold set. simpl.
  destruct (Z.leb_spec (maxSize c) (map_size (cache c))) as [Hfull|Hroom].
  - assert (Hne : cache c <> []).
    { intros E. rewrite E in Hfull. unfold map_size in Hfull. simpl in Hfull. lia. }
    pose proof (removeOldestEntry_shrinks t c Hkeys Hold Hne) as Hlen.
    pose proof (map_set_length_le key {| timestamp := t; result := value |}
                  (cache (removeOldestEntry t c))) as Hset.
    unfold map_size in *. lia.
  - pose proof (map_set_length_le key {| timestamp := t; result := value |}
                  (cache c)) as Hset.
    unfold map_size in *. lia.
Qed.

(** X1.  From a cache within its capacity (at least 1) whose keys are
    non-empty and whose timestamps lie before [t0], any run of [set]s
    with non-empty keys at strictly increasing clock values from [t0]
    on leaves the cache within its capacity. *)
Theorem set_all_within_capacity (ops : list (Z * string * ProcessedImage)) :
  forall (c : ImageCache) (t0 : Z),
    1 <= maxSize c ->
    map_size (cache c) <= maxSize c ->
    (forall k, In k (map fst (cache c)) -> k <> EmptyString) ->
    (forall k e, In (k, e) (cache c) -> timestamp e < t0) ->
    StronglySorted Z.lt (map (fun op => fst (fst op)) ops) ->
    (forall op, In op ops -> t0 <= fst (fst op) /\ snd (fst op) <> EmptyString) ->
    map_size (cache (set_all ops c)) <= maxSize c.
Proof.
  induction ops as [|[[t key] value] ops IH];
    intros c t0 Hcap Hsize Hkeys Hold Hsorted Hops; [exact Hsize|].
  unfold set_all. simpl. fold (set_all ops (set t t key value c)).
  destruct (Hops _ (or_introl eq_refl)) as [Ht Hkey]. simpl in Ht, Hkey.
  simpl in Hsorted. apply StronglySorted_inv in Hsorted.
  destruct Hsorted as [Hsorted Hlater]. rewrite Forall_forall in Hlater.
  rewrite <- (set_maxSize t t key value c).
  apply (IH _ (t + 1)).
  - now rewrite set_maxSize.
  - rewrite set_maxSize. apply set_within_capacity; auto.
    intros k e Hin. specialize (Hold k e Hin). lia.
  - intros k Hin. apply in_map_iff in Hin. destruct Hin as ([k' e] & <- & Hin).
    apply set_in in Hin. destruct Hin as [Heq|Hin].
    + injection Heq as -> _. exact Hkey.
    + apply Hkeys. now apply (in_map fst) in Hin.
  - intros k e Hin. apply set_in in Hin. destruct Hin as [Heq|Hin].
    + injection Heq as _ ->. simpl. lia.
    + specialize (Hold k e Hin). lia.
  - exact Hsorted.
  - intros op Hin. split; [|now apply Hops; right].
    assert (t < fst (fst op))
      by (apply Hlater; apply (in_map (fun op => fst (fst op))); exact Hin).
    lia.
Qed.

Lemma set_all_within_capacity_witness :
  map_size (cache (set_all [(1, "a", png_image 1 1); (2, "b", png_image 2 2);
                            (3, "c", png_image 3 3)]
                           (new_ImageCache (Some 2) None))) <= 2.
Proof.
  apply (set_all_within_capacity
           [(1, "a", png_image 1 1); (2, "b", png_image 2 2); (3, "c", png_image 3 3)]
           (new_ImageCache (Some 2) None) 0).
  - simpl. lia.
  - simpl. unfold map_size. simpl. lia.
  - intros k [].
  - intros k e [].
  - simpl. repeat (constructor; [|repeat constructor; lia]). constructor.
  - simpl. intros op [<-|[<-|[<-|[]]]]; simpl; split; (lia || discriminate).
Defined.

(** X2.  What a [set] of a new key into a full cache does once the
    clock has moved past some stored timestamp.  The scan of
    [removeOldestEntry] selects an entry with the smallest timestamp.
    When the key of that entry is not the empty string, [set] removes
    exactly that entry, stores the new image under the new key with the
    clock's stamp, and leaves every other entry and the size as they
    were.  When it is the empty string, the test [if (oldestKey)] skips
    the deletion: nothing is removed, the new entry is added and the
    cache grows by one. *)
Theorem set_replaces_only_the_oldest (t_scan t_stamp : Z) (key : string)
        (value : ProcessedImage) (c : ImageCache) :
  NoDup (map fst (cache c)) ->
  (exists k e, In (k, e) (cache c) /\ timestamp e < t_scan) ->
  maxSize c <= map_size (cache c) ->
  map_get key (cache c) = None ->
  let c' := set t_scan t_stamp key value c in
  exists k e,
    map_get k (cache c) = Some e
    /\ (forall k' e', In (k', e') (cache c) -> timestamp e <= timestamp e')
    /\ map_get key (cache c') = Some {| timestamp := t_stamp; result := value |}
    /\ (k <> EmptyString ->
        map_get k (cache c') = None
        /\ (forall k', k' <> k -> k' <> key ->
                       map_get k' (cache c') = map_get k' (cache c))
        /\ map_size (cache c') = map_size (cache c))
    /\ (k = EmptyString ->
        (forall k', k' <> key -> map_get k' (cache c') = map_get k' (cache c))
        /\ map_size (cache c') = map_size (cache c) + 1).
Proof.
  intros Hnd (k1 & e1 & Hin1 & Hold) Hfull Hnew c'.
  destruct (oldest_scan_spec (cache c) None t_scan) as (_ & Hmin & Hcase).
  destruct Hcase as [[_ Hall]|(k & e & Hin & Hk & Ht & _)].
  - specialize (Hall _ _ Hin1). lia.
  - exists k, e.
    assert (Hkin : In k (map fst (cache c))) by now apply (in_map fst) in Hin.
    assert (Hne : key <> k).
    { intros ->. apply map_get_none_not_in in Hnew. contradiction. }
    split; [now apply map_get_in|].
    split; [intros k' e' Hin'; rewrite <- Ht; eauto|].
    unfold c', set. apply Z.leb_le in Hfull. rewrite Hfull.
    unfold removeOldestEntry. rewrite Hk. simpl truthy.
    destruct (String.eqb_spec k EmptyString) as [Hk0|Hk0]; simpl.
    + split; [apply map_get_set_same|]. split; [contradiction|]. intros _. split.
      * intros k' Hkey. apply map_get_set_other. congruence.
      * unfold map_size. rewrite map_set_length_new by exact Hnew. lia.
    + split; [apply map_get_set_same|]. split; [|contradiction]. intros _.
      split; [|split].
      * rewrite map_get_set_other by exact Hne.
        now apply map_get_delete_same.
      * intros k' Hk' Hkey.
        rewrite map_get_set_other by congruence.
        apply map_get_delete_other. congruence.
      * unfold map_size. rewrite map_set_length_new.
        -- now rewrite map_delete_length.
        -- rewrite map_get_delete_other by congruence. exact Hnew.
Qed.

Lemma set_replaces_only_the_oldest_witness :
  exists k e,
    map_get k (cache (set 1 1 "a" (png_image 1 1) (new_ImageCache (Some 1) None)))
    = Some e
    /\ map_get "b" (cache (set 2 2 "b" (png_image 2 2)
                             (set 1 1 "a" (png_image 1 1)
                                (new_ImageCache (Some 1) None))))
       = Some {| timestamp := 2; result := png_image 2 2 |}.
Proof.
  destruct (set_replaces_only_the_oldest 2 2 "b" (png_image 2 2)
              (set 1 1 "a" (png_image 1 1) (new_ImageCache (Some 1) None)))
    as (k & e & Hk & _ & Hnew & _).
  - simpl. repeat constructor. intros [].
  - exists "a", {| timestamp := 1; result := png_image 1 1 |}.
    simpl. split; [now left | lia].
  - simpl. unfold map_size. simpl. lia.
  - reflexivity.
  - exists k, e. split; [exact Hk | exact Hnew].
Defined.

(** X3.  [get] never adds an entry, never changes the entry of another
    key, and leaves the limits alone; and when it returns an image the
    cache is exactly as before, timestamp included: the entry it found
    holds that image and has not outlived [maxAge]. *)
Theorem get_frame (c : ImageCache) (now : Z) (key : string) :
  maxSize (snd (get now key c)) = maxSize c
  /\ maxAge (snd (get now key c)) = maxAge c
  /\ map_size (cache (snd (get now key c))) <= map_size (cache c)
  /\ (forall other, other <> key ->
        map_get other (cache (snd (get now key c))) = map_get other (cache c))
  /\ (forall v, fst (get now key c) = Some v ->
        snd (get now key c) = c
        /\ exists e, map_get key (cache c) = Some e /\ result e = v
                     /\ now - timestamp e <= maxAge c).
Proof.
  unfold get. destruct (map_get key (cache c)) as [e|] eqn:He; simpl.
  - destruct (Z.ltb_spec (maxAge c) (now - timestamp e)) as [Hlate|Hearly]; simpl.
    + split; [reflexivity|]. split; [reflexivity|]. split; [|split].
      * pose proof (map_delete_length_le key (cache c)). unfold map_size. lia.
      * intros other Hne. apply map_get_delete_other. congruence.
      * intros v Hv. discriminate Hv.
    + split; [reflexivity|]. split; [reflexivity|]. split; [lia|].
      split; [reflexivity|]. intros v Hv. injection Hv as <-.
      split; [reflexivity|]. exists e. auto.
  - split; [reflexivity|]. split; [reflexivity|]. split; [lia|].
    split; [reflexivity|]. intros v Hv. discriminate Hv.
Qed.

Lemma get_frame_witness :
  map_get "a" (cache (snd (get 5000000 "b"
                             (set 2 2 "b" (png_image 2 2)
                                (set 1 1 "a" (png_image 1 1)
                                   (new_ImageCache None None))))))
  = Some {| timestamp := 1; result := png_image 1 1 |}.
Proof.
  destruct (get_frame (set 2 2 "b" (png_image 2 2)
                         (set 1 1 "a" (png_image 1 1) (new_ImageCache None None)))
                      5000000 "b") as (_ & _ & _ & Hother & _).
  rewrite (Hother "a"); [reflexivity | discriminate].
Defined.

(** X4.  A [set] on a key that is already stored, into a full cache,
    still runs the eviction first.  With the clock past some stored
    timestamp and non-empty keys, the entry with the smallest timestamp
    goes; when that is another key the cache ends one entry smaller
    although nothing new was added, and in either case the key then
    holds the new image with the new timestamp. *)
Theorem set_existing_key_evicts (t_scan t_stamp : Z) (key : string)
        (value : ProcessedImage) (c : ImageCache) (old : CacheEntry) :
  NoDup (map fst (cache c)) ->
  (forall k, In k (map fst (cache c)) -> k <> EmptyString) ->
  (exists k e, In (k, e) (cache c) /\ timestamp e < t_scan) ->
  maxSize c <= map_size (cache c) ->
  map_get key (cache c) = Some old ->
  let c' := set t_scan t_stamp key value c in
  map_get key (cache c') = Some {| timestamp := t_stamp; result := value |}
  /\ exists k e,
       map_get k (cache c) = Some e
       /\ (forall k' e', In (k', e') (cache c) -> timestamp e <= timestamp e')
       /\ (k <> key ->
           map_get k (cache c') = None
           /\ map_size (cache c') = map_size (cache c) - 1)
       /\ (k = key -> map_size (cache c') = map_size (cache c)).
Proof.
  intros Hnd Hkeys (k1 & e1 & Hin1 & Hold) Hfull Hold_key c'.
  split; [unfold c', set; simpl; apply map_get_set_same|].
  destruct (oldest_scan_spec (cache c) None t_scan) as (_ & Hmin & Hcase).
  destruct Hcase as [[_ Hall]|(k & e & Hin & Hk & Ht & _)].
  { specialize (Hall _ _ Hin1). lia. }
  exists k, e.
  assert (Hkin : In k (map fst (cache c))) by now apply (in_map fst) in Hin.
  assert (Hrm : removeOldestEntry t_scan c = with_cache c (map_delete k (cache c))).
  { unfold removeOldestEntry. rewrite Hk. simpl.
    destruct (String.eqb_spec k EmptyString) as [->|_]; [|reflexivity].
    exfalso. now apply (Hkeys EmptyString). }
  assert (Hc' : cache c' = map_set key {| timestamp := t_stamp; result := value |}
                                   (map_delete k (cache c))).
  { unfold c', set. apply Z.leb_le in Hfull. now rewrite Hfull, Hrm. }
  pose proof (map_delete_length k (cache c) Hkin) as Hlen.
  split; [now apply map_get_in|].
  split; [intros k' e' Hin'; rewrite <- Ht; eauto|].
  split.
  - intros Hne. rewrite Hc'. split.
    + rewrite map_get_set_other by congruence. now apply map_get_delete_same.
    + unfold map_size.
      rewrite (map_set_length_existing key _ old).
      * lia.
      * rewrite map_get_delete_other by exact Hne. exact Hold_key.
  - intros ->. rewrite Hc'. unfold map_size.
    rewrite map_set_length_new; [lia|].
    now apply map_get_delete_same.
Qed.

Lemma set_existing_key_evicts_witness :
  map_get "b" (cache (set 3 3 "b" (png_image 9 9)
                        (set 2 2 "b" (png_image 2 2)
                           (set 1 1 "a" (png_image 1 1)
                              (new_ImageCache (Some 2) None)))))
  = Some {| timestamp := 3; result := png_image 9 9 |}
  /\ exists k e,
       map_get k (cache (set 2 2 "b" (png_image 2 2)
                           (set 1 1 "a" (png_image 1 1)
                              (new_ImageCache (Some 2) None)))) = Some e
       /\ timestamp e <= 1.
Proof.
  destruct (set_existing_key_evicts 3 3 "b" (png_image 9 9)
              (set 2 2 "b" (png_image 2 2)
                 (set 1 1 "a" (png_image 1 1) (new_ImageCache (Some 2) None)))
              {| timestamp := 2; result := png_image 2 2 |})
    as (Hnew & k & e & Hk & Hmin & _).
  - simpl. repeat constructor; simpl; intuition discriminate.
  - simpl. intros k [<-|[<-|[]]]; discriminate.
  - exists "a", {| timestamp := 1; result := png_image 1 1 |}.
    simpl. split; [now left | lia].
  - simpl. unfold map_size. simpl. lia.
  - reflexivity.
  - split; [exact Hnew|]. exists k, e. split; [exact Hk|].
    apply (Hmin "a" {| timestamp := 1; result := png_image 1 1 |}).
    simpl. now left.
Defined.

(** ** [process] and the cache *)

Lemma get_maxAge (now : Z) (key : string) (c : ImageCache) :
  maxAge (snd (get now key c)) = maxAge c.
Proof.
  unfold get. destruct (map_get key (cache c)) as [e|]; [|reflexivity].
  now destruct (maxAge c <? now - timestamp e).
Qed.

Lemma get_NoDup (now : Z) (key : string) (c : ImageCache) :
  NoDup (map fst (cache c)) -> NoDup (map fst (cache (snd (get now key c)))).
Proof.
  intros Hnd. unfold get. destruct (map_get key (cache c)) as [e|]; [|exact Hnd].
  destruct (maxAge c <? now - timestamp e); [|exact Hnd].
  simpl. now apply map_delete_NoDup.
Qed.

(** After a miss the key is not in the store. *)
Lemma get_miss_absent (now : Z) (key : string) (c : ImageCache) :
  NoDup (map fst (cache c)) ->
  fst (get now key c) = None ->
  map_get key (cache (snd (get now key c))) = None.
Proof.
  intros Hnd. unfold get. destruct (map_get key (cache c)) as [e|] eqn:He.
  - destruct (maxAge c <? now - timestamp e); simpl; [|discriminate].
    intros _. now apply map_get_delete_same.
  - intros _. exact He.
Qed.

(** A [get] of a key right after its [set], within the TTL, hits. *)
Lemma get_after_set (t_scan t_stamp now : Z) (key : string)
      (value : ProcessedImage) (c : ImageCache) :
  now - t_stamp <= maxAge c ->
  get now key (set t_scan t_stamp key value c)
  = (Some value, set t_scan t_stamp key value c).
Proof.
  intros Hfresh.
  rewrite (get_entry now key _ {| timestamp := t_stamp; result := value |})
    by (unfold set; simpl; apply map_get_set_same).
  rewrite set_maxAge. simpl.
  apply Z.ltb_ge in Hfresh. now rewrite Hfresh.
Qed.

(** X5.  [process] of ImageProcessor.ts, called on an input and options
    the cache has nothing for, with an engine that yields [r]: the call
    returns [r] and hands one pipeline to the engine; a second call
    with the same input and options, made while the entry is no older
    than [maxAge], returns the same [r] and leaves cache and engine log
    untouched, whatever engine it is given. *)
Theorem process_twice_hits_cache (engine engine' : Engine)
        (t1 ts tt t2 ts' tt' : Z) (input : Buffer) (options : jsobject)
        (w : World) (r : ProcessedImage) :
  fst (get t1 (ImageProcessor.cacheKey input options) (imageCache w)) = None ->
  engine (InBuffer input) (ImageProcessor.steps options) = Fulfilled r ->
  t2 - tt <= maxAge (imageCache w) ->
  let first := ImageProcessor.process engine t1 ts tt input options w in
  fst first = Fulfilled r
  /\ engine_log (snd first)
     = (engine_log w ++ [(InBuffer input, ImageProcessor.steps options)])%list
  /\ ImageProcessor.process engine' t2 ts' tt' input options (snd first)
     = (Fulfilled r, snd first).
Proof.
  intros Hmiss Hengine Hfresh first. unfold first, ImageProcessor.process.
  pose proof (get_maxAge t1 (ImageProcessor.cacheKey input options) (imageCache w))
    as Hage.
  destruct (get t1 (ImageProcessor.cacheKey input options) (imageCache w))
    as [cached c1]. simpl in Hmiss, Hage. subst cached.
  rewrite Hengine. simpl. split; [reflexivity|]. split; [reflexivity|].
  rewrite get_after_set by (rewrite Hage; exact Hfresh). reflexivity.
Qed.

Lemma process_twice_hits_cache_witness :
  ImageProcessor.process rejecting_engine 10 10 10 one_byte webp_only
    (snd (ImageProcessor.process (fun _ _ => Fulfilled (png_image 1 1))
            1 1 1 one_byte webp_only fresh_world))
  = (Fulfilled (png_image 1 1),
     snd (ImageProcessor.process (fun _ _ => Fulfilled (png_image 1 1))
            1 1 1 one_byte webp_only fresh_world)).
Proof.
  apply (process_twice_hits_cache (fun _ _ => Fulfilled (png_image 1 1))
           rejecting_engine 1 1 1 10 10 10 one_byte webp_only fresh_world
           (png_image 1 1)).
  - reflexivity.
  - reflexivity.
  - simpl. lia.
Defined.

(** X6.  A failure is never cached.  When [process] of
    ImageProcessor.ts misses the cache and the engine rejects with [e],
    the call rejects with "Failed to process image" tagged "process"
    with [e] as its cause, the key is still not in the cache, and a
    repeated call hands the same pipeline to the engine again. *)
Theorem process_failure_not_cached (engine engine' : Engine)
        (t1 ts tt t2 ts' tt' : Z) (input : Buffer) (options : jsobject)
        (w : World) (e : JsError) :
  NoDup (map fst (cache (imageCache w))) ->
  fst (get t1 (ImageProcessor.cacheKey input options) (imageCache w)) = None ->
  engine (InBuffer input) (ImageProcessor.steps options) = Rejected e ->
  let first := ImageProcessor.process engine t1 ts tt input options w in
  fst first
  = Rejected (ImageProcessingError "Failed to process image" (Some e) (Some "process"))
  /\ map_get (ImageProcessor.cacheKey input options)
             (cache (imageCache (snd first))) = None
  /\ engine_log (snd (ImageProcessor.process engine' t2 ts' tt' input options
                                             (snd first)))
     = (engine_log w ++ [(InBuffer input, ImageProcessor.steps options);
                         (InBuffer input, ImageProcessor.steps options)])%list.
Proof.
  intros Hnd Hmiss Hengine first. unfold first, ImageProcessor.process.
  pose proof (get_miss_absent t1 _ _ Hnd Hmiss) as Habsent.
  destruct (get t1 (ImageProcessor.cacheKey input options) (imageCache w))
    as [cached c1]. simpl in Hmiss, Habsent. subst cached.
  rewrite Hengine. simpl. split; [reflexivity|]. split; [exact Habsent|].
  unfold get. rewrite Habsent. simpl.
  destruct (engine' (InBuffer input) (ImageProcessor.steps options));
    simpl; now rewrite <- app_assoc.
Qed.

Lemma process_failure_not_cached_witness :
  engine_log (snd (ImageProcessor.process rejecting_engine 2 2 2 one_byte webp_only
                     (snd (ImageProcessor.process rejecting_engine 1 1 1
                             one_byte webp_only fresh_world))))
  = [(InBuffer one_byte, ImageProcessor.steps webp_only);
     (InBuffer one_byte, ImageProcessor.steps webp_only)].
Proof.
  apply (process_failure_not_cached rejecting_engine rejecting_engine
           1 1 1 2 2 2 one_byte webp_only fresh_world
           (PlainError "Input Buffer is empty")).
  - constructor.
  - reflexivity.
  - reflexivity.
Defined.

(** ** The truncated key of the queued revision *)

Lemma substring_zero (s : string) : String.substring 0 0 s = EmptyString.
Proof.
  now destruct s.
Qed.

(** The first 32 characters of the base64 text are those of the first
    24 bytes. *)
Lemma base64_head (p t1 t2 : Buffer) :
  List.length p = 24%nat ->
  String.substring 0 32 (to_base64 (p ++ t1)%list)
  = String.substring 0 32 (to_base64 (p ++ t2)%list).
Proof.
  intros Hlen.
  do 24 (destruct p as [|? p]; [discriminate Hlen|]).
  destruct p; [|discriminate Hlen].
  cbn [app to_base64 String.substring]. now rewrite !substring_zero.
Qed.

Lemma getCacheKey_head (p t1 t2 : Buffer) (options : jsobject) :
  List.length p = 24%nat ->
  Queued.getCacheKey (InBuffer (p ++ t1)%list) options
  = Queued.getCacheKey (InBuffer (p ++ t2)%list) options.
Proof.
  intros Hlen. unfold Queued.getCacheKey. now rewrite (base64_head p t1 t2 Hlen).
Qed.

(** X7.  [getCacheKey] reads 32 base64 characters of a buffer, that is
    its first 24 bytes: two buffers that agree on their first 24 bytes
    get the same cache key under the same options, whatever follows and
    however long they are. *)
Theorem getCacheKey_ignores_tail (p t1 t2 : Buffer) (options : jsobject) :
  List.length p = 24%nat ->
  Queued.getCacheKey (InBuffer (p ++ t1)%list) options
  = Queued.getCacheKey (InBuffer (p ++ t2)%list) options
  /\ Queued.getCacheKey (InBuffer (p ++ t1)%list) options
     = (String.substring 0 32 (to_base64 p) ++ "-" ++ JSON_stringify (JObj options))%string.
Proof.
  intros Hlen. split; [now apply getCacheKey_head|].
  rewrite <- (app_nil_r p) at 2.
  unfold Queued.getCacheKey. now rewrite (base64_head p t1 [] Hlen).
Qed.

Lemma getCacheKey_ignores_tail_witness :
  Queued.getCacheKey (InBuffer (png_100x100_head ++ one_byte)%list) webp_only
  = Queued.getCacheKey (InBuffer (png_100x100_head ++ two_bytes)%list) webp_only.
Proof.
  apply (getCacheKey_ignores_tail png_100x100_head one_byte two_bytes webp_only).
  reflexivity.
Defined.

Lemma validateInput_long_buffer (p t : Buffer) :
  List.length p = 24%nat -> Queued.validateInput (InBuffer (p ++ t)%list) = None.
Proof.
  intros Hlen. unfold Queued.validateInput.
  rewrite length_app, Hlen. reflexivity.
Qed.

(** X8.  In the queued revision, once [process] has produced [r] for a
    buffer, a call on any other buffer with the same first 24 bytes and
    the same options, made while the entry is no older than [maxAge],
    is answered from the cache with that same [r]: the engine is not
    consulted for the second buffer. *)
Theorem process_serves_colliding_buffer (engine engine' : Engine)
        (t1 ts tt t2 ts' tt' : Z) (p tail1 tail2 : Buffer) (options : jsobject)
        (w : World) (r : ProcessedImage) :
  List.length p = 24%nat ->
  fst (get t1 (Queued.getCacheKey (InBuffer (p ++ tail1)%list) options)
           (imageCache w)) = None ->
  engine (InBuffer (p ++ tail1)%list) (Queued.steps options) = Fulfilled r ->
  t2 - tt <= maxAge (imageCache w) ->
  let first := Queued.process engine t1 ts tt (InBuffer (p ++ tail1)%list)
                              options w in
  fst first = Fulfilled r
  /\ Queued.process engine' t2 ts' tt' (InBuffer (p ++ tail2)%list) options
                    (snd first)
     = (Fulfilled r, snd first).
Proof.
  intros Hlen Hmiss Hengine Hfresh first. unfold first, Queued.process.
  rewrite !(validateInput_long_buffer p) by exact Hlen.
  rewrite (getCacheKey_head p tail2 tail1 options Hlen).
  pose proof (get_maxAge t1 (Queued.getCacheKey (InBuffer (p ++ tail1)%list) options)
                (imageCache w)) as Hage.
  destruct (get t1 (Queued.getCacheKey (InBuffer (p ++ tail1)%list) options)
                (imageCache w)) as [cached c1].
  simpl in Hmiss, Hage. subst cached.
  rewrite Hengine. simpl. split; [reflexivity|].
  rewrite get_after_set by (rewrite Hage; exact Hfresh). reflexivity.
Qed.

Lemma process_serves_colliding_buffer_witness :
  Queued.process rejecting_engine 5 5 5
    (InBuffer (png_100x100_head ++ two_bytes)%list) webp_only
    (snd (Queued.process (fun _ _ => Fulfilled (png_image 100 100)) 1 1 1
            (InBuffer (png_100x100_head ++ one_byte)%list) webp_only fresh_world))
  = (Fulfilled (png_image 100 100),
     snd (Queued.process (fun _ _ => Fulfilled (png_image 100 100)) 1 1 1
            (InBuffer (png_100x100_head ++ one_byte)%list) webp_only fresh_world)).
Proof.
  apply (process_serves_colliding_buffer
           (fun _ _ => Fulfilled (png_image 100 100)) rejecting_engine
           1 1 1 5 5 5 png_100x100_head one_byte two_bytes webp_only
           fresh_world (png_image 100 100)).
  - reflexivity.
  - reflexivity.
  - reflexivity.
  - simpl. lia.
Defined.

(** ** Decimal texts and what follows them *)

Lemma string_of_uint_delimited (d1 : Decimal.uint) :
  forall (d2 : Decimal.uint) (c1 c2 : ascii) (r1 r2 : string),
    is_digit c1 = false -> is_digit c2 = false ->
    NilEmpty.string_of_uint d1 ++ String c1 r1
    = NilEmpty.string_of_uint d2 ++ String c2 r2 ->
    d1 = d2 /\ c1 = c2 /\ r1 = r2.
Proof.
  induction d1; intros d2 c1 c2 r1 r2 Hc1 Hc2 Heq; destruct d2; simpl in Heq;
    try discriminate Heq;
    try (injection Heq as Hr;
         destruct (IHd1 _ _ _ _ _ Hc1 Hc2 Hr) as (-> & -> & ->);
         repeat split; fail);
    injection Heq as Hc Hr; subst;
    try discriminate Hc1; try discriminate Hc2; repeat split.
Qed.

Lemma delimiter_spec (c : ascii) :
  delimiter c = true -> is_digit c = false /\ c <> "-"%char.
Proof.
  unfold delimiter. intros H. apply andb_prop in H. destruct H as [Hd Hm].
  apply negb_true_iff in Hd, Hm. split; [exact Hd|].
  now apply Ascii.eqb_neq.
Qed.

(** The decimal text of an integer, followed by a character that is
    neither a digit nor a minus sign, determines the integer and all
    that follows. *)
Lemma show_Z_delimited (n m : Z) (c1 c2 : ascii) (r1 r2 : string) :
  delimiter c1 = true -> delimiter c2 = true ->
  show_Z n ++ String c1 r1 = show_Z m ++ String c2 r2 ->
  n = m /\ c1 = c2 /\ r1 = r2.
Proof.
  intros H1 H2 Heq.
  destruct (delimiter_spec c1 H1) as [Hd1 Hm1].
  destruct (delimiter_spec c2 H2) as [Hd2 Hm2].
  unfold show_Z in Heq.
  destruct (Z.to_int n) as [d|d] eqn:En, (Z.to_int m) as [d'|d'] eqn:Em;
    simpl in Heq.
  - destruct (string_of_uint_delimited d d' c1 c2 r1 r2 Hd1 Hd2 Heq)
      as (-> & -> & ->).
    repeat split. apply DecimalZ.to_int_inj. congruence.
  - exfalso. destruct d; simpl in Heq; try discriminate Heq.
    injection Heq as Hc _. contradiction.
  - exfalso. destruct d'; simpl in Heq; try discriminate Heq.
    injection Heq as Hc _. symmetry in Hc. contradiction.
  - injection Heq as Heq.
    destruct (string_of_uint_delimited d d' c1 c2 r1 r2 Hd1 Hd2 Heq)
      as (-> & -> & ->).
    repeat split. apply DecimalZ.to_int_inj. congruence.
Qed.

(** The decimal text of an integer starts with a digit or a minus
    sign. *)
Lemma show_Z_head (n : Z) :
  exists c s, show_Z n = String c s /\ delimiter c = false.
Proof.
  unfold show_Z. destruct (Z.to_int n) as [d|d] eqn:En; simpl.
  - destruct d; simpl; try (eexists; eexists; split; [reflexivity|reflexivity]).
    exfalso. pose proof (f_equal Z.of_int En) as Hn.
    rewrite DecimalZ.of_to in Hn. simpl in Hn. subst n. discriminate En.
  - eexists. eexists. split; reflexivity.
Qed.

Lemma concat_cons_app (a : string) (l : list string) (r : string) :
  String.concat "," (a :: l) ++ r
  = a ++ match l with
         | [] => r
         | _ :: _ => String "," (String.concat "," l ++ r)
         end.
Proof.
  destruct l as [|b l]; simpl; [reflexivity|].
  now rewrite str_app_assoc.
Qed.

(** A comma-separated list of integers, closed by a character that is
    not part of it, determines the integers. *)
Lemma concat_show_Z_delimited (l1 : list Z) :
  forall (l2 : list Z) (c1 c2 : ascii) (r1 r2 : string),
    delimiter c1 = true -> delimiter c2 = true ->
    c1 <> ","%char -> c2 <> ","%char ->
    String.concat "," (map show_Z l1) ++ String c1 r1
    = String.concat "," (map show_Z l2) ++ String c2 r2 ->
    l1 = l2 /\ c1 = c2 /\ r1 = r2.
Proof.
  induction l1 as [|x l1 IH]; intros [|y l2] c1 c2 r1 r2 H1 H2 Hn1 Hn2 Heq.
  - simpl in Heq. injection Heq as -> ->. auto.
  - exfalso. cbn [map] in Heq. rewrite concat_cons_app in Heq.
    destruct (show_Z_head y) as (c & s & Hy & Hc). rewrite Hy in Heq.
    simpl in Heq. injection Heq as -> _. congruence.
  - exfalso. cbn [map] in Heq. rewrite concat_cons_app in Heq.
    destruct (show_Z_head x) as (c & s & Hx & Hc). rewrite Hx in Heq.
    simpl in Heq. injection Heq as <- _. congruence.
  - cbn [map] in Heq. rewrite !concat_cons_app in Heq.
    destruct l1 as [|x' l1], l2 as [|y' l2]; cbn [map] in Heq.
    + destruct (show_Z_delimited _ _ _ _ _ _ H1 H2 Heq) as (-> & -> & ->). auto.
    + exfalso.
      destruct (show_Z_delimited x y c1 "," r1 _ H1 eq_refl Heq) as (_ & Hc & _).
      contradiction.
    + exfalso.
      destruct (show_Z_delimited x y "," c2 _ r2 eq_refl H2 Heq) as (_ & Hc & _).
      symmetry in Hc. contradiction.
    + destruct (show_Z_delimited x y "," "," _ _ eq_refl eq_refl Heq)
        as (-> & _ & Hrest).
      destruct (IH (y' :: l2) c1 c2 r1 r2 H1 H2 Hn1 Hn2 Hrest) as (Hl & -> & ->).
      rewrite Hl. auto.
Qed.

Lemma byte_values_inj (b1 b2 : Buffer) :
  map (fun x => Z.of_N (Byte.to_N x)) b1 = map (fun x => Z.of_N (Byte.to_N x)) b2 ->
  b1 = b2.
Proof.
  revert b2. induction b1 as [|x b1 IH]; intros [|y b2] H; try discriminate H.
  - reflexivity.
  - simpl in H. injection H as Hxy Hrest. f_equal; [|now apply IH].
    apply N2Z.inj in Hxy.
    assert (Hs : Some x = Some y)
      by (rewrite <- (Byte.of_to_N x), <- (Byte.of_to_N y); now rewrite Hxy).
    now injection Hs.
Qed.

(** The text [JSON.stringify] writes for a buffer, split at the byte
    list. *)
Lemma ImageProcessor_cacheKey_bytes (input : Buffer) (options : jsobject) :
  exists P R,
    (forall b o,
       ImageProcessor.cacheKey b o
       = P ++ String.concat "," (map show_Z (map (fun x => Z.of_N (Byte.to_N x)) b))
           ++ String "]" (R o)).
Proof.
  exists ("{" ++ quote "input" ++ ":" ++ "{" ++ quote "type" ++ ":" ++ quote "Buffer"
          ++ "," ++ quote "data" ++ ":" ++ "["),
         (fun o => "}" ++ "," ++ quote "options" ++ ":" ++ JSON_stringify (JObj o) ++ "}").
  intros b o. unfold ImageProcessor.cacheKey, JSON_stringify, Buffer_toJSON.
  cbn [serialize]. rewrite !map_map. cbn [serialize String.concat].
  rewrite !str_app_assoc. cbn [append]. rewrite ?str_app_assoc. reflexivity.
Qed.

(** X9.  The cache key of [process] in ImageProcessor.ts carries every
    byte of the input: calls on different buffers never share a key,
    whatever their options. *)
Theorem cacheKey_determines_input (b1 b2 : Buffer) (o1 o2 : jsobject) :
  b1 <> b2 -> ImageProcessor.cacheKey b1 o1 <> ImageProcessor.cacheKey b2 o2.
Proof.
  intros Hne H. apply Hne.
  destruct (ImageProcessor_cacheKey_bytes b1 o1) as (P & R & Hkey).
  rewrite !Hkey in H. apply str_app_inv_head in H.
  apply concat_show_Z_delimited in H; try reflexivity; try discriminate.
  destruct H as [H _]. now apply byte_values_inj.
Qed.

Lemma cacheKey_determines_input_witness :
  ImageProcessor.cacheKey (png_100x100_head ++ one_byte)%list webp_only
  <> ImageProcessor.cacheKey (png_100x100_head ++ two_bytes)%list webp_only.
Proof.
  apply (cacheKey_determines_input (png_100x100_head ++ one_byte)%list
           (png_100x100_head ++ two_bytes)%list webp_only webp_only).
  intros H. discriminate H.
Defined.

(** ** The dominant colour *)

Lemma rgb_string_inj (r g b r' g' b' : Z) :
  rgb_string r g b = rgb_string r' g' b' -> (r, g, b) = (r', g', b').
Proof.
  unfold rgb_string. intros H. simpl in H. injection H as H.
  apply show_Z_delimited in H; try reflexivity. destruct H as (-> & _ & H).
  injection H as H.
  apply show_Z_delimited in H; try reflexivity. destruct H as (-> & _ & H).
  injection H as H.
  apply show_Z_delimited in H; try reflexivity. destruct H as (-> & _ & _).
  reflexivity.
Qed.

(** X10.  The string [getDominantColor] returns determines the colour:
    different colours get different texts, in processors/analyze.ts and
    in ImageProcessor.ts alike; a failure of the probe is passed on by
    the former and wrapped with the operation "getDominantColor" by the
    latter. *)
Theorem getDominantColor_faithful (c1 c2 : Z * Z * Z) (e : JsError) :
  (c1 <> c2 ->
   ImageAnalyzer_getDominantColor (Fulfilled c1)
   <> ImageAnalyzer_getDominantColor (Fulfilled c2)
   /\ ImageProcessor.getDominantColor (Fulfilled c1)
      <> ImageProcessor.getDominantColor (Fulfilled c2))
  /\ ImageAnalyzer_getDominantColor (Rejected e) = Rejected e
  /\ ImageProcessor.getDominantColor (Rejected e)
     = Rejected (ImageProcessingError "Failed to get dominant color" (Some e)
                   (Some "getDominantColor")).
Proof.
  destruct c1 as [[r g] b], c2 as [[r' g'] b'].
  split; [|split; reflexivity].
  intros Hne.
  split; intros H; apply Hne;
    cbn [ImageAnalyzer_getDominantColor ImageProcessor.getDominantColor
         ImageProcessor.wrap] in H;
    apply rgb_string_inj; congruence.
Qed.

Lemma getDominantColor_faithful_witness :
  ImageProcessor.getDominantColor (Fulfilled (255, 0, 0))
  <> ImageProcessor.getDominantColor (Fulfilled (25, 50, 0)).
Proof.
  apply (getDominantColor_faithful (255, 0, 0) (25, 50, 0) (PlainError "unused")).
  intros H. discriminate H.
Defined.

(** ** Validation and errors in the queued revision *)

Lemma trimStart_nonblank (s : string) :
  blank s = false ->
  exists c s', trimStart s = String c s' /\ is_space c = false.
Proof.
  induction s as [|c s IH]; simpl; [discriminate|].
  destruct (is_space c) eqn:Ec; simpl; [exact IH|]. eauto.
Qed.

Lemma trimStart_ends_nonspace (x : string) (c : ascii) :
  is_space c = false -> trimStart (x ++ String c EmptyString) <> EmptyString.
Proof.
  intros Hc. induction x as [|a x IH]; simpl.
  - rewrite Hc. discriminate.
  - destruct (is_space a); [exact IH | discriminate].
Qed.

Lemma rev_string_nonempty (s : string) : s <> EmptyString -> rev_string s <> EmptyString.
Proof.
  destruct s as [|c s]; [congruence|]. intros _. simpl.
  destruct (rev_string s); discriminate.
Qed.

Lemma trim_nonblank (s : string) : blank s = false -> trim s <> EmptyString.
Proof.
  intros H. destruct (trimStart_nonblank s H) as (c & s' & Hs & Hc).
  unfold trim. rewrite Hs. simpl.
  apply rev_string_nonempty. now apply trimStart_ends_nonspace.
Qed.

(** X11.  [validateInput] has exactly two complaints: it throws for
    the empty buffer and for a string of white space only (the empty
    string included), and accepts every other buffer and string. *)
Theorem validateInput_rejects_exactly (input : Input) :
  (Queued.validateInput input = None
   <-> match input with
       | InBuffer b => b <> []
       | InString s => blank s = false
       end)
  /\ (forall err, Queued.validateInput input = Some err ->
        err = match input with
              | InBuffer _ => ImageProcessingError "Empty buffer provided" None None
              | InString _ => ImageProcessingError "Empty string provided" None None
              end).
Proof.
  destruct input as [b|s]; simpl.
  - split.
    + destruct b; simpl; split; congruence.
    + intros err. destruct b; simpl; congruence.
  - destruct (blank s) eqn:Hb.
    + rewrite (trim_blank s Hb). simpl. split; [split; discriminate | congruence].
    + pose proof (trim_nonblank s Hb) as Hne.
      apply String.eqb_neq in Hne. rewrite Hne. simpl.
      split; [split; reflexivity | discriminate].
Qed.

(** The pipeline of the queued [process] when only a format and a
    quality are given. *)
Lemma Queued_steps_format_only (format : jsval) (q : Z) :
  Queued.steps [("format", format); ("quality", JNum q)]
  = when (truthy format) (ToFormat format (JNum q)).
Proof.
  reflexivity.
Qed.

(** X12.  [convert] of the queued revision.  An input that fails
    validation is rejected with "Failed to convert image" tagged
    "convert image", the validation error as its cause, and nothing
    else happens.  For a valid input that misses the cache the engine
    is handed exactly one encode step, with the given quality or with
    80 when none is given. *)
Theorem convert_pipeline (engine : Engine) (t_get t_scan t_stamp : Z)
        (input : Input) (format : jsval) (quality : option Z) (w : World) :
  let q := match quality with Some q => q | None => 80 end in
  (forall err, Queued.validateInput input = Some err ->
     Queued.convert engine t_get t_scan t_stamp input format quality w
     = (Rejected (ImageProcessingError "Failed to convert image" (Some err)
                    (Some "convert image")), w))
  /\ (Queued.validateInput input = None ->
      truthy format = true ->
      fst (get t_get (Queued.getCacheKey input [("format", format); ("quality", JNum q)])
               (imageCache w)) = None ->
      engine_log (snd (Queued.convert engine t_get t_scan t_stamp input format
                                      quality w))
      = (engine_log w ++ [(input, [ToFormat format (JNum q)])])%list).
Proof.
  intros q. unfold Queued.convert. fold q. split.
  - intros err Hv. now rewrite Hv.
  - intros Hv Hf Hmiss. rewrite Hv. unfold Queued.process. rewrite Hv.
    destruct (get t_get _ (imageCache w)) as [cached c1]. simpl in Hmiss.
    subst cached. rewrite Queued_steps_format_only, Hf. simpl.
    destruct (engine input [ToFormat format (JNum q)]); reflexivity.
Qed.

Lemma convert_pipeline_witness :
  engine_log (snd (Queued.convert rejecting_engine 1 1 1 (InBuffer one_byte)
                                  (JStr "webp") None fresh_world))
  = [(InBuffer one_byte, [ToFormat (JStr "webp") (JNum 80)])].
Proof.
  apply (convert_pipeline rejecting_engine 1 1 1 (InBuffer one_byte)
           (JStr "webp") None fresh_world).
  - reflexivity.
  - reflexivity.
  - reflexivity.
Defined.

Lemma root_cause_validation (input : Input) (err : JsError) :
  Queued.validateInput input = Some err -> root_cause err = err.
Proof.
  destruct input as [b|s]; simpl.
  - destruct (Nat.eqb (List.length b) 0); [|discriminate]. now intros [= <-].
  - destruct (negb _); [|discriminate]. now intros [= <-].
Qed.

(** X13.  Errors of the queued revision keep their origin.  Whenever
    [process] rejects, the rejection is tagged "process image" and the
    bottom of its cause chain is the validation error or the bottom of
    the chain of the engine's error; whenever [convert] rejects, the
    rejection is tagged "convert image" and bottoms out in the same
    way. *)
Theorem rejections_keep_their_cause (engine : Engine) (t_get t_scan t_stamp : Z)
        (input : Input) (options : jsobject) (format : jsval)
        (quality : option Z) (w : World) (err : JsError) :
  (fst (Queued.process engine t_get t_scan t_stamp input options w) = Rejected err ->
   operation_of err = Some "process image"
   /\ (Queued.validateInput input = Some (root_cause err)
       \/ exists e, engine input (Queued.steps options) = Rejected e
                    /\ root_cause err = root_cause e))
  /\ (fst (Queued.convert engine t_get t_scan t_stamp input format quality w)
      = Rejected err ->
      operation_of err = Some "convert image"
      /\ (Queued.validateInput input = Some (root_cause err)
          \/ exists e steps, engine input steps = Rejected e
                             /\ root_cause err = root_cause e)).
Proof.
  assert (Hprocess : forall options err,
             fst (Queued.process engine t_get t_scan t_stamp input options w)
             = Rejected err ->
             operation_of err = Some "process image"
             /\ (Queued.validateInput input = Some (root_cause err)
                 \/ exists e, engine input (Queued.steps options) = Rejected e
                              /\ root_cause err = root_cause e)).
  { clear options err. intros options err. unfold Queued.process.
    destruct (Queued.validateInput input) as [v|] eqn:Hv.
    - simpl. intros [= <-]. split; [reflexivity|]. left. simpl.
      now rewrite (root_cause_validation input v Hv).
    - destruct (get t_get _ (imageCache w)) as [[r|] c1]; simpl; [discriminate|].
      destruct (engine input (Queued.steps options)) as [r|e] eqn:He; simpl;
        [discriminate|].
      intros [= <-]. split; [reflexivity|]. right. exists e. now split. }
  split; [apply Hprocess|].
  unfold Queued.convert.
  destruct (Queued.validateInput input) as [v|] eqn:Hv.
  - simpl. intros [= <-]. split; [reflexivity|]. left. simpl.
    now rewrite (root_cause_validation input v Hv).
  - pose proof (Hprocess [("format", format);
                          ("quality", JNum match quality with Some q => q | None => 80 end)])
      as Hp.
    destruct (Queued.process engine t_get t_scan t_stamp input _ w) as [[r|e'] w'];
      simpl in *; [discriminate|].
    intros [= <-]. split; [reflexivity|].
    destruct (Hp e' eq_refl) as [_ [Hval|(e & He & Hroot)]].
    + congruence.
    + right. exists e. eexists. split; [exact He | exact Hroot].
Qed.

Lemma rejections_keep_their_cause_witness :
  operation_of
    (ImageProcessingError "Failed to process image"
       (Some (PlainError "Input Buffer is empty")) (Some "process image"))
  = Some "process image".
Proof.
  apply (rejections_keep_their_cause rejecting_engine 1 1 1 (InBuffer one_byte)
           webp_only (JStr "webp") None fresh_world
           (ImageProcessingError "Failed to process image"
              (Some (PlainError "Input Buffer is empty")) (Some "process image"))).
  reflexivity.
Defined.

(** ** avatar.ts *)

(** X14.  [createAvatar] hands the engine one pipeline: a resize to a
    square whose side is [options.size || 100], a mask that is a
    rectangle of the same side with corner radii of half the side, and
    a PNG encode with quality 100 and compression level 9; what the
    engine yields for it is returned.  For a [size] that is a number or
    left out the side is the given number when it is not 0 and 100
    otherwise, so never 0.  And it does not pass the engine's error
    on: whatever the engine throws, [createAvatar] throws a new
    "Failed to create avatar", so the error [Sharpify.createAvatar]
    reports is tagged "createAvatar" and its cause chain ends in that
    new error. *)
Theorem createAvatar_size_and_errors (engine : Avatar.AvatarEngine)
        (input : Buffer) (options : jsobject) :
  let p := Avatar.pipeline_of options in
  let size := Avatar.size_of options in
  (optional_number (get_prop options "size") = true -> size <> 0)
  /\ (forall n, get_prop options "size" = JNum n -> n <> 0 -> size = n)
  /\ (truthy (get_prop options "size") = false -> size = 100)
  /\ (Avatar.resize_width p = size
      /\ Avatar.resize_height p = size
      /\ Avatar.mask_width p = size
      /\ Avatar.mask_height p = size
      /\ (2 * Avatar.mask_rx p == inject_Z size)%Q
      /\ (2 * Avatar.mask_ry p == inject_Z size)%Q
      /\ Avatar.png_quality p = 100
      /\ Avatar.png_compressionLevel p = 9)
  /\ (forall r, engine input p = Fulfilled r ->
        Avatar.createAvatar engine input options = Fulfilled r
        /\ Avatar.Sharpify_createAvatar engine input options = Fulfilled r)
  /\ (forall e, engine input p = Rejected e ->
        Avatar.createAvatar engine input options
        = Rejected (PlainError "Failed to create avatar")
        /\ Avatar.Sharpify_createAvatar engine input options
           = Rejected (ImageProcessingError "Failed to create avatar"
                         (Some (PlainError "Failed to create avatar"))
                         (Some "createAvatar")))
  /\ (forall err, Avatar.Sharpify_createAvatar engine input options = Rejected err ->
        operation_of err = Some "createAvatar"
        /\ root_cause err = PlainError "Failed to create avatar").
Proof.
  intros p size. unfold p, size.
  split; [|split; [|split; [|split; [|split; [|split]]]]].
  - unfold Avatar.size_of, js_or.
    destruct (get_prop options "size") as [| |[]|n|s| |]; simpl; try discriminate.
    intros _. destruct (Z.eqb_spec n 0); simpl; [discriminate | assumption].
  - intros n Hn Hnz. unfold Avatar.size_of, js_or. rewrite Hn. simpl.
    destruct (Z.eqb_spec n 0); [contradiction | reflexivity].
  - intros Hf. unfold Avatar.size_of, js_or. now rewrite Hf.
  - cbn [Avatar.pipeline_of Avatar.resize_width Avatar.resize_height
         Avatar.mask_width Avatar.mask_height Avatar.mask_rx Avatar.mask_ry
         Avatar.png_quality Avatar.png_compressionLevel].
    repeat split; field.
  - intros r Hr. unfold Avatar.Sharpify_createAvatar, Avatar.createAvatar.
    rewrite Hr. split; reflexivity.
  - intros e He. unfold Avatar.Sharpify_createAvatar, Avatar.createAvatar.
    rewrite He. split; reflexivity.
  - intros err. unfold Avatar.Sharpify_createAvatar, Avatar.createAvatar.
    destruct (engine input (Avatar.pipeline_of options)); simpl; [discriminate|].
    intros [= <-]. split; reflexivity.
Qed.

Lemma createAvatar_size_and_errors_witness :
  Avatar.resize_width (Avatar.pipeline_of [("size", JNum 64)]) = 64
  /\ Avatar.mask_height (Avatar.pipeline_of [("size", JNum 64)]) = 64
  /\ Avatar.size_of [("size", JNum 0)] = 100.
Proof.
  destruct (createAvatar_size_and_errors (fun _ _ => Rejected (PlainError "x"))
              one_byte [("size", JNum 64)])
    as (_ & Hgiven & _ & (Hw & _ & _ & Hh & _) & _).
  destruct (createAvatar_size_and_errors (fun _ _ => Rejected (PlainError "x"))
              one_byte [("size", JNum 0)]) as (_ & _ & Hdefault & _).
  split; [|split].
  - rewrite Hw. apply (Hgiven 64); [reflexivity | discriminate].
  - rewrite Hh. apply (Hgiven 64); [reflexivity | discriminate].
  - apply Hdefault. reflexivity.
Defined.

(** ** Contrast *)

Lemma in_when (s : Step) (b : bool) (x : Step) :
  In s (when b x) -> b = true /\ s = x.
Proof.
  destruct b; simpl; [|contradiction]. intros [H|[]]. now split.
Qed.

Lemma in_linear_step (a b : Z) (v : jsval) :
  In (Linear a b) (linear_step v) -> v = JNum a /\ a * 128 + b = 128.
Proof.
  destruct v; simpl; try contradiction.
  intros [[= -> <-]|[]]. split; [reflexivity | lia].
Qed.

Ltac linear_member H :=
  repeat (apply in_app_or in H; destruct H as [H|H]);
  try (apply in_when in H; destruct H as [_ H]; discriminate H);
  try (match type of H with
       | In _ (if ?c then linear_step _ else []) =>
           destruct c; [now apply in_linear_step in H | contradiction]
       | In _ (if ?c then [_] else _) =>
           destruct c;
           [destruct H as [H|[]]; discriminate H
           | apply in_when in H; destruct H as [_ H]; discriminate H]
       end).

(** X15.  Contrast is a linear map about middle grey.  In every
    revision the only [linear] step of a pipeline has the [contrast]
    option as its slope and sends 128 to 128.  The revisions differ on
    contrast 0: [process] of ImageProcessor.ts tests
    [typeof contrast === 'number'] and flattens the image with
    [linear(0, 128)], the queued revision tests the value's truth and
    applies no [linear] step at all. *)
Theorem contrast_fixes_middle_grey (options : jsobject) :
  (forall a b,
      In (Linear a b) (ImageProcessor.steps options)
      \/ In (Linear a b) (Aspect.steps options)
      \/ In (Linear a b) (Queued.steps options)
      \/ (exists br sa co, In (Linear a b) (ImageEffects_adjust br sa co)
                           /\ co = get_prop options "contrast") ->
      get_prop options "contrast" = JNum a /\ a * 128 + b = 128)
  /\ (forall c, get_prop options "contrast" = JNum c ->
        In (Linear c (128 - 128 * c)) (ImageProcessor.steps options)
        /\ In (Linear c (128 - 128 * c)) (Aspect.steps options)
        /\ (c <> 0 -> In (Linear c (128 - 128 * c)) (Queued.steps options)))
  /\ (get_prop options "contrast" = JNum 0 ->
      forall a b, ~ In (Linear a b) (Queued.steps options)).
Proof.
  assert (HQ : forall a b, In (Linear a b) (Queued.steps options) ->
                truthy (get_prop options "contrast") = true
                /\ get_prop options "contrast" = JNum a /\ a * 128 + b = 128).
  { intros a b H. unfold Queued.steps in H. cbv zeta in H.
    repeat (apply in_app_or in H; destruct H as [H|H]);
      try (apply in_when in H; destruct H as [_ H]; discriminate H).
    destruct (truthy (get_prop options "contrast")); [|contradiction].
    split; [reflexivity | now apply in_linear_step]. }
  split; [|split].
  - intros a b [H|[H|[H|(br & sa & co & H & ->)]]].
    + unfold ImageProcessor.steps in H. cbv zeta in H. linear_member H.
    + unfold Aspect.steps, Aspect.applyProcessingOptions in H. cbv zeta in H.
      linear_member H.
    + now apply HQ.
    + unfold ImageEffects_adjust in H. linear_member H.
  - intros c Hc.
    assert (E : - (c - 1) * 128 = 128 - 128 * c) by lia.
    split; [|split].
    + unfold ImageProcessor.steps. cbv zeta. rewrite Hc. simpl is_number.
      cbn [linear_step]. rewrite E.
      repeat (apply in_or_app; first [left; now left | right]).
    + unfold Aspect.steps, Aspect.applyProcessingOptions. cbv zeta.
      rewrite Hc. simpl is_number. cbn [linear_step]. rewrite E.
      apply in_or_app. left.
      repeat (apply in_or_app; first [left; now left | right]).
    + intros Hnz. unfold Queued.steps. cbv zeta. rewrite Hc.
      replace (truthy (JNum c)) with true
        by (simpl; destruct (Z.eqb_spec c 0); [contradiction | reflexivity]).
      cbn [linear_step]. rewrite E.
      repeat (apply in_or_app; first [left; now left | right]).
  - intros Hc a b H. destruct (HQ a b H) as [Ht _].
    rewrite Hc in Ht. discriminate.
Qed.

Lemma contrast_fixes_middle_grey_witness :
  In (Linear 0 128) (ImageProcessor.steps [("contrast", JNum 0)])
  /\ ~ In (Linear 0 128) (Queued.steps [("contrast", JNum 0)]).
Proof.
  destruct (contrast_fixes_middle_grey [("contrast", JNum 0)]) as (_ & Hin & Hout).
  split.
  - apply (Hin 0). reflexivity.
  - apply Hout. reflexivity.
Defined.

(** ** processors/effects.ts *)

(** X16.  For a contrast that is a number or left out, and a
    brightness and saturation that are both numbers or both left out,
    [ImageEffects.adjust] builds the pipeline [process] of
    ImageProcessor.ts builds from the options [{ brightness,
    saturation, contrast }]: one [modulate] when brightness and
    saturation are given, then one [linear] when contrast is. *)
Theorem adjust_is_process (brightness saturation contrast : jsval) :
  optional_number brightness = true ->
  optional_number saturation = true ->
  optional_number contrast = true ->
  is_number brightness = is_number saturation ->
  ImageEffects_adjust brightness saturation contrast
  = ImageProcessor.steps [("brightness", brightness);
                          ("saturation", saturation);
                          ("contrast", contrast)].
Proof.
  intros Hb Hs Hc _.
  destruct brightness; try discriminate Hb;
    destruct saturation; try discriminate Hs;
    destruct contrast; try discriminate Hc; reflexivity.
Qed.

Lemma adjust_is_process_witness :
  ImageEffects_adjust (JNum 2) (JNum 1) (JNum 3)
  = ImageProcessor.steps [("brightness", JNum 2);
                          ("saturation", JNum 1);
                          ("contrast", JNum 3)].
Proof.
  apply (adjust_is_process (JNum 2) (JNum 1) (JNum 3)); reflexivity.
Defined.

(** ** The aspect ratio *)

Lemma derived_height_rounds (w a : Z) :
  0 < a ->
  exists h, Aspect.derived_height (JNum w) (JNum a) = JNum h
            /\ 2 * a * h <= 2 * w + a < 2 * a * (h + 1).
Proof.
  intros Ha. destruct a as [|p|p]; try lia.
  eexists. split; [reflexivity|].
  cbv [Qfloor Qplus Qdiv Qmult Qinv inject_Z Qnum Qden].
  replace (w * 1 * Z.pos 2 + 1 * Z.pos (1 * p)) with (2 * w + Z.pos p) by lia.
  replace (Z.pos (1 * p * 2)) with (2 * Z.pos p) by lia.
  pose proof (Z.div_mod (2 * w + Z.pos p) (2 * Z.pos p) ltac:(lia)) as Hdm.
  pose proof (Z.mod_pos_bound (2 * w + Z.pos p) (2 * Z.pos p) ltac:(lia)) as Hb.
  nia.
Qed.

(** X17.  In the revision with [aspectRatio], a truthy [aspectRatio]
    together with a truthy [width] makes [height] irrelevant: two
    option bags that differ at most in [height] give the same pipeline,
    whose first step resizes to [width] by
    [Math.round(width / aspectRatio)].  For an integer width and a
    positive integer ratio, both below [2 ^ 32] in magnitude, that
    height is the quotient rounded to the nearest integer, halves
    upwards. *)
Theorem aspectRatio_overrides_height (o1 o2 : jsobject) :
  truthy (get_prop o1 "aspectRatio") = true ->
  truthy (get_prop o1 "width") = true ->
  agree_except "height" o1 o2 ->
  Aspect.steps o1 = Aspect.steps o2
  /\ (exists height rest,
        Aspect.steps o1 = Resize (get_prop o1 "width") height :: rest
        /\ (forall w a, get_prop o1 "width" = JNum w ->
                        get_prop o1 "aspectRatio" = JNum a ->
                        - 2 ^ 32 < w < 2 ^ 32 -> 0 < a < 2 ^ 32 ->
              exists h, height = JNum h
                        /\ 2 * a * h <= 2 * w + a < 2 * a * (h + 1))).
Proof.
  intros Ha Hw Hagree. split.
  - unfold Aspect.steps, Aspect.applyProcessingOptions. cbv zeta.
    rewrite <- !(Hagree "width") by discriminate.
    rewrite <- !(Hagree "aspectRatio") by discriminate.
    rewrite <- !(Hagree "crop") by discriminate.
    rewrite <- !(Hagree "blur") by discriminate.
    rewrite <- !(Hagree "sharpen") by discriminate.
    rewrite <- !(Hagree "grayscale") by discriminate.
    rewrite <- !(Hagree "tint") by discriminate.
    rewrite <- !(Hagree "brightness") by discriminate.
    rewrite <- !(Hagree "saturation") by discriminate.
    rewrite <- !(Hagree "contrast") by discriminate.
    rewrite <- !(Hagree "rotate") by discriminate.
    rewrite <- !(Hagree "flip") by discriminate.
    rewrite <- !(Hagree "flop") by discriminate.
    rewrite <- !(Hagree "watermark") by discriminate.
    rewrite <- !(Hagree "format") by discriminate.
    rewrite <- !(Hagree "quality") by discriminate.
    rewrite Ha, Hw. reflexivity.
  - exists (Aspect.derived_height (get_prop o1 "width") (get_prop o1 "aspectRatio")).
    unfold Aspect.steps, Aspect.applyProcessingOptions. cbv zeta.
    rewrite Ha, Hw. cbn [andb]. cbv iota.
    eexists. split; [cbn [app]; reflexivity|].
    intros w a -> -> _ [Hpos _]. now apply derived_height_rounds.
Qed.

Lemma aspectRatio_overrides_height_witness :
  Aspect.steps [("width", JNum 100); ("height", JNum 999); ("aspectRatio", JNum 3)]
  = Aspect.steps [("width", JNum 100); ("aspectRatio", JNum 3)]
  /\ exists rest,
       Aspect.steps [("width", JNum 100); ("height", JNum 999); ("aspectRatio", JNum 3)]
       = Resize (JNum 100) (JNum 33) :: rest.
Proof.
  destruct (aspectRatio_overrides_height
              [("width", JNum 100); ("height", JNum 999); ("aspectRatio", JNum 3)]
              [("width", JNum 100); ("aspectRatio", JNum 3)])
    as (Hsame & height & rest & Hsteps & Hround).
  - reflexivity.
  - reflexivity.
  - intros k Hk. cbn [get_prop].
    destruct (String.eqb_spec "height" k) as [E|_]; [congruence | reflexivity].
  - split; [exact Hsame|].
    destruct (Hround 100 3 eq_refl eq_refl) as (h & -> & Hh); [lia | lia |].
    assert (Eh : h = 33) by lia. subst h.
    exists rest. exact Hsteps.
Defined.

(** ** Batches with a failing item *)

Lemma index_of_in (h : nat) (hs : list nat) :
  In h hs -> exists i, index_of h hs = Some i.
Proof.
  induction hs as [|h' hs IH]; intros Hin; [destruct Hin|]. simpl.
  destruct (Nat.eqb_spec h' h) as [_|Hne]; [eauto|].
  destruct Hin as [E|Hin]; [contradiction|].
  destruct (IH Hin) as [i Hi]. rewrite Hi. eauto.
Qed.

Lemma all_step_still_pending (hs : list nat) (pre : list Settlement) :
  forall st : AllState,
    forallb fulfilment pre = true ->
    all_settled st = None ->
    (List.length pre < remaining st)%nat ->
    all_settled (fold_left (all_step hs) pre st) = None.
Proof.
  induction pre as [|ev pre IH]; intros st Hall Hst Hlen; [exact Hst|].
  simpl in Hall, Hlen. apply andb_prop in Hall as [Hev Hall].
  simpl. apply IH; [exact Hall | |]; unfold all_step;
    destruct (index_of (fst ev) hs); try assumption; try lia;
    unfold fulfilment in Hev; destruct (snd ev); try discriminate Hev; simpl.
  - rewrite Hst. destruct (remaining st) as [|[|r]]; simpl; [lia | lia | reflexivity].
  - lia.
Qed.

Lemma Promise_all_fail_fast (hs : list nat) (pre post : list Settlement)
      (h : nat) (e : JsError) :
  forallb fulfilment pre = true ->
  (List.length pre < List.length hs)%nat ->
  In h hs ->
  Promise_all hs (pre ++ (h, Rejected e) :: post) = Some (Rejected e).
Proof.
  intros Hall Hlen Hin. unfold Promise_all.
  rewrite fold_left_app. simpl. apply all_settled_stable.
  destruct (index_of_in h hs Hin) as [i Hi].
  unfold all_step at 1. simpl. rewrite Hi.
  rewrite (all_step_still_pending hs pre); [reflexivity | exact Hall | |].
  - destruct hs; [destruct Hin | reflexivity].
  - simpl. exact Hlen.
Qed.

(** X18.  [batchProcess] of ImageProcessor.ts fails fast.  All calls
    are in flight at once; as soon as one of them rejects while the
    batch is still incomplete the promise [batchProcess] returned
    rejects with that call's own error, not wrapped in "Batch image
    processing failed", whatever the other calls do later, and none of
    the results already obtained is returned. *)
Theorem batchProcess_fails_fast (inputs : list Buffer) (options : jsobject)
        (pre post : list Settlement) (h : nat) (e : JsError) :
  let evs := (pre ++ (h, Rejected e) :: post)%list in
  NoDup (map fst evs) ->
  Forall (fun ev => (fst ev < List.length inputs)%nat) evs ->
  forallb fulfilment pre = true ->
  Promise_all (map call_handle (calls_from 0 (map InBuffer inputs) options))
    (ImageProcessor.settled
       (fold_left ImageProcessor.finish evs
          (ImageProcessor.batchProcess 0 inputs options nothing_pending)))
  = Some (Rejected e).
Proof.
  intros evs Hnd Hrange Hall.
  assert (Hh : map call_handle (calls_from 0 (map InBuffer inputs) options)
               = seq 0 (List.length inputs))
    by now rewrite calls_from_handles, length_map.
  rewrite Forall_forall in Hrange.
  assert (Hin : forall ev, In ev evs -> In (fst ev) (seq 0 (List.length inputs))).
  { intros ev Hev. apply in_seq. specialize (Hrange ev Hev). lia. }
  destruct (ImageProcessor_finish_all evs
              (ImageProcessor.batchProcess 0 inputs options nothing_pending) Hnd)
    as [Hs _].
  { intros ev Hev. simpl. rewrite Hh. now apply Hin. }
  rewrite Hs, Hh. simpl. apply Promise_all_fail_fast; [exact Hall | |].
  - rewrite length_seq.
    assert (Hle : (List.length (map fst evs) <= List.length (seq 0 (List.length inputs)))%nat).
    { apply NoDup_incl_length; [exact Hnd|].
      intros x Hx. apply in_map_iff in Hx as (ev & <- & Hev). now apply Hin. }
    rewrite length_map, length_seq in Hle. unfold evs in Hle.
    rewrite length_app in Hle. simpl in Hle. lia.
  - apply (Hin (h, Rejected e)). unfold evs. apply in_or_app. right. now left.
Qed.

Lemma batchProcess_fails_fast_witness :
  Promise_all (map call_handle
                 (calls_from 0 (map InBuffer [one_byte; two_bytes; three_bytes]) []))
    (ImageProcessor.settled
       (fold_left ImageProcessor.finish
          ([(2%nat, Fulfilled (png_image 3 3))]
             ++ (1%nat, Rejected (PlainError "Input file is missing"))
             :: [(0%nat, Fulfilled (png_image 1 1))])%list
          (ImageProcessor.batchProcess 0 [one_byte; two_bytes; three_bytes] []
             nothing_pending)))
  = Some (Rejected (PlainError "Input file is missing")).
Proof.
  apply (batchProcess_fails_fast [one_byte; two_bytes; three_bytes] []
           [(2%nat, Fulfilled (png_image 3 3))]
           [(0%nat, Fulfilled (png_image 1 1))]
           1%nat (PlainError "Input file is missing")).
  - repeat constructor; simpl; intuition discriminate.
  - repeat constructor; simpl; lia.
  - reflexivity.
Defined.

Lemma map_fst_combine_exact {A : Type} (hs : list nat) (os : list A) :
  List.length os = List.length hs -> map fst (combine hs os) = hs.
Proof.
  revert os. induction hs as [|h hs IH]; intros [|o os] Hlen;
    try discriminate; simpl; [reflexivity|].
  f_equal. apply IH. now injection Hlen.
Qed.

Lemma combine_seq_split (os : list (Outcome ProcessedImage)) :
  forall (base i : nat) (o : Outcome ProcessedImage),
    nth_error os i = Some o ->
    combine (seq base (List.length os)) os
    = (combine (seq base i) (firstn i os)
         ++ ((base + i)%nat, o)
         :: combine (seq (S (base + i)) (List.length os - S i)) (skipn (S i) os))%list.
Proof.
  induction os as [|o' os IH]; intros base i o Hnth.
  - destruct i; discriminate.
  - destruct i as [|i]; simpl in Hnth.
    + injection Hnth as ->. simpl. now rewrite Nat.add_0_r, Nat.sub_0_r.
    + simpl. f_equal. rewrite (IH (S base) i o Hnth).
      now rewrite <- plus_n_Sm.
Qed.

Lemma forallb_fulfilment_combine (os : list (Outcome ProcessedImage)) :
  forall hs : list nat,
    forallb is_fulfilled os = true ->
    forallb fulfilment (combine hs os) = true.
Proof.
  induction os as [|o os IH]; intros [|h hs] Hall; try reflexivity.
  simpl in *. apply andb_prop in Hall as [Ho Hall].
  unfold fulfilment at 1. simpl. rewrite Ho. now apply IH.
Qed.

(** X19.  The queued [batchProcess] runs every item, failures
    notwithstanding.  When the items, processed one after the other,
    settle with the outcomes [os], every handle is settled with its own
    outcome in input order and the scheduler ends idle with an empty
    queue: a rejection does not stop the queue.  The promise
    [batchProcess] returned rejects all the same, with the error of the
    first item in input order that failed. *)
Theorem queued_batch_runs_every_item (base : nat) (inputs : list Input)
        (options : jsobject) (os : list (Outcome ProcessedImage)) :
  List.length os = List.length inputs ->
  let handles := map call_handle (calls_from base inputs options) in
  let s := fold_left Queued.finish (combine handles os)
                     (Queued.batchProcess base inputs options Queued.idle) in
  s = {| Queued.queue := []; Queued.isProcessing := false;
         Queued.inflight := []; Queued.settled := combine handles os |}
  /\ (forall i e,
        nth_error os i = Some (Rejected e) ->
        forallb is_fulfilled (firstn i os) = true ->
        Promise_all handles (Queued.settled s) = Some (Rejected e)).
Proof.
  intros Hlen handles s.
  assert (Hh : handles = seq base (List.length inputs))
    by apply calls_from_handles.
  assert (Hfst : map fst (combine handles os)
                 = map call_handle (calls_from base inputs options)).
  { apply map_fst_combine_exact. unfold handles.
    now rewrite calls_from_handles, length_seq. }
  assert (Hs : s = {| Queued.queue := []; Queued.isProcessing := false;
                      Queued.inflight := []; Queued.settled := combine handles os |}).
  { unfold s. clearbody handles. rewrite Queued_batchProcess_idle.
    destruct (calls_from base inputs options) as [|c cs].
    - simpl in Hfst. destruct (combine handles os); [reflexivity | discriminate].
    - now rewrite Queued_drain. }
  split; [exact Hs|].
  intros i e Hnth Hall. rewrite Hs. simpl. rewrite Hh, <- Hlen.
  rewrite (combine_seq_split os base i (Rejected e) Hnth).
  assert (Hi : (i < List.length os)%nat)
    by (apply nth_error_Some; rewrite Hnth; discriminate).
  apply Promise_all_fail_fast.
  - now apply forallb_fulfilment_combine.
  - pose proof (length_combine (seq base i) (firstn i os)) as Hc.
    rewrite length_seq, length_firstn in Hc. rewrite length_seq.
    unfold Settlement in *. lia.
  - apply in_seq. lia.
Qed.

Lemma queued_batch_runs_every_item_witness :
  Queued.settled
    (fold_left Queued.finish
       (combine (map call_handle
                   (calls_from 0 [InBuffer one_byte; InString "a.png"; InBuffer two_bytes] []))
                [Fulfilled (png_image 1 1);
                 Rejected (PlainError "Input file is missing");
                 Fulfilled (png_image 2 2)])
       (Queued.batchProcess 0 [InBuffer one_byte; InString "a.png"; InBuffer two_bytes]
                            [] Queued.idle))
  = [(0%nat, Fulfilled (png_image 1 1));
     (1%nat, Rejected (PlainError "Input file is missing"));
     (2%nat, Fulfilled (png_image 2 2))].
Proof.
  destruct (queued_batch_runs_every_item 0
              [InBuffer one_byte; InString "a.png"; InBuffer two_bytes] []
              [Fulfilled (png_image 1 1);
               Rejected (PlainError "Input file is missing");
               Fulfilled (png_image 2 2)] eq_refl) as [Hs _].
  rewrite Hs. reflexivity.
Defined.

(** ** Where the watermark text lands *)

Ltac q_arith :=
  unfold Qdiv in *;
  change (/ 2)%Q with (1 # 2)%Q in *;
  change (/ 4)%Q with (1 # 4)%Q in *;
  lra.

Lemma ImageProcessor_x_by_position (W H tw size pad : Q) (p : WatermarkPosition) :
  fst (ImageProcessor.getWatermarkPosition W H tw size (position_string p) pad)
  = match p with
    | TopLeft | BottomLeft => (tw / 2 + (pad + size / 4))%Q
    | TopRight | BottomRight => (W - tw / 2 - (pad + size / 4))%Q
    | Center => (W / 2)%Q
    end.
Proof.
  destruct p; reflexivity.
Qed.

(** X20.  The watermark of ImageProcessor.ts is drawn with
    [text-anchor: middle], and [getWatermarkPosition] offsets [x] by
    half the text width to match: at the left positions the text
    starts [10 + size / 4] from the left edge, at the right positions
    it ends as far from the right edge, and at the centre it is
    centred.  So whenever the estimated text width and both margins fit
    into the image width, the text lies inside the image, margins
    included, at every position. *)
Theorem watermark_text_within_image (W H size : Q) (text : string)
        (p : WatermarkPosition) :
  let position := position_string p in
  let tw := ImageProcessor.watermarkTextWidth text size in
  let margin := ((10 # 1) + size / 4)%Q in
  let x := fst (ImageProcessor.generateWatermarkSVG_xy W H text size position) in
  let extent := text_extent (ImageProcessor.textAnchor position) x tw in
  (match p with
   | TopLeft | BottomLeft => fst extent == margin
   | TopRight | BottomRight => snd extent == W - margin
   | Center => fst extent + snd extent == W
   end
   /\ (tw + 2 * margin <= W ->
       margin <= fst extent /\ snd extent <= W - margin))%Q.
Proof.
  intros position tw margin x extent.
  unfold extent, x, ImageProcessor.generateWatermarkSVG_xy, position.
  rewrite ImageProcessor_x_by_position. fold tw.
  change (text_extent (ImageProcessor.textAnchor (position_string p)))
    with (fun x w : Q => ((x - w / 2)%Q, (x + w / 2)%Q)).
  unfold margin. clearbody tw.
  destruct p; cbn [fst snd]; (split; [q_arith | intros Hfit; split; q_arith]).
Qed.

Lemma watermark_text_within_image_witness :
  ((10 # 1) + (24 # 1) / 4
   <= fst (text_extent "middle"
             (fst (ImageProcessor.generateWatermarkSVG_xy
                     (800 # 1) (600 # 1) "Sharpify" (24 # 1) "center"))
             (ImageProcessor.watermarkTextWidth "Sharpify" (24 # 1))))%Q.
Proof.
  apply (watermark_text_within_image (800 # 1) (600 # 1) (24 # 1) "Sharpify" Center).
  vm_compute. discriminate.
Defined.

Lemma ImageWatermark_x_by_position (W tw : Q) (p : WatermarkPosition) :
  ImageWatermark.getXPosition (position_string p) W tw
  = match p with
    | TopLeft | BottomLeft => 10 # 1
    | TopRight | BottomRight => (W - tw - (10 # 1))%Q
    | Center => ((W - tw) / 2)%Q
    end.
Proof.
  destruct p; reflexivity.
Qed.

(** X21.  The watermark of processors/watermark.ts is drawn with the
    default anchor, the start of the text at [x]: [getXPosition] puts
    the text 10 from the left edge at the left positions, makes it end
    10 from the right edge at the right positions, and centres it
    otherwise.  Whenever the estimated text width and both margins fit
    into the image width the text lies inside the image at every
    position. *)
Theorem getXPosition_within_image (W size : Q) (text : string)
        (p : WatermarkPosition) :
  let tw := ImageWatermark.textWidth text size in
  let x := ImageWatermark.getXPosition (position_string p) W tw in
  let extent := text_extent "start" x tw in
  (match p with
   | TopLeft | BottomLeft => fst extent == 10 # 1
   | TopRight | BottomRight => snd extent == W - (10 # 1)
   | Center => fst extent + snd extent == W
   end
   /\ (tw + (20 # 1) <= W ->
       (10 # 1) <= fst extent /\ snd extent <= W - (10 # 1)))%Q.
Proof.
  intros tw x extent. unfold extent, x.
  rewrite ImageWatermark_x_by_position.
  change (text_extent "start") with (fun x w : Q => (x, (x + w)%Q)).
  clearbody tw.
  destruct p; cbn [fst snd]; (split; [q_arith | intros Hfit; split; q_arith]).
Qed.

Lemma getXPosition_within_image_witness :
  (snd (text_extent "start"
          (ImageWatermark.getXPosition "bottom-right" (800 # 1)
             (ImageWatermark.textWidth "Sharpify" (24 # 1)))
          (ImageWatermark.textWidth "Sharpify" (24 # 1)))
   <= (800 # 1) - (10 # 1))%Q.
Proof.
  apply (getXPosition_within_image (800 # 1) (24 # 1) "Sharpify" BottomRight).
  vm_compute. discriminate.
Defined.

Lemma Padded_position_by_case (W H tw size pad : Q) (p : WatermarkPosition) :
  (Padded.getWatermarkPosition W H tw size (position_string p) pad,
   Padded.textAnchor (position_string p))
  = match p with
    | TopLeft => (pad, (pad + size)%Q, "start")
    | TopRight => ((W - pad)%Q, (pad + size)%Q, "end")
    | BottomLeft => (pad, (H - pad)%Q, "start")
    | BottomRight => ((W - pad)%Q, (H - pad)%Q, "end")
    | Center => ((W / 2)%Q, (H / 2)%Q, "middle")
    end.
Proof.
  destruct p; reflexivity.
Qed.

(** X22.  The background rectangle of the revision with [padding]
    frames the text.  At every position the rectangle reaches
    [padding / 2] beyond the text on the left and on the right, the
    text taken as the anchor says: starting at [x], ending at [x], or
    centred on [x].  Downwards it reaches [padding / 2] below [y], and
    upwards [size + padding / 2] above it.  When the padding is not
    negative and the estimated text width with a padding on each side
    fits into the image width, the rectangle lies inside the image
    horizontally. *)
Theorem backgroundRect_frames_text (W H size padding : Q) (text : string)
        (p : WatermarkPosition) :
  let position := position_string p in
  let tw := Padded.estimatedTextWidth text size in
  let xy := Padded.getWatermarkPosition W H tw size position padding in
  let anchor := Padded.textAnchor position in
  let extent := text_extent anchor (fst xy) tw in
  let '(rx, ry, rw, rh) :=
    Padded.backgroundRect (fst xy) (snd xy) tw size padding anchor in
  (rx == fst extent - padding / 2
   /\ rx + rw == snd extent + padding / 2
   /\ ry == snd xy - size - padding / 2
   /\ ry + rh == snd xy + padding / 2
   /\ (0 <= padding -> tw + 2 * padding <= W -> 0 <= rx /\ rx + rw <= W))%Q.
Proof.
  intros position tw xy anchor extent.
  unfold extent, xy, anchor, position.
  pose proof (Padded_position_by_case W H tw size padding p) as Hcase.
  clearbody tw.
  destruct (Padded.getWatermarkPosition W H tw size (position_string p) padding)
    as [x y].
  destruct p; injection Hcase as -> ->;
    match goal with
    | |- context [Padded.textAnchor ?s] =>
        let a := eval vm_compute in (Padded.textAnchor s) in
        change (Padded.textAnchor s) with a
    end;
    cbv [Padded.backgroundRect text_extent String.eqb Ascii.eqb Bool.eqb fst snd];
    repeat split; try q_arith; intros; q_arith.
Qed.

Lemma backgroundRect_frames_text_witness :
  (0 <= fst (fst (fst (Padded.backgroundRect
                         (fst (Padded.getWatermarkPosition (800 # 1) (600 # 1)
                                 (Padded.estimatedTextWidth "Sharpify" (24 # 1))
                                 (24 # 1) "bottom-right" (20 # 1)))
                         (snd (Padded.getWatermarkPosition (800 # 1) (600 # 1)
                                 (Padded.estimatedTextWidth "Sharpify" (24 # 1))
                                 (24 # 1) "bottom-right" (20 # 1)))
                         (Padded.estimatedTextWidth "Sharpify" (24 # 1))
                         (24 # 1) (20 # 1) "end"))))%Q.
Proof.
  pose proof (backgroundRect_frames_text (800 # 1) (600 # 1) (24 # 1) (20 # 1)
                "Sharpify" BottomRight) as Hframe.
  cbv zeta in Hframe.
  change (position_string BottomRight) with "bottom-right" in Hframe.
  change (Padded.textAnchor "bottom-right") with "end" in Hframe.
  destruct (Padded.backgroundRect _ _ _ _ _ "end") as [[[rx ry] rw] rh].
  destruct Hframe as (_ & _ & _ & _ & Hin).
  apply Hin; vm_compute; discriminate.
Defined.

(** ** The order of the steps in the queued revision *)

Lemma queued_order_sorted : StronglySorted queued_before queued_order.
Proof.
  unfold queued_order, queued_before.
  repeat (constructor; [|repeat constructor; simpl; lia]). constructor.
Qed.

Lemma Queued_steps_kinds (options : jsobject) :
  map kind (Queued.steps options) = filter (queued_enabled options) queued_order.
Proof.
  unfold Queued.steps, queued_order.
  rewrite !map_app, !map_when, !filter_cons_app. simpl filter.
  rewrite app_nil_r. unfold queued_enabled. simpl kind.
  repeat f_equal.
  unfold linear_step.
  destruct (truthy (get_prop options "contrast"));
    destruct (get_prop options "contrast"); reflexivity.
Qed.

(** X23.  The queued [process] has an order of its own: resize, blur,
    sharpen, grayscale, rotate, flip, flop, tint, modulation, linear
    contrast, watermark, circle mask, encode.  Its pipeline is the
    enabled steps in that order, so each operation is applied at most
    once and of any two steps the earlier one comes earlier in that
    order; [crop] is never applied, whatever the options say; the
    circle mask comes after the watermark and so cuts it; and nothing
    follows the encode step. *)
Theorem queued_step_order (options : jsobject) :
  map kind (Queued.steps options) = filter (queued_enabled options) queued_order
  /\ (forall pre a mid b post,
        Queued.steps options = (pre ++ a :: mid ++ b :: post)%list ->
        queued_before (kind a) (kind b))
  /\ (forall s, In s (Queued.steps options) -> kind s <> KCrop)
  /\ (forall pre a mid b post,
        Queued.steps options = (pre ++ a :: mid ++ b :: post)%list ->
        kind b = KOverlay -> kind a <> KMask)
  /\ (forall pre a post,
        Queued.steps options = (pre ++ a :: post)%list ->
        kind a = KEncode -> post = []).
Proof.
  assert (Hpair : forall pre a mid b post,
             Queued.steps options = (pre ++ a :: mid ++ b :: post)%list ->
             queued_before (kind a) (kind b)).
  { intros pre a mid b post Heq.
    pose proof (StronglySorted_filter queued_before (queued_enabled options)
                  queued_order queued_order_sorted) as Hs.
    rewrite <- Queued_steps_kinds, Heq, map_app in Hs.
    simpl in Hs. rewrite map_app in Hs. simpl in Hs.
    now apply StronglySorted_apart in Hs. }
  split; [apply Queued_steps_kinds|]. split; [exact Hpair|]. split; [|split].
  - intros s Hin Hk.
    apply (in_map kind) in Hin. rewrite Queued_steps_kinds, Hk in Hin.
    apply filter_In in Hin as [_ Hen]. discriminate Hen.
  - intros pre a mid b post Heq Hb Ha.
    specialize (Hpair _ _ _ _ _ Heq). unfold queued_before in Hpair.
    rewrite Ha, Hb in Hpair. simpl in Hpair. lia.
  - intros pre a post Heq Ha. destruct post as [|b post]; [reflexivity|].
    pose proof (Hpair pre a [] b post Heq) as Hlt.
    unfold queued_before in Hlt. rewrite Ha in Hlt. simpl in Hlt.
    assert (Hin : In b (Queued.steps options))
      by (rewrite Heq; apply in_or_app; right; right; now left).
    apply (in_map kind) in Hin. rewrite Queued_steps_kinds in Hin.
    apply filter_In in Hin as [_ Hen].
    destruct (kind b); simpl in Hlt; try lia. discriminate Hen.
Qed.

Lemma queued_step_order_witness :
  queued_before KRotate KTint.
Proof.
  destruct (queued_step_order rotate_and_tint) as (_ & Hpair & _).
  apply (Hpair [] (Rotate (JNum 90)) [] (Tint (JStr "red")) []).
  reflexivity.
Defined.
